(** * Contact zones: preprocessing

    A shallow embedding of [preprocessing.py]: the feature-likelihood lookup
    table, the geo-prior estimation, the spatial network and the simulation
    helpers, followed by the properties proved about them.

    Conventions of the embedding.
    - Python integers are [Z]; list positions and counts of trials are [nat].
    - Floating-point numbers are idealised as exact numbers: real numbers
      ([R], extended by the two infinities) where the code takes logarithms
      or square roots, rationals ([Q]) where it only adds, divides and
      compares, so that those definitions run.  Rounding and overflow are
      outside the model.  A float that can be [nan] is an [npfloat]: the
      quotient 0/0 of a mean of nothing and of gamma draws that underflow to
      0, and a missing concentration.
    - Python exceptions are values of [exn]; a call that can raise returns a
      [result].
    - Dictionaries are [gmap]s; [d.items()] is [map_to_list d].
    - Calls into numpy's random generator thread an explicit generator
      state. *)

From Stdlib Require Import ZArith QArith Qabs Reals Lra Lia List String.
From stdpp Require Import base option gmap list fin_maps.

(** ** Exceptions and loops *)

Inductive exn : Type :=
  | ValueError
  | ZeroDivisionError
  | KeyError
  | IndexError
  | TypeError.

#[global] Instance exn_eq_dec : EqDecision exn.
Proof. solve_decision. Defined.

Inductive result (A : Type) : Type :=
  | OK (a : A)
  | Raise (e : exn).
Arguments OK {A} a.
Arguments Raise {A} e.

#[global] Instance result_ret : MRet result := fun A a => OK a.
#[global] Instance result_bind : MBind result := fun A B f c =>
  match c with
  | OK a => f a
  | Raise e => Raise e
  end.

(** [try: c except E: h] for one exception class [E]. *)
Definition try_except {A} (c : result A) (E : exn) (h : result A) : result A :=
  match c with
  | OK a => OK a
  | Raise e => if decide (e = E) then h else Raise e
  end.

(** [try: c except Exception as e: h e]. *)
Definition try_except_all {A} (c : result A) (h : exn -> result A) : result A :=
  match c with
  | OK a => OK a
  | Raise e => h e
  end.

(** [for x in xs: st = body x st], stopping at the first exception. *)
Fixpoint for_in {A S} (xs : list A) (body : A -> S -> result S) (st : S)
  : result S :=
  match xs with
  | [] => OK st
  | x :: xs' => st' ← body x st; for_in xs' body st'
  end.

(** Evaluate [f] on every element, left to right. *)
Fixpoint map_result {A B} (f : A -> result B) (xs : list A) : result (list B) :=
  match xs with
  | [] => OK []
  | x :: xs' => y ← f x; ys ← map_result f xs'; OK (y :: ys)
  end.

(** The step of a loop that stores [g x] under the key [key x]. *)
Definition store_step {A V} (key : A -> Z) (g : A -> result V)
    (x : A) (m : gmap Z V) : result (gmap Z V) :=
  v ← g x; OK (<[key x := v]> m).

(** [range(a, b)] *)
Definition range (a b : Z) : list Z := seqZ a (b - a).

(** [d[k]] on a dictionary. *)
Definition getitem {V} (d : gmap Z V) (k : Z) : result V :=
  match d !! k with
  | Some v => OK v
  | None => Raise KeyError
  end.

(** ** Extended reals *)

Inductive ereal : Type :=
  | NInf
  | Fin (r : R)
  | PInf.

Definition eneg (x : ereal) : ereal :=
  match x with
  | NInf => PInf
  | Fin r => Fin (- r)
  | PInf => NInf
  end.

Definition ele (x y : ereal) : Prop :=
  match x, y with
  | NInf, _ => True
  | _, PInf => True
  | Fin a, Fin b => (a <= b)%R
  | _, _ => False
  end.

(** ** The feature-likelihood lookup table *)

Module Lookup.

(** [math.log]: the logarithm of a positive number, [inf] at [inf], and a
    [ValueError] (math domain error) at zero and below. *)
Definition math_log (x : ereal) : result ereal :=
  match x with
  | PInf => OK PInf
  | NInf => Raise ValueError
  | Fin r => if Rlt_dec 0 r then OK (Fin (ln r)) else Raise ValueError
  end.

(** [1 / p] on floats *)
Definition float_inv (p : R) : result ereal :=
  if Req_dec_T p 0 then Raise ZeroDivisionError else OK (Fin (1 / p)).

(** Probability of exactly [k] successes in [n] trials. *)
Definition binom_pmf (n : nat) (p : R) (k : nat) : R :=
  (C n k * p ^ k * (1 - p) ^ (n - k))%R.

Definition Rsum (l : list R) : R := foldr Rplus 0%R l.

(** P(X >= s) for X binomial with [n] trials and success probability [p]. *)
Definition binom_tail (s n : nat) (p : R) : R :=
  Rsum (map (binom_pmf n p) (seq s (S n - s))).

(** [scipy.stats.binom_test(x, n, p, 'greater')], from its documentation:
    the probability of [x] or more successes; a [ValueError] when [n < x]
    or [p] is outside [0, 1]. *)
Definition binom_test (x n : Z) (p : R) : result R :=
  if (n <? x)%Z then Raise ValueError
  else if Rlt_dec p 0 then Raise ValueError
  else if Rlt_dec 1 p then Raise ValueError
  else OK (binom_tail (Z.to_nat x) (Z.to_nat n) p).

(** The inner function [ll] of [precompute_feature_likelihood]. *)
Definition ll (s_zone n_zone : Z) (p_global : R) (log_surprise : bool)
  : result ereal :=
  p_value ← binom_test s_zone n_zone p_global;
  lh ← (if log_surprise then
          try_except_all
            (l ← math_log (Fin p_value); OK (eneg l))
            (fun e => Raise e)
        else
          try_except (float_inv p_value) ZeroDivisionError (OK PInf));
  try_except (math_log lh) ValueError (OK NInf).

(** The same function with [stats.binom_test] as a parameter: what [ll]
    does with the p-value it is given, whatever number the test computes
    (scipy's is a float, which can be 0 by underflow where the exact tail
    is positive). *)
Definition ll_with (stats_binom_test : Z -> Z -> R -> result R)
    (s_zone n_zone : Z) (p_global : R) (log_surprise : bool)
  : result ereal :=
  p_value ← stats_binom_test s_zone n_zone p_global;
  lh ← (if log_surprise then
          try_except_all
            (l ← math_log (Fin p_value); OK (eneg l))
            (fun e => Raise e)
        else
          try_except (float_inv p_value) ZeroDivisionError (OK PInf));
  try_except (math_log lh) ValueError (OK NInf).

(** The score [ll] returns, as a function of the tail probability. *)
Definition score_log (p_value : R) : ereal :=
  if Rlt_dec 0 (- ln p_value) then Fin (ln (- ln p_value)) else NInf.

Definition score_inv (p_value : R) : ereal :=
  if Req_dec_T p_value 0 then PInf
  else if Rlt_dec 0 (1 / p_value) then Fin (ln (1 / p_value)) else NInf.

(** The table: feature, category, zone size, observed count. *)
Abbreviation counts_t := (gmap Z ereal).
Abbreviation sizes_t := (gmap Z (gmap Z ereal)).
Abbreviation cats_t := (gmap Z (gmap Z (gmap Z ereal))).
Abbreviation table := (gmap Z (gmap Z (gmap Z (gmap Z ereal)))).

(** [lookup_dict[features] = {}] *)
Definition set_feature (features : Z) (lookup_dict : table) : result table :=
  OK (<[features := ∅]> lookup_dict).

(** [lookup_dict[features][cat] = {}] *)
Definition set_cat (features cat : Z) (lookup_dict : table) : result table :=
  df ← getitem lookup_dict features;
  OK (<[features := <[cat := ∅]> df]> lookup_dict).

(** [lookup_dict[features][cat][n_zone] = {}] *)
Definition set_size (features cat n_zone : Z) (lookup_dict : table)
  : result table :=
  df ← getitem lookup_dict features;
  dc ← getitem df cat;
  OK (<[features := <[cat := <[n_zone := ∅]> dc]> df]> lookup_dict).

(** [lookup_dict[features][cat][n_zone][s_zone] = v] *)
Definition set_score (features cat n_zone s_zone : Z) (v : ereal)
    (lookup_dict : table) : result table :=
  df ← getitem lookup_dict features;
  dc ← getitem df cat;
  dn ← getitem dc n_zone;
  OK (<[features := <[cat := <[n_zone := <[s_zone := v]> dn]> dc]> df]>
        lookup_dict).

(** The four nested loops, innermost first. *)
Definition for_s_zone (log_surprise : bool) (features cat : Z) (p_global : R)
    (n_zone : Z) : table -> result table :=
  for_in (range 0 (n_zone + 1)) (fun s_zone lookup_dict =>
    v ← ll s_zone n_zone p_global log_surprise;
    set_score features cat n_zone s_zone v lookup_dict).

Definition for_n_zone (min_size max_size : Z) (log_surprise : bool)
    (features cat : Z) (p_global : R) : table -> result table :=
  for_in (range min_size (max_size + 1)) (fun n_zone lookup_dict =>
    lookup_dict ← set_size features cat n_zone lookup_dict;
    for_s_zone log_surprise features cat p_global n_zone lookup_dict).

Definition for_cat (min_size max_size : Z) (log_surprise : bool)
    (features : Z) (categories : gmap Z R) : table -> result table :=
  for_in (map_to_list categories) (fun '(cat, p_global) lookup_dict =>
    (* -1 denotes missing values *)
    if decide (cat ≠ (-1)%Z) then
      lookup_dict ← set_cat features cat lookup_dict;
      for_n_zone min_size max_size log_surprise features cat p_global
        lookup_dict
    else OK lookup_dict).

Definition precompute_feature_likelihood (min_size max_size : Z)
    (feat_prob : gmap Z (gmap Z R)) (log_surprise : bool) : result table :=
  for_in (map_to_list feat_prob) (fun '(features, categories) lookup_dict =>
    lookup_dict ← set_feature features lookup_dict;
    for_cat min_size max_size log_surprise features categories lookup_dict) ∅.

(** [lookup_dict[f][c]] and [lookup_dict[f][c][n]] as partial functions. *)
Definition cat_dict (t : table) (f c : Z) : option sizes_t :=
  df ← t !! f; df !! c.

Definition size_dict (t : table) (f c n : Z) : option counts_t :=
  df ← t !! f; dc ← df !! c; dc !! n.

(** [lookup_dict[f][c][n][s]] as a partial function. *)
Definition entry (t : table) (f c n s : Z) : option ereal :=
  df ← t !! f; dc ← df !! c; dn ← dc !! n; dn !! s.

(** The same table built bottom-up, each dictionary filled before it is
    stored; the proofs go through this form ([precompute_bottom_up]). *)
Section bottom_up.
Variables (min_size max_size : Z) (log_surprise : bool).

Definition counts_of (p_global : R) (n_zone : Z) (ss : list Z)
  : counts_t -> result counts_t :=
  for_in ss (fun s_zone dn =>
    v ← ll s_zone n_zone p_global log_surprise; OK (<[s_zone := v]> dn)).

Definition sizes_of (p_global : R) (ns : list Z) : sizes_t -> result sizes_t :=
  for_in ns (fun n_zone dc =>
    dn ← counts_of p_global n_zone (range 0 (n_zone + 1)) ∅;
    OK (<[n_zone := dn]> dc)).

Definition cats_of (cs : list (Z * R)) : cats_t -> result cats_t :=
  for_in cs (fun '(cat, p_global) df =>
    if decide (cat ≠ (-1)%Z) then
      dc ← sizes_of p_global (range min_size (max_size + 1)) ∅;
      OK (<[cat := dc]> df)
    else OK df).

Definition table_of (fs : list (Z * gmap Z R)) : table -> result table :=
  for_in fs (fun '(features, categories) d =>
    df ← cats_of (map_to_list categories) ∅;
    OK (<[features := df]> d)).
End bottom_up.

(** A category that is not the missing-value marker. *)
Definition present (x : Z * R) : Prop := x.1 ≠ (-1)%Z.

#[global] Instance present_dec x : Decision (present x).
Proof. unfold present. apply _. Defined.

(** The input of end-to-end scenario 2. *)
Definition half : R := (1 / 2)%R.
Definition scenario2 : gmap Z (gmap Z R) :=
  {[ 0%Z := <[ 0%Z := half ]> {[ 1%Z := half ]} ]}.

End Lookup.

(** ** Numbers over the rationals *)

(** A float that may be [nan] (the mean of nothing, a division 0/0). *)
Inductive npfloat : Type :=
  | nan
  | num (q : Q).

Definition Qsum (l : list Q) : Q := foldr Qplus 0%Q l.

(** [np.mean] of a flat array *)
Definition np_mean (l : list Q) : npfloat :=
  match l with
  | [] => nan
  | _ => num (Qsum l / inject_Z (Z.of_nat (length l)))
  end.

Definition Qnonzero (q : Q) : bool := negb (Qeq_bool q 0).

(** [np.mean] of the entries selected from a sparse matrix: selecting no
    entry gives an empty sparse matrix, whose mean is 0 and not [nan]. *)
Definition selection_mean (l : list Q) : npfloat :=
  match l with
  | [] => num 0
  | _ => np_mean l
  end.

(** ** The geo-prior parameters

    Distances and coordinates are rationals here; of the dictionary
    [network] only the keys the function reads are kept. *)

Module GeoPrior.

Abbreviation matrix := (list (list Q)).

Definition same_shape (a b : matrix) : bool :=
  (length a =? length b)%nat &&
  forallb (fun '(r1, r2) => (length r1 =? length r2)%nat) (zip a b).

(** [a.multiply(b)]: the element-wise product of two matrices of one shape,
    as [compute_network] builds them.  (scipy also stretches a single row,
    a single column or a single number over the other operand; such operands
    are not covered, the definition raises for them.) *)
Definition multiply (a b : matrix) : result matrix :=
  if same_shape a b then OK (zip_with (zip_with Qmult) a b)
  else Raise ValueError.

(** [m.nonzero()]: the positions of the non-zero entries, row by row. *)
Definition nonzero (m : matrix) : list (nat * nat) :=
  mjoin (imap (fun i row =>
    omap (fun x => x)
      (imap (fun j x => if Qnonzero x then Some (i, j) else None) row)) m).

(** [m[i, j]] *)
Definition at_ (m : matrix) (ij : nat * nat) : result Q :=
  match m !! ij.1 ≫= (.!! ij.2) with
  | Some x => OK x
  | None => Raise IndexError
  end.

(** [m[idx]] for a list of positions *)
Definition take_at (m : matrix) (idx : list (nat * nat)) : result (list Q) :=
  map_result (at_ m) idx.

Record network : Type := {
  locations : list (Q * Q);
  dist_mat : matrix
}.

Record parameters : Type := {
  uniform : option unit;
  gaussian : option (list (list npfloat));
  distance : option npfloat
}.

(** [locations[i]] *)
Definition location (locs : list (Q * Q)) (i : nat) : result (Q * Q) :=
  match locs !! i with
  | Some x => OK x
  | None => Raise IndexError
  end.

(** [np.cov(diffs.T)] for an N x 2 array [diffs]: the sample covariance of
    the two columns, [nan] when there are fewer than two rows. *)
Definition np_cov (diffs : list (Q * Q)) : list (list npfloat) :=
  let n := length diffs in
  let col (k : bool) := map (fun d : Q * Q => if k then d.1 else d.2) diffs in
  let centred (k : bool) :=
    let c := col k in
    map (fun x => x - Qsum c / inject_Z (Z.of_nat n))%Q c in
  let entry (a b : bool) :=
    if (n <=? 1)%nat then nan
    else num (Qsum (zip_with Qmult (centred a) (centred b))
              / inject_Z (Z.of_nat n - 1)) in
  [[entry true true; entry true false];
   [entry false true; entry false false]].

Section estimate.
(** [compute_delaunay] lives in [src.util]; the adjacency matrix it returns
    for a list of locations is a parameter here. *)
Variable compute_delaunay : list (Q * Q) -> result matrix.

Definition estimate_geo_prior_parameters (net : network) (geo_prior : string)
  : result parameters :=
  let parameters :=
    {| uniform := None; gaussian := None; distance := None |} in
  if decide (geo_prior = "uniform"%string) then OK parameters
  else
    let dist_mat := dist_mat net in
    let locations := locations net in
    delaunay ← compute_delaunay locations;
    mst ← multiply delaunay dist_mat;
    if decide (geo_prior = "gaussian"%string) then
      let idx := nonzero mst in
      l1 ← map_result (location locations) (map fst idx);
      l2 ← map_result (location locations) (map snd idx);
      let diffs :=
        zip_with (fun a b : Q * Q => (a.1 - b.1, a.2 - b.2)%Q) l1 l2 in
      let n := inject_Z (Z.of_nat (length diffs)) in
      let mean := (Qsum (map fst diffs) / n, Qsum (map snd diffs) / n)%Q in
      let diffs :=
        map (fun d : Q * Q => (d.1 - mean.1, d.2 - mean.2)%Q) diffs in
      OK {| uniform := None; gaussian := Some (np_cov diffs);
            distance := None |}
    else if decide (geo_prior = "distance"%string) then
      distances ← take_at mst (nonzero mst);
      OK {| uniform := None; gaussian := None;
            distance := Some (selection_mean distances) |}
    else Raise ValueError.
End estimate.

(** *** The minimum spanning tree the specification speaks of

    The call [minimum_spanning_tree(delaunay.multiply(dist_mat))] of
    [scipy.sparse.csgraph] is commented out in the source; this is Kruskal's
    algorithm on the undirected graph whose edges are the non-zero entries
    of the weighted matrix. *)

Definition edge : Type := nat * nat * Q.
Definition weight (e : edge) : Q := e.2.

Definition weighted_edges (m : matrix) : list edge :=
  omap (fun ij : nat * nat =>
          if (ij.1 <? ij.2)%nat then
            x ← m !! ij.1 ≫= (.!! ij.2); Some (ij.1, ij.2, x)
          else None)
       (nonzero m).

Fixpoint insert_edge (e : edge) (es : list edge) : list edge :=
  match es with
  | [] => [e]
  | e' :: es' =>
      if Qle_bool (weight e) (weight e') then e :: es
      else e' :: insert_edge e es'
  end.

Definition sort_edges (es : list edge) : list edge := foldr insert_edge [] es.

(** Component labels: position [i] holds the label of vertex [i]. *)
Definition find (comp : list nat) (i : nat) : nat := nth i comp i.
Definition union (comp : list nat) (a b : nat) : list nat :=
  map (fun c => if (c =? b)%nat then a else c) comp.

Fixpoint kruskal (es : list edge) (comp : list nat) : list edge :=
  match es with
  | [] => []
  | e :: es' =>
      let a := find comp e.1.1 in
      let b := find comp e.1.2 in
      if (a =? b)%nat then kruskal es' comp
      else e :: kruskal es' (union comp a b)
  end.

Definition minimum_spanning_tree (m : matrix) : list edge :=
  kruskal (sort_edges (weighted_edges m)) (seq 0 (length m)).

(** The fitted parameter as the specification words it: the mean edge
    length along the minimum spanning tree. *)
Definition spec_distance_parameter (delaunay dist_mat : matrix)
  : result npfloat :=
  g ← multiply delaunay dist_mat;
  OK (np_mean (map weight (minimum_spanning_tree g))).

(** Every spanning tree of the graph, to compare the weights. *)
Fixpoint sublists {A} (l : list A) : list (list A) :=
  match l with
  | [] => [[]]
  | x :: l' => map (cons x) (sublists l') ++ sublists l'
  end.

Definition connects (n : nat) (es : list edge) : bool :=
  let comp :=
    foldl (fun comp (e : edge) =>
             union comp (find comp e.1.1) (find comp e.1.2))
          (seq 0 n) es in
  match comp with
  | [] => true
  | c :: cs => forallb (Nat.eqb c) cs
  end.

Definition spanning_trees (m : matrix) : list (list edge) :=
  filter (fun es =>
            (length es =? length m - 1)%nat && connects (length m) es = true)
         (sublists (weighted_edges m)).

Definition total_weight (es : list edge) : Q := Qsum (map weight es).

(** Three sites at the corners of a right triangle with legs 3 and 4. *)
Definition triangle : network :=
  {| locations := [(0, 0); (3, 0); (0, 4)]%Q;
     dist_mat := [[0; 3; 4]; [3; 0; 5]; [4; 5; 0]]%Q |}.

(** The Delaunay triangulation of three sites that are not on a line joins
    every pair of them. *)
Definition triangle_delaunay (locs : list (Q * Q)) : result matrix :=
  OK [[0; 1; 1]; [1; 0; 1]; [1; 1; 0]]%Q.

End GeoPrior.

(** ** The spatial network

    Coordinates and distances are real numbers here. *)

Module Network.

(** The dictionary [sites]: the keys the function reads. *)
Record sites_t : Type := {
  id : list Z;
  locations : list (R * R);
  names : option (list string)
}.

(** An [igraph.Graph]: its vertices and its weighted edges. *)
Record graph : Type := {
  g_vertices : list Z;
  g_edges : list (nat * nat * R)
}.

Definition add_vertices (g : graph) (vs : list Z) : graph :=
  {| g_vertices := g_vertices g ++ vs; g_edges := g_edges g |}.

Definition add_edge (g : graph) (a b : nat) (w : R) : graph :=
  {| g_vertices := g_vertices g; g_edges := g_edges g ++ [(a, b, w)] |}.

Record network : Type := {
  vertices : list Z;
  edges : list (nat * nat);
  net_locations : list (R * R);
  net_names : list string;
  adj_mat : list (list Z);
  n : nat;
  m : nat;
  net_graph : graph;
  dist_mat : list (list R)
}.

(** [a.toarray().nonzero()], stacked into rows [(v1, v2)]. *)
Definition nonzero (a : list (list Z)) : list (nat * nat) :=
  mjoin (imap (fun i row =>
    omap (fun x => x)
      (imap (fun j x => if decide (x ≠ 0%Z) then Some (i, j) else None)
            row)) a).

(** [np.linalg.norm] of a vector of the plane *)
Definition norm (v : R * R) : R := sqrt (v.1 * v.1 + v.2 * v.2).

(** [d[key]] for a key that may be absent *)
Definition getkey {A} (v : option A) : result A :=
  match v with
  | Some a => OK a
  | None => Raise KeyError
  end.

(** [edges[i]] *)
Definition edge_row (edges : list (nat * nat)) (i : nat)
  : result (nat * nat) :=
  match edges !! i with
  | Some e => OK e
  | None => Raise IndexError
  end.

Section compute.
(** [compute_delaunay] and [compute_distance] live in [src.util]; they are
    parameters here. *)
Variable compute_delaunay : list (R * R) -> result (list (list Z)).
Variable compute_distance : nat * nat -> nat * nat -> R.

Definition compute_network (sites : sites_t) : result network :=
  let vertices := id sites in
  delaunay ← compute_delaunay (locations sites);
  let edges := nonzero delaunay in
  let adj_mat := delaunay in
  let g := add_vertices {| g_vertices := []; g_edges := [] |} vertices in
  g ← for_in edges (fun e g =>
         a ← edge_row edges e.1;
         b ← edge_row edges e.2;
         let dist := compute_distance a b in
         OK (add_edge g e.1 e.2 dist)) g;
  let dist_mat :=
    map (fun a : R * R =>
           map (fun b : R * R => norm (a.1 - b.1, a.2 - b.2)%R)
               (locations sites))
        (locations sites) in
  names ← getkey (names sites);
  OK {| vertices := vertices;
        edges := edges;
        net_locations := locations sites;
        net_names := names;
        adj_mat := adj_mat;
        n := length vertices;
        m := length edges;
        net_graph := g;
        dist_mat := dist_mat |}.
End compute.

(** [a[i][j]] as a partial function *)
Definition cell {A} (a : list (list A)) (i j : nat) : option A :=
  row ← a !! i; row !! j.

(** Modelled from the spec: [compute_delaunay] of [src.util] is not among
    the sources.  The spec has it compute a planar Delaunay triangulation of
    the coordinates, whose adjacency relates two sites in both directions:
    the matrix it returns is symmetric. *)
Definition triangulation_adjacency
    (compute_delaunay : list (R * R) -> result (list (list Z))) : Prop :=
  forall locs a i j, compute_delaunay locs = OK a -> cell a i j = cell a j i.

(** Three sites at the corners of a right triangle, with their names. *)
Definition triangle_sites : sites_t :=
  {| id := [0; 1; 2]%Z;
     locations := [(0, 0); (3, 0); (0, 4)]%R;
     names := Some ["a"; "b"; "c"]%string |}.

Definition triangle_delaunay (locs : list (R * R)) : result (list (list Z)) :=
  OK [[0; 1; 1]; [1; 0; 1]; [1; 1; 0]]%Z.

Definition index_distance (a b : nat * nat) : R :=
  norm (INR a.1 - INR b.1, INR a.2 - INR b.2)%R.

End Network.

(** ** The simulation helpers *)

Module Simulation.

(** *** numpy's random generator

    The generator state is the tape of raw numbers still to be drawn (zeros
    once it is used up); every routine of [np.random] reads as many as it
    needs and maps them into its range. *)
Definition rng : Type := list N.

Definition draw (g : rng) : N * rng :=
  match g with
  | [] => (0%N, [])
  | r :: g' => (r, g')
  end.

(** [np.random.standard_gamma]: a number that is not negative.  It can be
    0: at small shapes numpy's draws underflow to 0.0 (at a shape like 1e-10
    nearly every draw does).  The tape decides which number is drawn, so
    that a draw of 0 is possible at every shape.  A [nan] shape gives a
    [nan] draw. *)
Definition standard_gamma (shape : npfloat) (g : rng) : npfloat * rng :=
  let '(a, g) := draw g in
  let '(b, g) := draw g in
  match shape with
  | nan => (nan, g)
  | num _ => (num (Qmake (Z.of_N a) (N.succ_pos b)), g)
  end.

(** [np.random.random()] : a number in [0, 1). *)
Definition random_sample (g : rng) : Q * rng :=
  let '(a, g) := draw g in
  let '(b, g) := draw g in
  (Qmake (Z.of_N a mod Z.succ (Z.of_N b)) (N.succ_pos b), g).

(** [n] draws in a row. *)
Fixpoint draws {A} (one : rng -> A * rng) (n : nat) (g : rng)
  : list A * rng :=
  match n with
  | O => ([], g)
  | S n' =>
      let '(x, g) := one g in
      let '(xs, g) := draws one n' g in
      (x :: xs, g)
  end.

(** [np.random.randint(low, high)]: an integer in [low, high). *)
Definition np_random_randint (low high : Z) (g : rng) : result (Z * rng) :=
  if (high <=? low)%Z then Raise ValueError
  else
    let '(a, g) := draw g in
    OK ((low + Z.of_N a mod (high - low))%Z, g).

(** [np.random.permutation(n)]: the numbers below [n] in a random order,
    each placed at a drawn position among the earlier ones. *)
Fixpoint np_random_permutation (n : nat) (g : rng) : list nat * rng :=
  match n with
  | O => ([], g)
  | S k =>
      let '(p, g) := np_random_permutation k g in
      let '(r, g) := draw g in
      let i := (N.to_nat r mod S k)%nat in
      (take i p ++ k :: drop i p, g)
  end.

(** [np.random.choice(a, size, replace=False)]: the entries of [a] at the
    first [size] positions of a random permutation. *)
Definition np_random_choice (a : list Z) (size : Z) (g : rng)
  : result (list Z * rng) :=
  if (size <? 0)%Z then Raise ValueError
  else if (Z.of_nat (length a) <? size)%Z then Raise ValueError
  else
    let '(p, g) := np_random_permutation (length a) g in
    OK (omap (fun i => a !! i) (take (Z.to_nat size) p), g).

(** [np.cumsum] along a row *)
Fixpoint cumsum_from (acc : Q) (row : list Q) : list Q :=
  match row with
  | [] => []
  | x :: row' => (acc + x)%Q :: cumsum_from (acc + x)%Q row'
  end.
Definition cumsum (row : list Q) : list Q := cumsum_from 0 row.

Definition Qlt_bool (x y : Q) : bool := negb (Qle_bool y x).

(** [np.argmax] of a row of booleans: the position of the first [True], 0
    when there is none; a [ValueError] on an empty row. *)
Fixpoint first_true (l : list bool) : option nat :=
  match l with
  | [] => None
  | b :: l' => if b then Some O else S <$> first_true l'
  end.

Definition argmax (l : list bool) : result Z :=
  match l with
  | [] => Raise ValueError
  | _ => OK (Z.of_nat (default O (first_true l)))
  end.

(** [cdf.searchsorted(u, side='right')]: how many entries are at most [u]. *)
Definition searchsorted_right (cdf : list Q) (u : Q) : nat :=
  length (filter (fun c => Qle_bool c u = true) cdf).

(** [np.random.choice(a, size, p=p)]: [size] entries of [a], each found by
    inverting the cumulative distribution at a uniform draw. *)
Definition np_random_choice_p (a : list Z) (size : Z) (p : list Q) (g : rng)
  : result (list Z * rng) :=
  if (size <? 0)%Z then Raise ValueError
  else if bool_decide (a = []) && negb (size =? 0)%Z then Raise ValueError
  else if negb (length a =? length p)%nat then Raise ValueError
  else if existsb (fun x => Qlt_bool x 0) p then Raise ValueError
  else if negb (Qeq_bool (Qsum p) 1) then Raise ValueError
  else
    let '(us, g) := draws random_sample (Z.to_nat size) g in
    OK (omap (fun u => a !! searchsorted_right (cumsum p) u) us, g).

(** One row of [np.random.dirichlet]: gamma draws divided by their sum. *)
Fixpoint gamma_draws (alpha : list npfloat) (g : rng)
  : list npfloat * rng :=
  match alpha with
  | [] => ([], g)
  | a :: alpha' =>
      let '(x, g) := standard_gamma a g in
      let '(xs, g) := gamma_draws alpha' g in
      (x :: xs, g)
  end.

(** The sum of floats: [nan] as soon as one of them is. *)
Definition fsum (xs : list npfloat) : npfloat :=
  foldr (fun x acc =>
           match x, acc with
           | num a, num b => num (a + b)
           | _, _ => nan
           end) (num 0) xs.

(** A draw [x] over the sum [acc] of the draws of its row.  When the sum is
    0 every draw of the row is 0, and 0/0 is [nan]. *)
Definition fdiv (x acc : npfloat) : npfloat :=
  match x, acc with
  | num a, num s => if Qeq_bool s 0 then nan else num (a / s)
  | _, _ => nan
  end.

Definition dirichlet_row (alpha : list npfloat) (g : rng)
  : list npfloat * rng :=
  let '(xs, g) := gamma_draws alpha g in
  let acc := fsum xs in
  (map (fun x => fdiv x acc) xs, g).

(** [np.random.dirichlet(alpha, size)]: [size] rows; a [ValueError] when
    some [alpha] is a number that is not positive ([nan] passes the
    test). *)
Definition np_random_dirichlet (alpha : list npfloat) (size : Z) (g : rng)
  : result (list (list npfloat) * rng) :=
  if existsb (fun a => match a with
                       | num q => Qle_bool q 0
                       | nan => false
                       end) alpha
  then Raise ValueError
  else if (size <? 0)%Z then Raise ValueError
  else OK (draws (dirichlet_row alpha) (Z.to_nat size) g).

(** A row that holds finite numbers only, not all of them 0, sums to 1.
    (Rows of another kind come from draws that all underflow to 0 and from
    [nan] concentrations: they are [nan] throughout.) *)
Definition normalised (row : list npfloat) : Prop :=
  forall qs, row = map num qs -> (exists q, q ∈ qs /\ ~ (q == 0)%Q) ->
             (Qsum qs == 1)%Q.


(** *** Arrays *)

(** A numpy array: its shape and its entries in row-major order. *)
Record ndarray (A : Type) : Type := { shape : list nat; data : list A }.
Arguments shape {A} _.
Arguments data {A} _.

Definition size_of (shape : list nat) : nat := foldr Nat.mul 1%nat shape.

Definition well_formed {A} (a : ndarray A) : Prop :=
  length (data a) = size_of (shape a).

(** The [n] rows of length [k] of a flat list. *)
Fixpoint chunks {A} (k n : nat) (l : list A) : list (list A) :=
  match n with
  | O => []
  | S n' => take k l :: chunks k n' (drop k l)
  end.

(** [*output_dims, n_categories = shape] *)
Definition split_last (shape : list nat) : result (list nat * nat) :=
  match reverse shape with
  | [] => Raise ValueError
  | n :: rev_dims => OK (reverse rev_dims, n)
  end.

(** [np.random.random(shape)] *)
Definition np_random_random (shape : list nat) (g : rng) : ndarray Q * rng :=
  let '(xs, g) := draws random_sample (size_of shape) g in
  ({| shape := shape; data := xs |}, g).

(** [np.argmax(b, axis=-1)] for the rows [b] of an array whose last axis has
    [n] entries. *)
Definition argmax_last_axis (n : nat) (b : list (list bool))
  : result (list Z) :=
  if (n =? 0)%nat then Raise ValueError else map_result argmax b.

Definition sample_categorical (p : ndarray Q) (g : rng)
  : result (ndarray Z * rng) :=
  '(output_dims, n_categories) ← split_last (shape p);
  let cdf := map cumsum (chunks n_categories (size_of output_dims) (data p)) in
  let '(z, g) := np_random_random output_dims g in
  let below := zip_with (fun z row => map (Qlt_bool z) row) (data z) cdf in
  r ← argmax_last_axis n_categories below;
  OK ({| shape := output_dims; data := r |}, g).

(** *** Weights *)

Definition simulate_weights (f_global f_contact f_inheritance : Q)
    (inheritance : bool) (n_features : Z) (g : rng)
  : result (list (list npfloat) * rng) :=
  let alpha_sim :=
    if inheritance then [num f_global; num f_contact; num f_inheritance]
    else [num f_global; num f_contact] in
  np_random_dirichlet alpha_sim n_features g.

(** *** Families *)

(** A position [i] of an axis of length [n], counted from the end when
    negative. *)
Definition index (n : nat) (i : Z) : result nat :=
  if decide (0 <= i < Z.of_nat n)%Z then OK (Z.to_nat i)
  else if decide (- Z.of_nat n <= i < 0)%Z then OK (Z.to_nat (i + Z.of_nat n))
  else Raise IndexError.

(** [np.zeros((rows, cols), bool)] *)
Definition np_zeros_bool (rows : Z) (cols : nat) : result (list (list bool)) :=
  if (rows <? 0)%Z then Raise ValueError
  else OK (replicate (Z.to_nat rows) (replicate cols false)).

(** [a[k, ids] = 1] *)
Definition set_true (a : list (list bool)) (k : nat) (ids : list Z)
  : result (list (list bool)) :=
  match a !! k with
  | None => Raise IndexError
  | Some row =>
      js ← map_result (index (length row)) ids;
      OK (<[k := foldr (fun j r => <[j := true]> r) row js]> a)
  end.

(** Of the dictionary [sites] the function reads [sites['id']] only. *)
Definition simulate_families (sites_id : list Z)
    (n_families max_family_size min_family_size : Z) (g : rng)
  : result (list (list bool) * rng) :=
  let sites := sites_id in
  let n_sites := length sites in
  '(sites, sites_in_family, g) ←
    for_in (range 0 n_families)
      (fun nf '(sites, sites_in_family, g) =>
         '(f_size, g) ← np_random_randint min_family_size max_family_size g;
         '(f, g) ← np_random_choice sites f_size g;
         let sites := filter (fun s => s ∉ f) sites in
         OK (sites, sites_in_family ++ [f], g))
      (sites, [], g);
  families ← np_zeros_bool n_families n_sites;
  families ←
    for_in (zip (seq 0 (length sites_in_family)) sites_in_family)
      (fun '(k, z_id) families => set_true families k z_id)
      families;
  OK (families, g).

(** *** Category probabilities *)

(** [max(l)] *)
Definition py_max (l : list Z) : result Z :=
  match l with
  | [] => Raise ValueError
  | x :: l' => OK (foldl Z.max x l')
  end.

(** [np.zeros((rows, cols))] and [np.zeros((units, rows, cols))] *)
Definition np_zeros2 (rows : nat) (cols : Z)
  : result (list (list npfloat)) :=
  if (cols <? 0)%Z then Raise ValueError
  else OK (replicate rows (replicate (Z.to_nat cols) (num 0))).

Definition np_zeros3 (units rows : nat) (cols : Z)
  : result (list (list (list npfloat))) :=
  if (cols <? 0)%Z then Raise ValueError
  else OK (replicate units
             (replicate rows (replicate (Z.to_nat cols) (num 0)))).

(** [row[range(k)] = d] for a sample [d] of shape (1, k) *)
Definition assign_prefix (row : list npfloat) (k : Z)
    (d : list (list npfloat)) : result (list npfloat) :=
  let k := Z.to_nat k in
  match d with
  | [vals] =>
      if (length row <? k)%nat then Raise IndexError
      else if negb (length vals =? k)%nat then Raise ValueError
      else OK (vals ++ drop k row)
  | _ => Raise ValueError
  end.

(** [a[f, range(k)] = d] *)
Definition assign2 (a : list (list npfloat)) (f : nat) (k : Z)
    (d : list (list npfloat)) : result (list (list npfloat)) :=
  match a !! f with
  | None => Raise IndexError
  | Some row => row' ← assign_prefix row k d; OK (<[f := row']> a)
  end.

(** [a[z, f, range(k)] = d] *)
Definition assign3 (a : list (list (list npfloat))) (z f : nat) (k : Z)
    (d : list (list npfloat)) : result (list (list (list npfloat))) :=
  match a !! z with
  | None => Raise IndexError
  | Some plane => plane' ← assign2 plane f k d; OK (<[z := plane']> a)
  end.

(** [[intensity] * cat_f]; the intensity may be [None]. *)
Definition repeat_intensity (intensity : option Q) (cat_f : Z)
  : list (option Q) :=
  replicate (Z.to_nat cat_f) intensity.

(** [np.random.dirichlet(alpha, size=1)] on a list that may hold [None]:
    numpy converts the list to an array of floats, in which [None] becomes
    [nan]. *)
Definition dirichlet1 (alpha : list (option Q)) (g : rng)
  : result (list (list npfloat) * rng) :=
  let alpha := map (fun a => match a with
                             | Some q => num q
                             | None => nan
                             end) alpha in
  np_random_dirichlet alpha 1 g.

(** The inner loop over the zones (or the families) of one feature. *)
Definition for_units (n_units : nat) (intensity : option Q) (f : nat)
    (cat_f : Z) : list (list (list npfloat)) * rng ->
                  result (list (list (list npfloat)) * rng) :=
  for_in (seq 0 n_units) (fun z '(p, g) =>
    '(d, g) ← dirichlet1 (repeat_intensity intensity cat_f) g;
    p ← assign3 p z f cat_f d;
    OK (p, g)).

(** [n_categories[f]] *)
Definition category_count (n_categories : list Z) (f : nat) : result Z :=
  match n_categories !! f with
  | Some k => OK k
  | None => Raise IndexError
  end.

(** [len(x)] of an argument that may be [None] *)
Definition len_opt {A} (x : option (list A)) : result nat :=
  match x with
  | Some l => OK (length l)
  | None => Raise TypeError
  end.

(** [p_number_categories] is given by its items, the keys converted by
    [int]. *)
Definition simulate_assignment_probabilities (n_features : Z)
    (p_number_categories : list (Z * Q)) (inheritance : bool)
    (zones : list (list bool)) (intensity_contact intensity_global : Q)
    (intensity_inheritance : option Q) (families : option (list (list bool)))
    (g : rng)
  : result (list (list npfloat) * list (list (list npfloat))
            * option (list (list (list npfloat))) * rng) :=
  let cat := map fst p_number_categories in
  let p_cat := map snd p_number_categories in
  '(n_categories, g) ← np_random_choice_p cat n_features p_cat g;
  let n_features := length n_categories in
  max_categories ← py_max n_categories;
  let n_zones := length zones in
  p_global ← np_zeros2 n_features max_categories;
  p_zones ← np_zeros3 n_zones n_features max_categories;
  '(p_global, p_zones, g) ←
    for_in (seq 0 n_features) (fun f '(p_global, p_zones, g) =>
      cat_f ← category_count n_categories f;
      '(d, g) ← dirichlet1 (repeat_intensity (Some intensity_global) cat_f) g;
      p_global ← assign2 p_global f cat_f d;
      '(p_zones, g) ←
        for_units n_zones (Some intensity_contact) f cat_f (p_zones, g);
      OK (p_global, p_zones, g))
    (p_global, p_zones, g);
  if negb inheritance then OK (p_global, p_zones, None, g)
  else
    n_families ← len_opt families;
    p_families ← np_zeros3 n_families n_features max_categories;
    '(p_families, g) ←
      for_in (seq 0 n_features) (fun f '(p_families, g) =>
        cat_f ← category_count n_categories f;
        for_units n_families intensity_inheritance f cat_f (p_families, g))
      (p_families, g);
    OK (p_global, p_zones, Some p_families, g).

(** [a[z][f]] as a partial function *)
Definition row_at {A} (a : list (list (list A))) (z f : nat)
  : option (list A) :=
  plane ← a !! z; plane !! f.

(** A row that is a distribution over its first [k] entries, when these are
    finite numbers and not all of them 0, and zero afterwards. *)
Definition distribution_row (k : nat) (row : list npfloat) : Prop :=
  normalised (take k row) /\
  forall j, (k <= j < length row)%nat -> row !! j = Some (num 0).

(** *** Invariants of the loops *)

(** The families drawn so far share no site with one another nor with the
    sites still available. *)
Definition drawn_apart (sites_id : list Z)
    (st : list Z * list (list Z) * rng) : Prop :=
  let '(sites, fams, _) := st in
  (forall x, x ∈ sites -> x ∈ sites_id) /\
  (forall f x, f ∈ fams -> x ∈ f -> x ∈ sites_id /\ x ∉ sites) /\
  (forall i j f1 f2 x,
     i ≠ j -> fams !! i = Some f1 -> fams !! j = Some f2 ->
     x ∈ f1 -> x ∈ f2 -> False).

(** Every mark of the matrix comes from a site of the family of its row. *)
Definition marks_from (n_sites : nat) (fams : list (list Z))
    (families : list (list bool)) : Prop :=
  Forall (fun row => length row = n_sites) families /\
  forall k j row,
    families !! k = Some row -> row !! j = Some true ->
    exists f id, fams !! k = Some f /\ id ∈ f /\ index n_sites id = OK j.

(** The rows a feature with [k] categories must end with. *)
Definition row_of (k : Z) (v : option (list npfloat)) : Prop :=
  exists row, v = Some row /\ distribution_row (Z.to_nat k) row.

(** A tape on which every draw is 0, as when every gamma draw underflows. *)
Definition zero_tape : rng := replicate 40 0%N.

(** A tape for the examples. *)
Definition tape0 : rng := map (fun i => N.of_nat (7 * i + 3)) (seq 0 60).

End Simulation.

(** ** The deprecated lookup table *)

Module LookupOld.
Import Lookup.

(** [lookup_dict[i_feat] = {}], [lookup_dict[i_feat][s] = {}] and
    [lookup_dict[i_feat][s][p_zone] = v] *)
Definition set_feature (i_feat : Z) (lookup_dict : cats_t) : result cats_t :=
  OK (<[i_feat := ∅]> lookup_dict).

Definition set_size (i_feat s : Z) (lookup_dict : cats_t) : result cats_t :=
  df ← getitem lookup_dict i_feat;
  OK (<[i_feat := <[s := ∅]> df]> lookup_dict).

Definition set_score (i_feat s p_zone : Z) (v : ereal) (lookup_dict : cats_t)
  : result cats_t :=
  df ← getitem lookup_dict i_feat;
  ds ← getitem df s;
  OK (<[i_feat := <[s := <[p_zone := v]> ds]> df]> lookup_dict).

(** [enumerate(l)] *)
Definition enumerate {A} (l : list A) : list (Z * A) :=
  imap (fun i x => (Z.of_nat i, x)) l.

(** [precompute_feature_likelihood_old]; its inner function [ll] has the
    body of [Lookup.ll], the count first and the size second. *)
Definition precompute_feature_likelihood_old (min_size max_size : Z)
    (feat_prob : list R) (log_surprise : bool) : result cats_t :=
  for_in (enumerate feat_prob) (fun '(i_feat, p_global) lookup_dict =>
    lookup_dict ← set_feature i_feat lookup_dict;
    for_in (range min_size (max_size + 1)) (fun s lookup_dict =>
      lookup_dict ← set_size i_feat s lookup_dict;
      for_in (range 0 (s + 1)) (fun p_zone lookup_dict =>
        v ← ll p_zone s p_global log_surprise;
        set_score i_feat s p_zone v lookup_dict) lookup_dict) lookup_dict) ∅.

(** [lookup_dict[i][s][p_zone]] as a partial function *)
Definition entry_old (t : cats_t) (i s p_zone : Z) : option ereal :=
  df ← t !! i; ds ← df !! s; ds !! p_zone.

(** A feature whose only category has global probability zero, and two
    features with the probabilities of scenario 2. *)
Definition zero_prob : gmap Z (gmap Z R) := {[ 0%Z := {[ 0%Z := 0%R ]} ]}.
Definition halves : list R := [half; half].

End LookupOld.

(** ** The deprecated covariance estimate *)

Module GeoPriorOld.
Import GeoPrior.

Section estimate.
Variable compute_delaunay : list (Q * Q) -> result matrix.

Definition estimate_random_walk_covariance (net : network)
  : result (list (list npfloat)) :=
  let dist_mat := dist_mat net in
  let locations := locations net in
  delaunay ← compute_delaunay locations;
  mst ← multiply delaunay dist_mat;
  let idx := nonzero mst in
  l1 ← map_result (location locations) (map fst idx);
  l2 ← map_result (location locations) (map snd idx);
  let diffs :=
    zip_with (fun a b : Q * Q => (a.1 - b.1, a.2 - b.2)%Q) l1 l2 in
  let n := inject_Z (Z.of_nat (length diffs)) in
  let mean := (Qsum (map fst diffs) / n, Qsum (map snd diffs) / n)%Q in
  let diffs :=
    map (fun d : Q * Q => (d.1 - mean.1, d.2 - mean.2)%Q) diffs in
  OK (np_cov diffs).
End estimate.

(** Two floats that are both [nan] or equal numbers. *)
Definition same_float (x y : npfloat) : Prop :=
  match x, y with
  | nan, nan => True
  | num p, num q => (p == q)%Q
  | _, _ => False
  end.

(** A float that is [nan] or at least 0. *)
Definition not_negative (x : npfloat) : Prop :=
  match x with
  | nan => True
  | num q => (0 <= q)%Q
  end.

(** Every entry of a matrix is at least 0. *)
Definition nonnegative (m : matrix) : Prop :=
  Forall (Forall (fun x => 0 <= x)%Q) m.

End GeoPriorOld.

(** ** Sites and zones *)

Module Sites.

(** The dictionary [sites] that [get_sites] returns: its three keys. *)
Record sites_t : Type := {
  locations : list (R * R);
  cz : list Z;
  id : list Z
}.

(** The same dictionary as [compute_network] reads it: it has no key
    'names'. *)
Definition as_network_sites (s : sites_t) : Network.sites_t :=
  {| Network.id := id s;
     Network.locations := locations s;
     Network.names := None |}.

(** [columns[i].append(value)] *)
Definition append_at (columns : list (list string)) (i : nat) (value : string)
  : result (list (list string)) :=
  match columns !! i with
  | Some c => OK (<[i := c ++ [value]]> columns)
  | None => Raise IndexError
  end.

(** A column with one more value. *)
Definition snoc {A} (c : list A) (v : A) : list A := c ++ [v].

(** Column [j] of the data rows, and the columns the reader builds from a
    header and data rows of its length. *)
Definition column (data : list (list string)) (j : nat) : list string :=
  map (fun row => default EmptyString (row !! j)) data.

Definition columns_of (header : list string) (data : list (list string))
  : list (list string) :=
  imap (fun j h => h :: column data j) header.

(** The loop over the rows of the csv reader. *)
Definition read_columns (rows : list (list string))
  : result (list (list string)) :=
  for_in rows (fun row columns =>
    if bool_decide (columns ≠ []) then
      for_in (imap (fun i value => (i, value)) row)
        (fun '(i, value) columns => append_at columns i value) columns
    else OK (map (fun value => [value]) row)) [].

(** [{c[0]: c[1:] for c in columns}] *)
Definition columns_dict (columns : list (list string))
  : result (gmap string (list string)) :=
  for_in columns (fun c d =>
    match c with
    | [] => Raise IndexError
    | key :: values => OK (<[key := values]> d)
    end) ∅.

(** [d.pop(key)] inside [try: ... except KeyError: raise KeyError(...)] *)
Definition pop (d : gmap string (list string)) (key : string)
  : result (list string * gmap string (list string)) :=
  match d !! key with
  | Some v => OK (v, delete key d)
  | None => Raise KeyError
  end.

(** [l[i]] *)
Definition item {A} (l : list A) (i : nat) : result A :=
  match l !! i with
  | Some a => OK a
  | None => Raise IndexError
  end.

Section get_sites.
(** The conversions [float] and [int] of a string, a [ValueError] when the
    string is no number, are parameters. *)
Variable py_float : string -> result R.
Variable py_int : string -> result Z.

(** [get_sites], on the rows the csv reader yields for the file. *)
Definition get_sites (rows : list (list string))
  : result (sites_t * list string) :=
  columns ← read_columns rows;
  csv_as_dict ← columns_dict columns;
  '(x, csv_as_dict) ← pop csv_as_dict "x";
  '(y, csv_as_dict) ← pop csv_as_dict "y";
  '(name, csv_as_dict) ← pop csv_as_dict "name";
  '(cz, csv_as_dict) ← pop csv_as_dict "cz";
  let locations := replicate (length name) (0, 0)%R in
  let seq_id := [] in
  '(locations, seq_id) ←
    for_in (seq 0 (length name)) (fun i '(locations, seq_id) =>
      xi ← item x i;
      xi ← py_float xi;
      yi ← item y i;
      yi ← py_float yi;
      OK (<[i := (xi, yi)]> locations, seq_id ++ [Z.of_nat i]))
    (locations, seq_id);
  cz ← map_result py_int cz;
  let sites := {| locations := locations; cz := cz; id := seq_id |} in
  let site_names := name in
  OK (sites, site_names).
End get_sites.

(** [int] and [float] on the strings of one decimal digit, for the
    examples. *)
Definition digit (s : string) : result Z :=
  match s with
  | String c EmptyString =>
      let n := Z.of_nat (Ascii.nat_of_ascii c) in
      if bool_decide (48 <= n <= 57)%Z then OK (n - 48)%Z
      else Raise ValueError
  | _ => Raise ValueError
  end.

Definition digit_float (s : string) : result R :=
  z ← digit s; OK (IZR z).

Definition two_sites_csv : list (list string) :=
  [["name"; "x"; "y"; "cz"];
   ["a"; "0"; "0"; "0"];
   ["b"; "3"; "4"; "1"]]%string.

(** A Python value passed as [zone_id]. *)
#[warnings="-register-all"]
Inductive pyobj : Type :=
  | PyInt (z : Z)
  | PyTuple (l : list pyobj)
  | PyOther.

(** [isinstance(x, int)] *)
Definition as_int (x : pyobj) : option Z :=
  match x with
  | PyInt z => Some z
  | _ => None
  end.

(** A dictionary that remembers the order of insertion: [d[k] = v] replaces
    the value of a key that is present and appends a new key. *)
Fixpoint dict_set {V} (d : list (Z * V)) (k : Z) (v : V) : list (Z * V) :=
  match d with
  | [] => [(k, v)]
  | (k', v') :: d' =>
      if decide (k = k') then (k, v) :: d' else (k', v') :: dict_set d' k v
  end.

(** [np.where(cz == z)[0].tolist()]: the positions that hold [z], in
    ascending order. *)
Definition where_eq (cz : list Z) (z : Z) : list Z :=
  omap (fun x => x)
    (imap (fun i c => if decide (c = z) then Some (Z.of_nat i) else None) cz).

(** [get_contact_zones]; of [sites] it reads the key 'cz' only. *)
Definition get_contact_zones (zone_id : pyobj) (cz : list Z)
  : result (list (Z * list Z)) :=
  let contact_zones := [] in
  match zone_id with
  | PyInt z => OK (dict_set contact_zones z (where_eq cz z))
  | PyTuple l =>
      match mapM as_int l with
      | Some zs =>
          OK (foldl (fun contact_zones z =>
                       dict_set contact_zones z (where_eq cz z))
                    contact_zones zs)
      | None => Raise ValueError
      end
  | PyOther => Raise ValueError
  end.

(** The row of a zone: [false] everywhere but at the positions [z_id]. *)
Definition zone_row (n_sites : nat) (z_id : list Z) : list bool :=
  foldr (fun j r => <[j := true]> r) (replicate n_sites false)
        (map Z.to_nat z_id).

(** [simulate_zones]; of [sites_sim] it reads the keys 'cz' and 'id'. *)
Definition simulate_zones (zone_id : pyobj) (sites_sim : sites_t)
  : result (list (list bool)) :=
  sites_in_zone ← get_contact_zones zone_id (cz sites_sim);
  let n_zones := length sites_in_zone in
  let n_sites := length (id sites_sim) in
  zones ← Simulation.np_zeros_bool (Z.of_nat n_zones) n_sites;
  for_in (zip (seq 0 (length sites_in_zone)) (map snd sites_in_zone))
    (fun '(k, z_id) zones => Simulation.set_true zones k z_id)
    zones.

(** Five sites, two of them in zone 3 and one in zone 7. *)
Definition five_sites : sites_t :=
  {| locations := [(0, 0); (1, 0); (2, 0); (3, 0); (4, 0)]%R;
     cz := [0; 3; 7; 3; 0]%Z;
     id := [0; 1; 2; 3; 4]%Z |}.

End Sites.

(** ** More of the simulation *)

Module SimulationExtra.
Import Simulation.

(** The families drawn so far have no repeated site, hold sites of
    [sites_id] only, and have a size from [lo] up to, not including, [hi]. *)
Definition sized lo hi (sites_id : list Z)
    (st : list Z * list (list Z) * rng) : Prop :=
  let '(sites, fams, _) := st in
  NoDup sites /\ (forall x, x ∈ sites -> x ∈ sites_id) /\
  forall f, f ∈ fams ->
    NoDup f /\ (forall x, x ∈ f -> x ∈ sites_id) /\
    (lo <= Z.of_nat (length f) < hi)%Z.

(** An array of [rows] rows of [cols] cells, and one of [units] such
    arrays. *)
Definition shape2 {A} (rows cols : nat) (a : list (list A)) : Prop :=
  length a = rows /\ Forall (fun r => length r = cols) a.

Definition shape3 {A} (units rows cols : nat) (a : list (list (list A)))
  : Prop :=
  length a = units /\ Forall (shape2 rows cols) a.

(** *** Missing values *)

(** [np.random.choice(a=a, size=1)] for an integer [a]: one of the numbers
    below [a]; a [ValueError] when there is none. *)
Definition np_random_choice_int (a : nat) (g : rng) : result (nat * rng) :=
  if (a =? 0)%nat then Raise ValueError
  else let '(r, g) := draw g in OK ((N.to_nat r mod a)%nat, g).

(** [features.shape[1]] of an array given by its sites. *)
Definition shape1 {A} (features : list (list A)) : nat :=
  match features with
  | [] => 0%nat
  | site :: _ => length site
  end.

(** [features[s, f, :] = 0] *)
Definition zero_row (features : list (list (list Q))) (s f : nat)
  : result (list (list (list Q))) :=
  match features !! s with
  | None => Raise IndexError
  | Some site =>
      match site !! f with
      | None => Raise IndexError
      | Some row =>
          OK (<[s := <[f := replicate (length row) 0%Q]> site]> features)
      end
  end.

(** [assign_na]; the conversion to floats changes no value. *)
Definition assign_na (features : list (list (list Q))) (n_na : Z) (g : rng)
  : result (list (list (list Q)) * rng) :=
  for_in (range 0 n_na) (fun _ '(features, g) =>
      '(na_site, g) ← np_random_choice_int (length features) g;
      '(na_feature, g) ← np_random_choice_int (shape1 features) g;
      features ← zero_row features na_site na_feature;
      OK (features, g))
    (features, g).

(** A row of the result of [assign_na] beside the row of the input: the
    same, or zero in every cell. *)
Definition kept_or_zeroed (old new : option (list Q)) : Prop :=
  match old with
  | None => new = None
  | Some row => new = Some row \/ new = Some (replicate (length row) 0%Q)
  end.

(** Two sites with two features of two categories. *)
Definition two_by_two : list (list (list Q)) :=
  [[[1; 0]; [0; 1]]; [[0; 1]; [1; 0]]]%Q.

(** *** Global frequencies *)

(** An array of shape (n_sites, n_features, n_categories), given by its
    sites; an array without sites has its two other lengths all the same. *)
Record feature_array : Type := {
  n_features : nat;
  n_categories : nat;
  sites : list (list (list Q))
}.

Definition well_shaped (feat : feature_array) : Prop :=
  shape3 (length (sites feat)) (n_features feat) (n_categories feat)
         (sites feat).

(** [np.sum(rows, axis=0)] for rows of [c] cells *)
Definition sum_axis0 (c : nat) (rows : list (list Q)) : list Q :=
  foldl (zip_with Qplus) (replicate c 0%Q) rows.

(** [counts / n_sites]: without sites the counts are zero, and 0/0 is
    [nan]. *)
Definition true_divide (c : Q) (n_sites : nat) : npfloat :=
  if (n_sites =? 0)%nat then nan
  else num (c / inject_Z (Z.of_nat n_sites)).

Definition compute_global_freq_from_data (feat : feature_array)
  : result (list (list npfloat)) :=
  let n_sites := length (sites feat) in
  let p := replicate (n_features feat)
                     (replicate (n_categories feat) (num 0)) in
  for_in (seq 0 (n_features feat)) (fun f p =>
      rows ← map_result (fun site => Sites.item site f) (sites feat);
      let counts := sum_axis0 (n_categories feat) rows in
      OK (<[f := map (fun c => true_divide c n_sites) counts]> p))
    p.

(** [np.finfo(float).eps] *)
Definition EPS : Q := 1 # 4503599627370496.

(** [np.nansum] of a row: the sum of its numbers. *)
Definition nansum (row : list npfloat) : Q :=
  Qsum (omap (fun x => match x with num q => Some q | nan => None end) row).

(** [np.allclose(a=a, b=1., rtol=EPS)], with the default absolute
    tolerance 1e-8 *)
Definition allclose1 (a : list Q) : bool :=
  forallb (fun x => Qle_bool (Qabs (x - 1)) ((1 # 100000000) + EPS * Qabs 1))
          a.

(** The dictionary [mode]: its two keys. *)
Record mode_t : Type := {
  estimate_from_data : bool;
  file : string
}.

Section global_frequencies.
(** [read_feature_occurrence_from_csv] lives in [src.util]; it is a
    parameter here, giving the array of the file, one row for each feature.
    The division of the array by its row sums is a parameter as well. *)
Variable read_feature_occurrence_from_csv :
  string -> result (list (list npfloat)).
Variable divide_by_row_sums : list (list npfloat) -> list (list npfloat).

(** Iterating over an array yields its rows, and a row is no [int]:
    [isinstance(x, int)] is [False] for each. *)
Definition get_global_frequencies (mode : mode_t)
    (features : option feature_array) : result (list (list npfloat)) :=
  if estimate_from_data mode then
    match features with
    | None => Raise ValueError
    | Some features => compute_global_freq_from_data features
    end
  else
    global_freq ← read_feature_occurrence_from_csv (file mode);
    if allclose1 (map nansum global_freq) then OK global_freq
    else
      if forallb (fun x : list npfloat => false) global_freq
      then OK (divide_by_row_sums global_freq)
      else Raise ValueError.
End global_frequencies.

(** Two sites with two features of two categories, as a feature array. *)
Definition two_by_two_features : feature_array :=
  {| n_features := 2; n_categories := 2; sites := two_by_two |}.

End SimulationExtra.

(** * Properties *)

(** ** Loops *)

Lemma bind_OK {A B} (c : result A) (k : A -> result B) (b : B) :
  (c ≫= k) = OK b <-> exists a, c = OK a /\ k a = OK b.
Proof.
  destruct c as [a|e]; simpl; split.
  - intros H. exists a. auto.
  - intros (a' & Ha & Hk). congruence.
  - discriminate.
  - intros (a' & Ha & _). discriminate.
Qed.

Lemma for_in_app {A S} (xs ys : list A) (body : A -> S -> result S) st :
  for_in (xs ++ ys) body st = (st' ← for_in xs body st; for_in ys body st').
Proof.
  revert st. induction xs as [|x xs IH]; intros st; simpl; [done|].
  destruct (body x st) as [st1|e]; simpl; auto.
Qed.

Lemma for_in_ext {A S} (xs : list A) (f g : A -> S -> result S) st :
  (forall x s, x ∈ xs -> f x s = g x s) -> for_in xs f st = for_in xs g st.
Proof.
  revert st. induction xs as [|x xs IH]; intros st Hfg; simpl; [done|].
  rewrite Hfg by constructor.
  destruct (g x st) as [st1|e]; simpl; [|done].
  apply IH. intros y s Hy. apply Hfg. by constructor.
Qed.

Section insert_loop.
Context {A V : Type} (key : A -> Z) (g : A -> result V).

Lemma store_loop_total xs m :
  (forall x, x ∈ xs -> exists v, g x = OK v) ->
  exists m', for_in xs (store_step key g) m = OK m'.
Proof.
  revert m. induction xs as [|x xs IH]; intros m Hg; simpl; [eauto|].
  destruct (Hg x) as [v Hv]; [constructor|].
  assert (store_step key g x m = OK (<[key x := v]> m)) as ->.
  { unfold store_step. by rewrite Hv. }
  simpl. apply IH. intros y Hy. apply Hg. by constructor.
Qed.

Lemma store_loop_ok xs m m' :
  for_in xs (store_step key g) m = OK m' ->
  forall x, x ∈ xs -> exists v, g x = OK v.
Proof.
  revert m. induction xs as [|x xs IH]; intros m Hrun y Hy.
  - inversion Hy.
  - simpl in Hrun. apply bind_OK in Hrun as (m1 & Hstep & Hrest).
    apply bind_OK in Hstep as (v & Hv & _).
    inversion Hy; subst; eauto.
Qed.

Lemma store_loop_old xs m m' k :
  for_in xs (store_step key g) m = OK m' ->
  k ∉ key <$> xs -> m' !! k = m !! k.
Proof.
  revert m. induction xs as [|x xs IH]; intros m Hrun Hk; simpl in *.
  - congruence.
  - apply bind_OK in Hrun as (m1 & Hstep & Hrest).
    apply bind_OK in Hstep as (v & Hv & Hm1). inversion Hm1; subst m1.
    rewrite (IH _ Hrest).
    + apply lookup_insert_ne. intros <-. apply Hk. constructor.
    + intros Hin. apply Hk. by constructor.
Qed.

Lemma store_loop_new xs m m' k w :
  (forall x y, x ∈ xs -> y ∈ xs -> key x = key y -> g x = g y) ->
  for_in xs (store_step key g) m = OK m' ->
  k ∈ key <$> xs ->
  m' !! k = Some w <-> exists x, x ∈ xs /\ key x = k /\ g x = OK w.
Proof.
  revert m. induction xs as [|x xs IH]; intros m Hfun Hrun Hk; simpl in *.
  - inversion Hk.
  - apply bind_OK in Hrun as (m1 & Hstep & Hrest).
    apply bind_OK in Hstep as (v & Hv & Hm1). inversion Hm1; subst m1.
    destruct (decide (k ∈ key <$> xs)) as [Hin|Hout].
    + rewrite (IH _ (fun a b Ha Hb => Hfun a b (list_elem_of_further _ _ _ Ha)
                                         (list_elem_of_further _ _ _ Hb))
                 Hrest Hin).
      split; intros (y & Hy & Hky & Hgy).
      * exists y. split; [by constructor|done].
      * apply list_elem_of_fmap in Hin as (z & Hkz & Hz).
        exists z. split; [done|]. split; [done|].
        rewrite <- Hgy. apply Hfun; [by constructor|done|congruence].
    + rewrite (store_loop_old _ _ _ _ Hrest Hout).
      assert (k = key x) as ->.
      { inversion Hk; subst; [done|contradiction]. }
      rewrite lookup_insert_eq. split.
      * intros [= <-]. exists x. split; [constructor|done].
      * intros (y & Hy & Hky & Hgy).
        rewrite (Hfun x y) in Hv; [congruence|constructor|done|done].
Qed.
End insert_loop.

Lemma store_loop_lookup {A V} (key : A -> Z) (g : A -> result V) xs m' k w :
  (forall x y, x ∈ xs -> y ∈ xs -> key x = key y -> g x = g y) ->
  for_in xs (store_step key g) ∅ = OK m' ->
  m' !! k = Some w <-> exists x, x ∈ xs /\ key x = k /\ g x = OK w.
Proof.
  intros Hfun Hrun.
  destruct (decide (k ∈ key <$> xs)) as [Hin|Hout].
  - by apply (store_loop_new key g xs ∅).
  - rewrite (store_loop_old key g _ _ _ _ Hrun Hout), lookup_empty.
    split; [discriminate|].
    intros (x & Hx & Hk & _). destruct Hout.
    apply list_elem_of_fmap. eauto.
Qed.

Lemma for_in_filter {A S} (P : A -> Prop) `{forall x, Decision (P x)}
    (body : A -> S -> result S) xs st :
  for_in xs (fun x st => if decide (P x) then body x st else OK st) st
  = for_in (filter P xs) body st.
Proof.
  revert st. induction xs as [|x xs IH]; intros st; simpl; [done|].
  rewrite filter_cons. destruct (decide (P x)); simpl.
  - destruct (body x st); simpl; auto.
  - apply IH.
Qed.

Lemma for_in_invariant {A S} (Inv : S -> Prop) (body : A -> S -> result S)
    xs st st' :
  (forall x st st', x ∈ xs -> Inv st -> body x st = OK st' -> Inv st') ->
  Inv st -> for_in xs body st = OK st' -> Inv st'.
Proof.
  revert st. induction xs as [|x xs IH]; intros st Hstep Hinv Hrun; simpl in *.
  - congruence.
  - apply bind_OK in Hrun as (st1 & Hx & Hrest).
    apply (IH st1); [|by apply (Hstep x st); [constructor|..]|done].
    intros y s1 s2 Hy. apply Hstep. by constructor.
Qed.

(** A loop whose step [x] writes only the cells it owns: the cells of every
    step end up as the step leaves them, the others stay as they were. *)
Section frame.
Context {X S K V : Type} (get : S -> K -> V) (touches : X -> K -> Prop).
Context (Pre Post : K -> V -> Prop) (body : X -> S -> result S).

Lemma for_in_frame xs st st' :
  NoDup xs ->
  (forall x y k, x ∈ xs -> y ∈ xs -> touches x k -> touches y k -> x = y) ->
  (forall x st st', x ∈ xs -> body x st = OK st' ->
     (forall k, ~ touches x k -> get st' k = get st k) /\
     ((forall k, touches x k -> Pre k (get st k)) ->
      forall k, touches x k -> Post k (get st' k))) ->
  for_in xs body st = OK st' ->
  (forall k, (forall x, x ∈ xs -> ~ touches x k) -> get st' k = get st k) /\
  ((forall x k, x ∈ xs -> touches x k -> Pre k (get st k)) ->
   forall x k, x ∈ xs -> touches x k -> Post k (get st' k)).
Proof.
  revert st. induction xs as [|x xs IH]; intros st Hnd Hown Hbody Hrun.
  - simpl in Hrun. injection Hrun as <-. split; [done|].
    intros _ x k Hx. inversion Hx.
  - simpl in Hrun. apply bind_OK in Hrun as (st1 & Hx & Hrest).
    apply NoDup_cons in Hnd as [Hnotin Hnd].
    destruct (Hbody x st st1 ltac:(constructor) Hx) as [Hkeep Hpost].
    destruct (IH st1 Hnd) as [IHkeep IHpost]; [| |exact Hrest|].
    + intros a b k Ha Hb. apply Hown; by constructor.
    + intros a s1 s2 Ha. apply Hbody. by constructor.
    + assert (forall a k, a ∈ xs -> touches a k -> ~ touches x k) as Hother.
      { intros a k Ha Hk Hxk. assert (x = a) as -> by
          (apply (Hown x a k); [constructor|by constructor|done|done]).
        done. }
      split.
      * intros k Hk. rewrite IHkeep.
        -- apply Hkeep. apply Hk. constructor.
        -- intros a Ha. apply Hk. by constructor.
      * intros Hpre a k Ha Hk. apply elem_of_cons in Ha as [->|Ha].
        -- rewrite IHkeep.
           ++ apply Hpost; [|done]. intros k' Hk'.
              apply (Hpre x); [constructor|done].
           ++ intros b Hb Hbk. by apply (Hother b k).
        -- apply (IHpost) with (x := a); [|done|done].
           intros b k' Hb Hk'. rewrite Hkeep by (by apply (Hother b)).
           apply (Hpre b); [by constructor|done].
Qed.
End frame.

Lemma map_result_OK {A B} (f : A -> result B) xs ys :
  map_result f xs = OK ys -> Forall2 (fun x y => f x = OK y) xs ys.
Proof.
  revert ys. induction xs as [|x xs IH]; intros ys; simpl.
  - intros [= <-]. constructor.
  - intros H. apply bind_OK in H as (y & Hy & H).
    apply bind_OK in H as (ys' & Hys & H). injection H as <-.
    constructor; auto.
Qed.

Lemma map_result_total {A B} (f : A -> result B) (P : B -> Prop) xs :
  Forall (fun x => exists y, f x = OK y /\ P y) xs ->
  exists ys, map_result f xs = OK ys /\ Forall P ys /\ length ys = length xs.
Proof.
  induction 1 as [|x xs (y & Hy & Py) _ (ys & Hys & Pys & Hlen)]; simpl.
  - exists []. repeat split; constructor.
  - exists (y :: ys). rewrite Hy, Hys. simpl.
    repeat split; [by constructor|lia].
Qed.

(** ** The lookup table: the loops of the code and the bottom-up form *)

Module LookupFacts.
Import Lookup.

Section bottom_up.
Variables (min_size max_size : Z) (log_surprise : bool).

Lemma for_s_zone_bottom_up f c p n ss (d : table) df dc dn :
  d !! f = Some df -> df !! c = Some dc -> dc !! n = Some dn ->
  for_in ss (fun s_zone lookup_dict =>
      v ← ll s_zone n p log_surprise;
      set_score f c n s_zone v lookup_dict) d
  = (dn' ← counts_of log_surprise p n ss dn;
     OK (<[f := <[c := <[n := dn']> dc]> df]> d)).
Proof.
  unfold counts_of. revert d df dc dn.
  induction ss as [|s ss IH]; intros d df dc dn Hf Hc Hn; simpl.
  - f_equal. rewrite (insert_id dc n dn Hn), (insert_id df c dc Hc).
    by rewrite insert_id.
  - destruct (ll s n p log_surprise) as [v|e]; simpl; [|done].
    unfold set_score, getitem. rewrite Hf. simpl. rewrite Hc. simpl.
    rewrite Hn. simpl.
    rewrite (IH _ (<[c := <[n := <[s := v]> dn]> dc]> df)
               (<[n := <[s := v]> dn]> dc) (<[s := v]> dn))
      by apply lookup_insert_eq.
    destruct (for_in ss _ (<[s := v]> dn)) as [dn'|e]; simpl; [|done].
    by rewrite !insert_insert_eq.
Qed.

Lemma for_n_zone_bottom_up f c p ns (d : table) df dc :
  d !! f = Some df -> df !! c = Some dc ->
  for_in ns (fun n_zone lookup_dict =>
      lookup_dict ← set_size f c n_zone lookup_dict;
      for_s_zone log_surprise f c p n_zone lookup_dict) d
  = (dc' ← sizes_of log_surprise p ns dc; OK (<[f := <[c := dc']> df]> d)).
Proof.
  unfold sizes_of. revert d df dc.
  induction ns as [|n ns IH]; intros d df dc Hf Hc; simpl.
  - f_equal. rewrite (insert_id df c dc Hc). by rewrite insert_id.
  - unfold set_size, getitem. rewrite Hf. simpl. rewrite Hc. simpl.
    unfold for_s_zone.
    rewrite (for_s_zone_bottom_up f c p n _ _
               (<[c := <[n := ∅]> dc]> df) (<[n := ∅]> dc) ∅)
      by apply lookup_insert_eq.
    destruct (counts_of log_surprise p n _ ∅) as [dn|e]; simpl; [|done].
    rewrite !insert_insert_eq.
    rewrite (IH _ (<[c := <[n := dn]> dc]> df) (<[n := dn]> dc))
      by apply lookup_insert_eq.
    destruct (for_in ns _ (<[n := dn]> dc)) as [dc'|e]; simpl; [|done].
    by rewrite !insert_insert_eq.
Qed.

Lemma for_cat_bottom_up f cs (d : table) df :
  d !! f = Some df ->
  for_in cs (fun '(cat, p_global) lookup_dict =>
      if decide (cat ≠ (-1)%Z) then
        lookup_dict ← set_cat f cat lookup_dict;
        for_n_zone min_size max_size log_surprise f cat p_global lookup_dict
      else OK lookup_dict) d
  = (df' ← cats_of min_size max_size log_surprise cs df; OK (<[f := df']> d)).
Proof.
  unfold cats_of. revert d df.
  induction cs as [|[c p] cs IH]; intros d df Hf; simpl.
  - f_equal. by rewrite insert_id.
  - destruct (decide (c ≠ (-1)%Z)) as [Hc|Hc]; simpl; [|by apply IH].
    unfold set_cat, getitem. rewrite Hf. simpl. unfold for_n_zone.
    rewrite (for_n_zone_bottom_up f c p _ _ (<[c := ∅]> df) ∅)
      by apply lookup_insert_eq.
    destruct (sizes_of log_surprise p _ ∅) as [dc|e]; simpl; [|done].
    rewrite !insert_insert_eq.
    rewrite (IH _ (<[c := dc]> df)) by apply lookup_insert_eq.
    destruct (for_in cs _ (<[c := dc]> df)) as [df'|e]; simpl; [|done].
    by rewrite !insert_insert_eq.
Qed.

(** The loops of [precompute_feature_likelihood], which fill the
    dictionaries after storing them, build the table of the bottom-up form. *)
Lemma precompute_bottom_up feat_prob :
  precompute_feature_likelihood min_size max_size feat_prob log_surprise
  = table_of min_size max_size log_surprise (map_to_list feat_prob) ∅.
Proof.
  unfold precompute_feature_likelihood, table_of.
  apply for_in_ext. intros [f cats] d _. unfold set_feature. simpl.
  unfold for_cat.
  rewrite (for_cat_bottom_up f _ _ ∅) by apply lookup_insert_eq.
  destruct (cats_of _ _ _ _ ∅) as [df|e]; simpl; [|done].
  by rewrite insert_insert_eq.
Qed.

End bottom_up.

Section entries.
Variables (min_size max_size : Z) (log_surprise : bool).

Lemma counts_of_lookup p n dn s v :
  counts_of log_surprise p n (range 0 (n + 1)) ∅ = OK dn ->
  dn !! s = Some v <-> (0 <= s <= n)%Z /\ ll s n p log_surprise = OK v.
Proof.
  intros Hrun.
  pose proof (store_loop_lookup (fun z : Z => z) (fun s => ll s n p log_surprise)
                _ dn s v (fun x y _ _ (E : x = y) =>
                            f_equal (fun s => ll s n p log_surprise) E)
                Hrun) as ->.
  unfold range. split.
  - intros (x & Hx & <- & Hl). apply elem_of_seqZ in Hx. split; [simpl; lia|done].
  - intros [Hs Hl]. exists s. split; [apply elem_of_seqZ; lia|done].
Qed.

Lemma sizes_of_lookup p dc n dn :
  sizes_of log_surprise p (range min_size (max_size + 1)) ∅ = OK dc ->
  dc !! n = Some dn <->
  (min_size <= n <= max_size)%Z /\
  counts_of log_surprise p n (range 0 (n + 1)) ∅ = OK dn.
Proof.
  intros Hrun.
  pose proof (store_loop_lookup (fun z : Z => z)
                (fun n => counts_of log_surprise p n (range 0 (n + 1)) ∅)
                _ dc n dn
                (fun x y _ _ (E : x = y) =>
                   f_equal (fun n => counts_of log_surprise p n
                                       (range 0 (n + 1)) ∅) E)
                Hrun) as ->.
  unfold range. split.
  - intros (x & Hx & <- & Hl). apply elem_of_seqZ in Hx. split; [simpl; lia|done].
  - intros [Hs Hl]. exists n. split; [apply elem_of_seqZ; lia|done].
Qed.

Lemma cats_of_filter cs df :
  cats_of min_size max_size log_surprise cs df
  = for_in (filter present cs)
      (store_step fst (fun x =>
         sizes_of log_surprise x.2 (range min_size (max_size + 1)) ∅)) df.
Proof.
  rewrite <- for_in_filter. unfold cats_of.
  apply for_in_ext. intros [c p] d _. unfold present. simpl.
  destruct (decide (c ≠ (-1)%Z)); done.
Qed.

Lemma cats_of_lookup (cats : gmap Z R) df c dc :
  cats_of min_size max_size log_surprise (map_to_list cats) ∅ = OK df ->
  df !! c = Some dc <->
  exists p, cats !! c = Some p /\ c ≠ (-1)%Z /\
    sizes_of log_surprise p (range min_size (max_size + 1)) ∅ = OK dc.
Proof.
  rewrite cats_of_filter. intros Hrun.
  eapply store_loop_lookup with (k := c) (w := dc) in Hrun as ->.
  - split.
    + intros ([c' p] & Hx & <- & Hg). apply list_elem_of_filter in Hx as [Hp Hx].
      apply elem_of_map_to_list in Hx. exists p. by repeat split.
    + intros (p & Hc & Hne & Hg). exists (c, p). repeat split; [|done].
      apply list_elem_of_filter. split; [done|]. by apply elem_of_map_to_list.
  - intros [c1 p1] [c2 p2] H1 H2 E. simpl in E. subst c2.
    apply list_elem_of_filter in H1 as [_ H1]. apply list_elem_of_filter in H2 as [_ H2].
    by rewrite (map_to_list_unique _ _ _ _ H1 H2).
Qed.

Lemma table_of_lookup (feat_prob : gmap Z (gmap Z R)) (t : table) f df :
  table_of min_size max_size log_surprise (map_to_list feat_prob) ∅ = OK t ->
  t !! f = Some df <->
  exists cats, feat_prob !! f = Some cats /\
    cats_of min_size max_size log_surprise (map_to_list cats) ∅ = OK df.
Proof.
  intros Hrun. unfold table_of in Hrun.
  assert (for_in (map_to_list feat_prob)
            (store_step fst (fun x : Z * gmap Z R =>
               cats_of min_size max_size log_surprise (map_to_list x.2) ∅)) ∅
          = OK t) as Hrun'.
  { rewrite <- Hrun. apply for_in_ext. by intros [f' cats] d _. }
  eapply store_loop_lookup with (k := f) (w := df) in Hrun' as ->.
  - split.
    + intros ([f' cats] & Hx & <- & Hg). apply elem_of_map_to_list in Hx. eauto.
    + intros (cats & Hf & Hg). exists (f, cats). repeat split; [|done].
      by apply elem_of_map_to_list.
  - intros [f1 c1] [f2 c2] H1 H2 E. simpl in E. subst f2.
    by rewrite (map_to_list_unique _ _ _ _ H1 H2).
Qed.

Lemma sizes_of_ok p dc n :
  sizes_of log_surprise p (range min_size (max_size + 1)) ∅ = OK dc ->
  (min_size <= n <= max_size)%Z ->
  exists dn, counts_of log_surprise p n (range 0 (n + 1)) ∅ = OK dn.
Proof.
  intros Hrun Hn.
  apply (store_loop_ok (fun z : Z => z)
           (fun n => counts_of log_surprise p n (range 0 (n + 1)) ∅)
           _ _ _ Hrun n).
  unfold range. apply elem_of_seqZ. lia.
Qed.

Lemma cats_of_ok (cats : gmap Z R) df c p :
  cats_of min_size max_size log_surprise (map_to_list cats) ∅ = OK df ->
  cats !! c = Some p -> c ≠ (-1)%Z ->
  exists dc, sizes_of log_surprise p (range min_size (max_size + 1)) ∅ = OK dc.
Proof.
  rewrite cats_of_filter. intros Hrun Hc Hne.
  apply (store_loop_ok _ _ _ _ _ Hrun (c, p)).
  apply list_elem_of_filter. split; [done|]. by apply elem_of_map_to_list.
Qed.

Lemma table_of_ok (feat_prob : gmap Z (gmap Z R)) (t : table) f cats :
  table_of min_size max_size log_surprise (map_to_list feat_prob) ∅ = OK t ->
  feat_prob !! f = Some cats ->
  exists df, cats_of min_size max_size log_surprise (map_to_list cats) ∅ = OK df.
Proof.
  intros Hrun Hf. unfold table_of in Hrun.
  assert (for_in (map_to_list feat_prob)
            (store_step fst (fun x : Z * gmap Z R =>
               cats_of min_size max_size log_surprise (map_to_list x.2) ∅)) ∅
          = OK t) as Hrun'.
  { rewrite <- Hrun. apply for_in_ext. by intros [f' cats'] d _. }
  apply (store_loop_ok _ _ _ _ _ Hrun' (f, cats)).
  by apply elem_of_map_to_list.
Qed.

(** What the returned table holds: exactly the scores [ll] gives for the
    non-missing categories of the input and the counts within the size
    bounds. *)
Lemma entry_spec feat_prob t f c n s v :
  precompute_feature_likelihood min_size max_size feat_prob log_surprise = OK t ->
  entry t f c n s = Some v <->
  exists cats p,
    feat_prob !! f = Some cats /\ cats !! c = Some p /\ c ≠ (-1)%Z /\
    (min_size <= n <= max_size)%Z /\ (0 <= s <= n)%Z /\
    ll s n p log_surprise = OK v.
Proof.
  rewrite precompute_bottom_up. intros Hrun. unfold entry. split.
  - intros H.
    destruct (t !! f) as [df|] eqn:Hf; [|done]. simpl in H.
    destruct (df !! c) as [dc|] eqn:Hc; [|done]. simpl in H.
    destruct (dc !! n) as [dn|] eqn:Hn; [|done]. simpl in H.
    apply (table_of_lookup _ _ _ _ Hrun) in Hf as (cats & Hcats & Hdf).
    apply (cats_of_lookup _ _ _ _ Hdf) in Hc as (p & Hp & Hne & Hdc).
    apply (sizes_of_lookup _ _ _ _ Hdc) in Hn as (Hnr & Hdn).
    apply (counts_of_lookup _ _ _ _ _ Hdn) in H as (Hsr & Hv).
    exists cats, p. done.
  - intros (cats & p & Hcats & Hp & Hne & Hnr & Hsr & Hv).
    destruct (table_of_ok _ _ _ _ Hrun Hcats) as [df Hdf].
    destruct (cats_of_ok _ _ _ _ Hdf Hp Hne) as [dc Hdc].
    destruct (sizes_of_ok _ _ _ Hdc Hnr) as [dn Hdn].
    rewrite (proj2 (table_of_lookup _ _ _ _ Hrun)) by eauto. simpl.
    rewrite (proj2 (cats_of_lookup _ _ _ _ Hdf)) by eauto. simpl.
    rewrite (proj2 (sizes_of_lookup _ _ _ _ Hdc)) by eauto. simpl.
    by apply (counts_of_lookup _ _ _ _ _ Hdn).
Qed.

Lemma counts_of_ok p n dn s :
  counts_of log_surprise p n (range 0 (n + 1)) ∅ = OK dn ->
  (0 <= s <= n)%Z -> exists v, ll s n p log_surprise = OK v.
Proof.
  intros Hrun Hs.
  apply (store_loop_ok (fun z : Z => z) (fun s => ll s n p log_surprise)
           _ _ _ Hrun s).
  unfold range. apply elem_of_seqZ. lia.
Qed.

(** A returned table means every call of [ll] returned. *)
Lemma precompute_ll_ok feat_prob t f cats c p n s :
  precompute_feature_likelihood min_size max_size feat_prob log_surprise = OK t ->
  feat_prob !! f = Some cats -> cats !! c = Some p -> c ≠ (-1)%Z ->
  (min_size <= n <= max_size)%Z -> (0 <= s <= n)%Z ->
  exists v, ll s n p log_surprise = OK v.
Proof.
  rewrite precompute_bottom_up. intros Hrun Hcats Hp Hne Hn Hs.
  destruct (table_of_ok _ _ _ _ Hrun Hcats) as [df Hdf].
  destruct (cats_of_ok _ _ _ _ Hdf Hp Hne) as [dc Hdc].
  destruct (sizes_of_ok _ _ _ Hdc Hn) as [dn Hdn].
  by apply (counts_of_ok _ _ _ _ Hdn).
Qed.

(** The keys of the three outer levels of a returned table. *)
Lemma levels_spec feat_prob (t : table) f c n :
  precompute_feature_likelihood min_size max_size feat_prob log_surprise = OK t ->
  (is_Some (t !! f) <-> is_Some (feat_prob !! f)) /\
  (is_Some (cat_dict t f c) <->
   (exists cats p, feat_prob !! f = Some cats /\ cats !! c = Some p) /\
   c ≠ (-1)%Z) /\
  (is_Some (size_dict t f c n) <->
   (exists cats p, feat_prob !! f = Some cats /\ cats !! c = Some p) /\
   c ≠ (-1)%Z /\ (min_size <= n <= max_size)%Z).
Proof.
  rewrite precompute_bottom_up. intros Hrun. unfold cat_dict, size_dict.
  assert (forall cats, feat_prob !! f = Some cats ->
            exists df, t !! f = Some df /\
              cats_of min_size max_size log_surprise (map_to_list cats) ∅
              = OK df) as Hf.
  { intros cats Hcats. destruct (table_of_ok _ _ _ _ Hrun Hcats) as [df Hdf].
    exists df. split; [|done]. apply (table_of_lookup _ _ _ _ Hrun). eauto. }
  assert (forall cats p, feat_prob !! f = Some cats -> cats !! c = Some p ->
            c ≠ (-1)%Z ->
            exists df dc, t !! f = Some df /\ df !! c = Some dc /\
              sizes_of log_surprise p (range min_size (max_size + 1)) ∅
              = OK dc) as Hc.
  { intros cats p Hcats Hp Hne. destruct (Hf cats Hcats) as (df & Htf & Hdf).
    destruct (cats_of_ok _ _ _ _ Hdf Hp Hne) as [dc Hdc].
    exists df, dc. split; [done|]. split; [|done].
    apply (cats_of_lookup _ _ _ _ Hdf). eauto. }
  split; [|split].
  - split.
    + intros [df Hdf]. apply (table_of_lookup _ _ _ _ Hrun) in Hdf
        as (cats & Hcats & _). eauto.
    + intros [cats Hcats]. destruct (Hf cats Hcats) as (df & Htf & _). eauto.
  - split.
    + intros [dc Hdc]. destruct (t !! f) as [df|] eqn:Htf; [|done].
      simpl in Hdc.
      apply (table_of_lookup _ _ _ _ Hrun) in Htf as (cats & Hcats & Hdf).
      apply (cats_of_lookup _ _ _ _ Hdf) in Hdc as (p & Hp & Hne & _).
      eauto 10.
    + intros ((cats & p & Hcats & Hp) & Hne).
      destruct (Hc cats p Hcats Hp Hne) as (df & dc & Htf & Hdc & _).
      rewrite Htf. simpl. eauto.
  - split.
    + intros [dn Hdn]. destruct (t !! f) as [df|] eqn:Htf; [|done].
      simpl in Hdn. destruct (df !! c) as [dc|] eqn:Hdc; [|done].
      simpl in Hdn.
      apply (table_of_lookup _ _ _ _ Hrun) in Htf as (cats & Hcats & Hdf).
      apply (cats_of_lookup _ _ _ _ Hdf) in Hdc as (p & Hp & Hne & Hsz).
      apply (sizes_of_lookup _ _ _ _ Hsz) in Hdn as (Hn & _).
      eauto 10.
    + intros ((cats & p & Hcats & Hp) & Hne & Hn).
      destruct (Hc cats p Hcats Hp Hne) as (df & dc & Htf & Hdc & Hsz).
      rewrite Htf. simpl. rewrite Hdc. simpl.
      destruct (sizes_of_ok _ _ _ Hsz Hn) as [dn Hdn].
      exists dn. apply (sizes_of_lookup _ _ _ _ Hsz). eauto.
Qed.

(** When every call of [ll] returns, so does the precomputation. *)
Lemma precompute_total feat_prob :
  (forall f cats c p n s,
     feat_prob !! f = Some cats -> cats !! c = Some p -> c ≠ (-1)%Z ->
     (min_size <= n <= max_size)%Z -> (0 <= s <= n)%Z ->
     exists v, ll s n p log_surprise = OK v) ->
  exists t,
    precompute_feature_likelihood min_size max_size feat_prob log_surprise = OK t.
Proof.
  intros Hll. rewrite precompute_bottom_up. unfold table_of.
  destruct (store_loop_total fst (fun x : Z * gmap Z R =>
              cats_of min_size max_size log_surprise (map_to_list x.2) ∅)
              (map_to_list feat_prob) ∅) as [t Ht].
  - intros [f cats] Hf. apply elem_of_map_to_list in Hf. simpl.
    rewrite cats_of_filter. apply store_loop_total.
    intros [c p] Hc. apply list_elem_of_filter in Hc as [Hne Hc].
    apply elem_of_map_to_list in Hc. simpl.
    apply (store_loop_total (fun z : Z => z)
             (fun n => counts_of log_surprise p n (range 0 (n + 1)) ∅)).
    intros n Hn. unfold range in Hn. apply elem_of_seqZ in Hn.
    apply (store_loop_total (fun z : Z => z) (fun s => ll s n p log_surprise)).
    intros s Hs. unfold range in Hs. apply elem_of_seqZ in Hs.
    apply (Hll f cats c p n s); auto; lia.
  - exists t. rewrite <- Ht. apply for_in_ext. by intros [f cats] d _.
Qed.

End entries.

(** *** The binomial tail *)

Lemma C_pos n k : (0 < C n k)%R.
Proof.
  unfold C. apply Rdiv_lt_0_compat; [apply INR_fact_lt_0|].
  apply Rmult_lt_0_compat; apply INR_fact_lt_0.
Qed.

Lemma binom_pmf_nonneg n p k : (0 <= p <= 1)%R -> (0 <= binom_pmf n p k)%R.
Proof.
  intros Hp. unfold binom_pmf.
  apply Rmult_le_pos; [apply Rmult_le_pos|].
  - left. apply C_pos.
  - apply pow_le. lra.
  - apply pow_le. lra.
Qed.

Lemma Rsum_cons x l : Rsum (x :: l) = (x + Rsum l)%R.
Proof. reflexivity. Qed.

Lemma Rsum_nonneg l : Forall (fun x => 0 <= x)%R l -> (0 <= Rsum l)%R.
Proof.
  induction 1 as [|x l Hx _ IH]; [unfold Rsum; simpl; lra|].
  rewrite Rsum_cons. lra.
Qed.

Lemma Rsum_ge_elem l x :
  Forall (fun x => 0 <= x)%R l -> x ∈ l -> (x <= Rsum l)%R.
Proof.
  induction 1 as [|y l Hy Hl IH]; intros Hx; [inversion Hx|].
  pose proof (Rsum_nonneg l Hl) as Hs. rewrite Rsum_cons.
  inversion Hx; subst; [lra|]. specialize (IH ltac:(assumption)). lra.
Qed.

Lemma binom_terms_nonneg s n p :
  (0 <= p <= 1)%R ->
  Forall (fun x => 0 <= x)%R (map (binom_pmf n p) (seq s (S n - s))).
Proof.
  intros Hp. apply Forall_forall. intros x Hx.
  apply list_elem_of_In, in_map_iff in Hx as (k & <- & _).
  by apply binom_pmf_nonneg.
Qed.

Lemma binom_tail_nonneg s n p : (0 <= p <= 1)%R -> (0 <= binom_tail s n p)%R.
Proof. intros Hp. apply Rsum_nonneg. by apply binom_terms_nonneg. Qed.

Lemma binom_tail_step s n p :
  (s <= n)%nat ->
  binom_tail s n p = (binom_pmf n p s + binom_tail (S s) n p)%R.
Proof.
  intros Hs. unfold binom_tail.
  replace (S n - s)%nat with (S (S n - S s)) by lia.
  simpl seq. simpl map. apply Rsum_cons.
Qed.

Lemma binom_tail_beyond s n p : (n < s)%nat -> binom_tail s n p = 0%R.
Proof.
  intros Hs. unfold binom_tail.
  replace (S n - s)%nat with 0%nat by lia. reflexivity.
Qed.

(** More successes are never more probable. *)
Lemma binom_tail_antitone s1 s2 n p :
  (0 <= p <= 1)%R -> (s1 <= s2)%nat ->
  (binom_tail s2 n p <= binom_tail s1 n p)%R.
Proof.
  intros Hp. induction 1 as [|s2 Hle IH]; [lra|].
  destruct (le_lt_dec s2 n) as [Hn|Hn].
  - rewrite (binom_tail_step s2 n p Hn) in IH.
    pose proof (binom_pmf_nonneg n p s2 Hp). lra.
  - rewrite binom_tail_beyond by lia. by apply binom_tail_nonneg.
Qed.

Lemma binom_tail_pos s n p :
  (0 < p <= 1)%R -> (s <= n)%nat -> (0 < binom_tail s n p)%R.
Proof.
  intros Hp Hs.
  assert (0 < binom_pmf n p n)%R as Hn.
  { unfold binom_pmf. rewrite Nat.sub_diag. simpl.
    pose proof (C_pos n n). pose proof (pow_lt p n (proj1 Hp)). nra. }
  eapply Rlt_le_trans; [exact Hn|].
  apply Rsum_ge_elem; [apply binom_terms_nonneg; lra|].
  apply list_elem_of_In, in_map, in_seq. lia.
Qed.

Lemma binom_tail_p0 s n :
  (1 <= s)%nat -> binom_tail s n 0 = 0%R.
Proof.
  intros Hs. unfold binom_tail.
  generalize (S n - s)%nat as len. intros len. revert s Hs.
  induction len as [|len IH]; intros s Hs; cbn [seq map]; [done|].
  rewrite Rsum_cons, IH by lia.
  unfold binom_pmf. rewrite pow_i by lia. lra.
Qed.

Lemma sum_f_R0_Rsum f n : sum_f_R0 f n = Rsum (map f (seq 0 (S n))).
Proof.
  induction n as [|n IH]; [simpl; lra|].
  rewrite seq_S, map_app. simpl sum_f_R0. rewrite IH.
  generalize (map f (seq 0 (S n))) as l. intros l. cbn [map Nat.add].
  induction l as [|x l IHl].
  - unfold Rsum. simpl. lra.
  - rewrite <- app_comm_cons, !Rsum_cons, <- IHl. lra.
Qed.

(** Zero or more successes are certain. *)
Lemma binom_tail_0 n p : binom_tail 0 n p = 1%R.
Proof.
  unfold binom_tail. rewrite Nat.sub_0_r, <- sum_f_R0_Rsum.
  unfold binom_pmf. rewrite <- binomial.
  replace (p + (1 - p))%R with 1%R by lra. apply pow1.
Qed.


(** *** The score *)

Lemma binom_test_ok s n p :
  (s <= n)%Z -> (0 <= p <= 1)%R ->
  binom_test s n p = OK (binom_tail (Z.to_nat s) (Z.to_nat n) p).
Proof.
  intros Hs Hp. unfold binom_test.
  destruct (Z.ltb_spec n s) as [?|_]; [lia|].
  destruct (Rlt_dec p 0) as [?|_]; [lra|].
  destruct (Rlt_dec 1 p) as [?|_]; [lra|]. done.
Qed.

Lemma binom_test_inv s n p t :
  binom_test s n p = OK t ->
  (s <= n)%Z /\ (0 <= p <= 1)%R /\ t = binom_tail (Z.to_nat s) (Z.to_nat n) p.
Proof.
  unfold binom_test.
  destruct (Z.ltb_spec n s); [done|].
  destruct (Rlt_dec p 0); [done|].
  destruct (Rlt_dec 1 p); [done|].
  intros [= <-]. repeat split; (lia || lra).
Qed.

Lemma ll_log s n p t :
  binom_test s n p = OK t -> (0 < t)%R -> ll s n p true = OK (score_log t).
Proof.
  intros Ht Hpos. unfold ll. rewrite Ht. simpl.
  destruct (Rlt_dec 0 t) as [_|?]; [|done]. simpl. unfold score_log.
  destruct (Rlt_dec 0 (- ln t)); done.
Qed.

Lemma ll_log_raises s n p t :
  binom_test s n p = OK t -> (t <= 0)%R -> ll s n p true = Raise ValueError.
Proof.
  intros Ht Hneg. unfold ll. rewrite Ht. simpl.
  destruct (Rlt_dec 0 t) as [?|_]; [lra|]. done.
Qed.

Lemma ll_inv s n p t :
  binom_test s n p = OK t -> ll s n p false = OK (score_inv t).
Proof.
  intros Ht. unfold ll. rewrite Ht. simpl. unfold float_inv, score_inv.
  destruct (Req_dec_T t 0); simpl; [done|].
  destruct (Rlt_dec 0 (1 / t)); done.
Qed.

Lemma ll_OK s n p log_surprise v :
  ll s n p log_surprise = OK v ->
  (s <= n)%Z /\ (0 <= p <= 1)%R /\
  let t := binom_tail (Z.to_nat s) (Z.to_nat n) p in
  if log_surprise then (0 < t)%R /\ v = score_log t else v = score_inv t.
Proof.
  intros Hll.
  destruct (binom_test s n p) as [t|e] eqn:Ht.
  2:{ unfold ll in Hll. rewrite Ht in Hll. done. }
  destruct (binom_test_inv _ _ _ _ Ht) as (Hs & Hp & ->).
  split; [done|]. split; [done|]. simpl.
  destruct log_surprise.
  - destruct (Rlt_dec 0 (binom_tail (Z.to_nat s) (Z.to_nat n) p)) as [Hpos|Hneg].
    + rewrite (ll_log _ _ _ _ Ht Hpos) in Hll. split; congruence.
    + rewrite (ll_log_raises _ _ _ _ Ht) in Hll by lra. done.
  - rewrite (ll_inv _ _ _ _ Ht) in Hll. congruence.
Qed.

Lemma ln_le x y : (0 < x)%R -> (x <= y)%R -> (ln x <= ln y)%R.
Proof.
  intros Hx [Hlt| ->]; [|lra]. left. by apply ln_increasing.
Qed.

Lemma score_log_mono t1 t2 :
  (0 < t2)%R -> (t2 <= t1)%R -> ele (score_log t1) (score_log t2).
Proof.
  intros Hpos Hle. unfold score_log.
  pose proof (ln_le t2 t1 Hpos Hle) as Hln.
  destruct (Rlt_dec 0 (- ln t1)) as [H1|H1]; [|done].
  destruct (Rlt_dec 0 (- ln t2)) as [H2|H2]; [|lra].
  simpl. apply ln_le; lra.
Qed.

Lemma score_inv_mono t1 t2 :
  (0 <= t2)%R -> (t2 <= t1)%R -> ele (score_inv t1) (score_inv t2).
Proof.
  intros Hpos Hle. unfold score_inv.
  destruct (Req_dec_T t2 0) as [->|H2].
  { destruct (Req_dec_T t1 0); [done|]. by destruct (Rlt_dec 0 (1 / t1)). }
  destruct (Req_dec_T t1 0) as [->|H1]; [lra|].
  destruct (Rlt_dec 0 (1 / t1)) as [Hi1|Hi1]; [|done].
  assert (1 / t1 <= 1 / t2)%R as Hinv.
  { unfold Rdiv. rewrite !Rmult_1_l. apply Rinv_le_contravar; lra. }
  destruct (Rlt_dec 0 (1 / t2)) as [Hi2|Hi2]; [|lra].
  simpl. by apply ln_le.
Qed.

(** For a fixed zone size the score does not decrease with the count. *)
Lemma ll_monotone s1 s2 n p log_surprise v1 v2 :
  (0 <= s1 <= s2)%Z ->
  ll s1 n p log_surprise = OK v1 -> ll s2 n p log_surprise = OK v2 ->
  ele v1 v2.
Proof.
  intros Hs H1 H2.
  apply ll_OK in H1 as (_ & Hp & H1). apply ll_OK in H2 as (_ & _ & H2).
  simpl in H1, H2.
  assert (binom_tail (Z.to_nat s2) (Z.to_nat n) p
          <= binom_tail (Z.to_nat s1) (Z.to_nat n) p)%R as Hle.
  { apply binom_tail_antitone; [done|lia]. }
  destruct log_surprise.
  - destruct H1 as [_ ->], H2 as [Hpos ->]. by apply score_log_mono.
  - subst. apply score_inv_mono; [|done]. by apply binom_tail_nonneg.
Qed.


Lemma score_log_1 : score_log 1 = NInf.
Proof.
  unfold score_log. rewrite ln_1.
  destruct (Rlt_dec 0 (- 0)) as [?|_]; [lra|done].
Qed.

Lemma score_inv_0 : score_inv 0 = PInf.
Proof. unfold score_inv. destruct (Req_dec_T 0 0); [done|lra]. Qed.

(** C2, as stated, fails: in log-surprise mode a tail probability of zero
    (one success out of one trial at global probability zero) makes [ll]
    raise the [ValueError] of [math.log] again instead of returning an
    infinity. *)
Lemma ll_zero_tail_raises :
  (0 <= 1 <= 1)%Z /\ (0 <= 0 <= 1)%R /\
  binom_test 1 1 0 = OK 0%R /\
  ll 1 1 0 true = Raise ValueError /\
  ~ exists v, ll 1 1 0 true = OK v.
Proof.
  assert (binom_test 1 1 0 = OK 0%R) as Ht.
  { rewrite binom_test_ok by (lia || lra). f_equal.
    apply binom_tail_p0. simpl. lia. }
  assert (ll 1 1 0 true = Raise ValueError) as Hll.
  { apply (ll_log_raises _ _ _ _ Ht). lra. }
  repeat split; try lia; try lra; try done.
  intros [v Hv]. congruence.
Qed.

Lemma ll_with_binom_test : ll_with binom_test = ll.
Proof. reflexivity. Qed.

Lemma ll_with_log test s n p t :
  test s n p = OK t -> (0 < t)%R -> ll_with test s n p true = OK (score_log t).
Proof.
  intros Ht Hpos. unfold ll_with. rewrite Ht. simpl.
  destruct (Rlt_dec 0 t) as [_|?]; [|done]. simpl. unfold score_log.
  destruct (Rlt_dec 0 (- ln t)); done.
Qed.

Lemma ll_with_log_raises test s n p t :
  test s n p = OK t -> (t <= 0)%R ->
  ll_with test s n p true = Raise ValueError.
Proof.
  intros Ht Hneg. unfold ll_with. rewrite Ht. simpl.
  destruct (Rlt_dec 0 t) as [?|_]; [lra|]. done.
Qed.

Lemma ll_with_inv test s n p t :
  test s n p = OK t -> ll_with test s n p false = OK (score_inv t).
Proof.
  intros Ht. unfold ll_with. rewrite Ht. simpl. unfold float_inv, score_inv.
  destruct (Req_dec_T t 0); simpl; [done|].
  destruct (Rlt_dec 0 (1 / t)); done.
Qed.

(** C2, amended: whatever test computes the tail probability, as long as it
    returns a number that is not negative for a count within the zone size
    and a global probability in [0, 1]: in reciprocal mode [ll] always
    returns, with [+inf] at tail 0; in log-surprise mode it returns whenever
    the tail it is given is positive, with [-inf] at tail 1, and at tail 0 it
    raises [ValueError]. *)
Theorem ll_returns_unless_log_of_zero
    (stats_binom_test : Z -> Z -> R -> result R) s n p (log_surprise : bool) :
  (forall s n p, (0 <= s <= n)%Z -> (0 <= p <= 1)%R ->
     exists t, stats_binom_test s n p = OK t /\ (0 <= t)%R) ->
  (0 <= s <= n)%Z -> (0 <= p <= 1)%R ->
  exists t,
    stats_binom_test s n p = OK t /\ (0 <= t)%R /\
    if log_surprise then
      ((0 < t)%R ->
       exists v, ll_with stats_binom_test s n p true = OK v /\
                 (t = 1%R -> v = NInf)) /\
      (t = 0%R -> ll_with stats_binom_test s n p true = Raise ValueError)
    else
      exists v, ll_with stats_binom_test s n p false = OK v /\
                (t = 0%R -> v = PInf).
Proof.
  intros Htest Hs Hp. destruct (Htest s n p Hs Hp) as (t & Ht & Hge).
  exists t. split; [done|]. split; [done|].
  destruct log_surprise.
  - split.
    + intros Hpos. exists (score_log t).
      split; [by apply ll_with_log|]. intros ->. apply score_log_1.
    + intros H0. apply (ll_with_log_raises _ _ _ _ _ Ht). lra.
  - exists (score_inv t).
    split; [by apply ll_with_inv|]. intros ->. apply score_inv_0.
Qed.

Lemma ll_returns_unless_log_of_zero_witness :
  exists t,
    binom_test 1 1 0 = OK t /\ (0 <= t)%R /\
    ((0 < t)%R ->
     exists v, ll_with binom_test 1 1 0 true = OK v /\
               (t = 1%R -> v = NInf)) /\
    (t = 0%R -> ll_with binom_test 1 1 0 true = Raise ValueError).
Proof.
  apply (ll_returns_unless_log_of_zero binom_test 1 1 0 true).
  - intros s n p Hs Hp. eexists. split.
    + apply binom_test_ok; [lia|done].
    + by apply binom_tail_nonneg.
  - lia.
  - lra.
Defined.

(** C3: in a returned table, for every feature, category and zone size the
    stored score is non-decreasing in the observed count. *)
Theorem lookup_score_monotone min_size max_size log_surprise feat_prob
    (t : table) f c n s1 s2 v1 v2 :
  precompute_feature_likelihood min_size max_size feat_prob log_surprise = OK t ->
  entry t f c n s1 = Some v1 -> entry t f c n s2 = Some v2 ->
  (s1 <= s2)%Z -> ele v1 v2.
Proof.
  intros Hrun H1 H2 Hle.
  apply (entry_spec _ _ _ _ _ _ _ _ _ _ Hrun) in H1
    as (cats & p & Hcats & Hp & _ & _ & Hs1 & Hv1).
  apply (entry_spec _ _ _ _ _ _ _ _ _ _ Hrun) in H2
    as (cats' & p' & Hcats' & Hp' & _ & _ & Hs2 & Hv2).
  assert (cats' = cats) as -> by congruence.
  assert (p' = p) as -> by congruence.
  apply (ll_monotone s1 s2 n p log_surprise); [lia|done|done].
Qed.

(** C5: a returned table has an entry exactly at the keys (feature,
    category, size, count) with the category present for the feature in the
    input and different from -1, the size within the bounds and the count
    between 0 and the size; its outer levels hold exactly the features of
    the input, their categories other than -1 and the sizes within the
    bounds. *)
Theorem lookup_table_keys min_size max_size log_surprise feat_prob
    (t : table) f c n s :
  precompute_feature_likelihood min_size max_size feat_prob log_surprise = OK t ->
  (is_Some (entry t f c n s) <->
   (exists cats p, feat_prob !! f = Some cats /\ cats !! c = Some p) /\
   c ≠ (-1)%Z /\ (min_size <= n <= max_size)%Z /\ (0 <= s <= n)%Z) /\
  (is_Some (t !! f) <-> is_Some (feat_prob !! f)) /\
  (is_Some (cat_dict t f c) <->
   (exists cats p, feat_prob !! f = Some cats /\ cats !! c = Some p) /\
   c ≠ (-1)%Z) /\
  (is_Some (size_dict t f c n) <->
   (exists cats p, feat_prob !! f = Some cats /\ cats !! c = Some p) /\
   c ≠ (-1)%Z /\ (min_size <= n <= max_size)%Z).
Proof.
  intros Hrun. split; [|exact (levels_spec _ _ _ _ _ _ _ _ Hrun)]. split.
  - intros [v Hv].
    apply (entry_spec _ _ _ _ _ _ _ _ _ _ Hrun) in Hv
      as (cats & p & Hcats & Hp & Hne & Hn & Hs & _).
    eauto 10.
  - intros ((cats & p & Hcats & Hp) & Hne & Hn & Hs).
    destruct (precompute_ll_ok _ _ _ _ _ _ _ _ _ _ _ Hrun Hcats Hp Hne Hn Hs)
      as [v Hv].
    exists v. apply (entry_spec _ _ _ _ _ _ _ _ _ _ Hrun). eauto 10.
Qed.

(** *** End-to-end scenario 2 *)

Lemma scenario2_lookup f cats c p :
  scenario2 !! f = Some cats -> cats !! c = Some p -> p = half.
Proof.
  unfold scenario2. intros Hf Hc.
  apply lookup_singleton_Some in Hf as [_ <-].
  apply lookup_insert_Some in Hc as [[_ <-]|[_ Hc]]; [done|].
  by apply lookup_singleton_Some in Hc as [_ <-].
Qed.

Lemma scenario2_cat0 :
  scenario2 !! 0%Z = Some (<[ 0%Z := half ]> {[ 1%Z := half ]}) /\
  (<[ 0%Z := half ]> {[ 1%Z := half ]} : gmap Z R) !! 0%Z = Some half.
Proof.
  split; [apply lookup_singleton_eq|apply lookup_insert_eq].
Qed.

Lemma scenario2_runs :
  exists t, precompute_feature_likelihood 2 2 scenario2 true = OK t.
Proof.
  apply precompute_total. intros f cats c p n s Hf Hc _ Hn Hs.
  rewrite (scenario2_lookup _ _ _ _ Hf Hc).
  exists (score_log (binom_tail (Z.to_nat s) (Z.to_nat n) half)).
  apply ll_log.
  - apply binom_test_ok; [lia|]. unfold half. lra.
  - apply binom_tail_pos; [unfold half; lra|lia].
Qed.

Lemma scenario2_entry t s :
  precompute_feature_likelihood 2 2 scenario2 true = OK t ->
  (0 <= s <= 2)%Z ->
  entry t 0 0 2 s = Some (score_log (binom_tail (Z.to_nat s) 2 half)).
Proof.
  intros Hrun Hs. apply (entry_spec _ _ _ _ _ _ _ _ _ _ Hrun).
  destruct scenario2_cat0 as [Hf Hc].
  eexists _, half. split; [exact Hf|]. split; [exact Hc|].
  split; [done|]. split; [lia|]. split; [lia|].
  apply ll_log.
  - apply binom_test_ok; [lia|]. unfold half. lra.
  - apply binom_tail_pos; [unfold half; lra|lia].
Qed.

Lemma tail_2_of_2 : binom_tail 2 2 half = (1 / 4)%R.
Proof.
  unfold binom_tail, binom_pmf, Rsum, C, half. simpl. field.
Qed.

Lemma tail_1_of_2 : binom_tail 1 2 half = (3 / 4)%R.
Proof.
  unfold binom_tail, binom_pmf, Rsum, C, half. simpl. field.
Qed.

Lemma score_log_below_1 t :
  (0 < t < 1)%R -> score_log t = Fin (ln (- ln t)) /\ (0 < - ln t)%R.
Proof.
  intros [H0 H1]. pose proof (ln_increasing t 1 H0 H1) as Hln.
  rewrite ln_1 in Hln. unfold score_log.
  destruct (Rlt_dec 0 (- ln t)); [split; [done|lra]|lra].
Qed.

(** C4: on the input of scenario 2 the table is returned, its scores for
    category 0, size 2 at the counts 2 and 1 are finite, and the score at
    count 2 is strictly greater. *)
Theorem scenario2_score_increases :
  exists (t : table) (v1 v2 : R),
    precompute_feature_likelihood 2 2 scenario2 true = OK t /\
    entry t 0 0 2 2 = Some (Fin v2) /\
    entry t 0 0 2 1 = Some (Fin v1) /\
    (v1 < v2)%R.
Proof.
  destruct scenario2_runs as [t Hrun].
  pose proof (scenario2_entry t 2 Hrun ltac:(lia)) as H2.
  pose proof (scenario2_entry t 1 Hrun ltac:(lia)) as H1.
  change (Z.to_nat 2) with 2%nat in H2. change (Z.to_nat 1) with 1%nat in H1.
  rewrite tail_2_of_2 in H2. rewrite tail_1_of_2 in H1.
  destruct (score_log_below_1 (1 / 4)) as [E2 P2]; [lra|].
  destruct (score_log_below_1 (3 / 4)) as [E1 P1]; [lra|].
  rewrite E2 in H2. rewrite E1 in H1.
  exists t, (ln (- ln (3 / 4))), (ln (- ln (1 / 4))).
  repeat split; [done..|].
  apply ln_increasing; [done|].
  assert (ln (1 / 4) < ln (3 / 4))%R by (apply ln_increasing; lra). lra.
Qed.

Lemma lookup_score_monotone_witness :
  exists (t : table) v1 v2,
    precompute_feature_likelihood 2 2 scenario2 true = OK t /\
    entry t 0 0 2 1 = Some v1 /\ entry t 0 0 2 2 = Some v2 /\
    (1 <= 2)%Z /\ ele v1 v2.
Proof.
  destruct scenario2_runs as [t Hrun].
  pose proof (scenario2_entry t 2 Hrun ltac:(lia)) as H2.
  pose proof (scenario2_entry t 1 Hrun ltac:(lia)) as H1.
  eexists t, _, _. split; [exact Hrun|]. split; [exact H1|].
  split; [exact H2|]. split; [lia|].
  apply (lookup_score_monotone 2 2 true scenario2 t 0 0 2 1 2 _ _ Hrun H1 H2).
  lia.
Defined.

Lemma lookup_table_keys_witness :
  exists (t : table),
    precompute_feature_likelihood 2 2 scenario2 true = OK t /\
    (is_Some (entry t 0 0 2 1) <->
     (exists cats p, scenario2 !! 0%Z = Some cats /\ cats !! 0%Z = Some p) /\
     0%Z ≠ (-1)%Z /\ (2 <= 2 <= 2)%Z /\ (0 <= 1 <= 2)%Z).
Proof.
  destruct scenario2_runs as [t Hrun].
  exists t. split; [exact Hrun|].
  apply (proj1 (lookup_table_keys 2 2 true scenario2 t 0 0 2 1 Hrun)).
Defined.

End LookupFacts.

(** ** The geo-prior parameters *)

Module GeoPriorFacts.
Import GeoPrior.

(** What the code computes for "distance": the mean over every non-zero
    entry of the weighted Delaunay matrix. *)
Lemma distance_is_mean_of_all_edges compute_delaunay net delaunay mst ds :
  compute_delaunay (locations net) = OK delaunay ->
  multiply delaunay (dist_mat net) = OK mst ->
  take_at mst (nonzero mst) = OK ds ->
  estimate_geo_prior_parameters compute_delaunay net "distance"
  = OK {| uniform := None; gaussian := None;
          distance := Some (selection_mean ds) |}.
Proof.
  intros Hd Hm Ht. unfold estimate_geo_prior_parameters.
  rewrite Hd. simpl. rewrite Hm. simpl. rewrite Ht. reflexivity.
Qed.

(** Kruskal's tree on the triangle is a spanning tree, and no spanning tree
    of the triangle is lighter. *)
Lemma triangle_tree_is_minimum :
  exists g,
    multiply [[0; 1; 1]; [1; 0; 1]; [1; 1; 0]]%Q (dist_mat triangle) = OK g /\
    minimum_spanning_tree g = [(0, 1, 3%Q); (0, 2, 4%Q)] /\
    minimum_spanning_tree g ∈ spanning_trees g /\
    Forall (fun t => Qle_bool (total_weight (minimum_spanning_tree g))
                       (total_weight t) = true)
           (spanning_trees g).
Proof.
  eexists. split; [reflexivity|]. split; [reflexivity|]. split.
  - vm_compute. constructor.
  - vm_compute. repeat constructor.
Qed.

(** C1 fails on the code: for the three sites of the triangle the fitted
    "distance" parameter is 4, the mean over all six entries of the weighted
    Delaunay matrix, while the mean edge length along the minimum spanning
    tree is 7/2. *)
Theorem distance_parameter_is_not_mst_mean :
  exists q m,
    estimate_geo_prior_parameters triangle_delaunay triangle "distance"
    = OK {| uniform := None; gaussian := None; distance := Some (num q) |} /\
    spec_distance_parameter [[0; 1; 1]; [1; 0; 1]; [1; 1; 0]]%Q
      (dist_mat triangle) = OK (num m) /\
    (q == 4)%Q /\ (m == 7 # 2)%Q /\ ~ (q == m)%Q.
Proof.
  eexists _, _. split; [reflexivity|]. split; [reflexivity|].
  split; [reflexivity|]. split; [reflexivity|]. discriminate.
Qed.

End GeoPriorFacts.

(** ** The spatial network *)

Module NetworkFacts.
Import Network.

Lemma nonzero_spec (a : list (list Z)) i j :
  (i, j) ∈ nonzero a <-> exists x, cell a i j = Some x /\ x ≠ 0%Z.
Proof.
  unfold nonzero, cell. rewrite list_elem_of_join. split.
  - intros (l & Hin & Hl).
    apply elem_of_lookup_imap in Hl as (i' & row & -> & Hrow).
    apply list_elem_of_omap in Hin as (o & Ho & Heq). simpl in Heq. subst o.
    apply elem_of_lookup_imap in Ho as (j' & x & Hx & Hj).
    destruct (decide (x ≠ 0%Z)); [|done]. injection Hx as -> ->.
    exists x. rewrite Hrow. simpl. done.
  - intros (x & Hc & Hx).
    destruct (a !! i) as [row|] eqn:Hrow; [|done]. simpl in Hc.
    eexists. split.
    2:{ apply elem_of_lookup_imap. exists i, row. split; [reflexivity|done]. }
    apply list_elem_of_omap. exists (Some (i, j)). split; [|done].
    apply elem_of_lookup_imap. exists j, x. split; [|done].
    destruct (decide (x ≠ 0%Z)); done.
Qed.

Lemma cell_table {A B} (f : A -> A -> B) (l : list A) i j :
  cell (map (fun a => map (fun b => f a b) l) l) i j
  = (a ← l !! i; b ← l !! j; Some (f a b)).
Proof.
  unfold cell. rewrite list_lookup_fmap.
  destruct (l !! i) as [a|]; simpl; [|done].
  rewrite list_lookup_fmap. by destruct (l !! j).
Qed.

Lemma norm_sym (a b : R * R) :
  norm (a.1 - b.1, a.2 - b.2)%R = norm (b.1 - a.1, b.2 - a.2)%R.
Proof. unfold norm. simpl. f_equal. ring. Qed.

Lemma norm_self (a : R * R) : norm (a.1 - a.1, a.2 - a.2)%R = 0%R.
Proof.
  unfold norm. simpl.
  replace ((a.1 - a.1) * (a.1 - a.1) + (a.2 - a.2) * (a.2 - a.2))%R
    with 0%R by ring.
  apply sqrt_0.
Qed.

Section network.
Variable compute_delaunay : list (R * R) -> result (list (list Z)).
Variable compute_distance : nat * nat -> nat * nat -> R.

Lemma compute_network_fields sites net :
  compute_network compute_delaunay compute_distance sites = OK net ->
  (exists a, compute_delaunay (locations sites) = OK a /\
             edges net = nonzero a /\ adj_mat net = a) /\
  dist_mat net =
    map (fun a : R * R =>
           map (fun b : R * R => norm (a.1 - b.1, a.2 - b.2)%R)
               (locations sites))
        (locations sites).
Proof.
  unfold compute_network. intros H.
  apply bind_OK in H as (a & Ha & H).
  apply bind_OK in H as (g & _ & H).
  apply bind_OK in H as (nm & _ & H).
  injection H as <-. simpl. eauto.
Qed.

Hypothesis delaunay_symmetric : triangulation_adjacency compute_delaunay.

(** C6: the distance matrix of a returned network is symmetric with a zero
    diagonal, and its edge set is symmetric (the latter for a
    [compute_delaunay] that returns the adjacency of a triangulation). *)
Theorem compute_network_symmetric sites net :
  compute_network compute_delaunay compute_distance sites = OK net ->
  (forall i j, cell (dist_mat net) i j = cell (dist_mat net) j i) /\
  (forall i x, cell (dist_mat net) i i = Some x -> x = 0%R) /\
  (forall i j, (i, j) ∈ edges net -> (j, i) ∈ edges net).
Proof.
  intros H. apply compute_network_fields in H as ((a & Ha & He & _) & Hd).
  rewrite Hd, He. split; [|split].
  - intros i j. rewrite !cell_table.
    destruct (locations sites !! i) as [p|], (locations sites !! j) as [q|];
      simpl; try done.
    by rewrite norm_sym.
  - intros i x. rewrite cell_table.
    destruct (locations sites !! i) as [p|]; simpl; [|done].
    intros [= <-]. apply norm_self.
  - intros i j. rewrite !nonzero_spec.
    by rewrite (delaunay_symmetric _ _ i j Ha).
Qed.
End network.

Lemma triangle_delaunay_symmetric : triangulation_adjacency triangle_delaunay.
Proof.
  intros locs a i j [= <-].
  destruct i as [|[|[|i]]], j as [|[|[|j]]]; try reflexivity.
Qed.

Lemma compute_network_symmetric_witness :
  exists net,
    compute_network triangle_delaunay index_distance triangle_sites = OK net /\
    (forall i j, cell (dist_mat net) i j = cell (dist_mat net) j i) /\
    (forall i x, cell (dist_mat net) i i = Some x -> x = 0%R) /\
    (forall i j, (i, j) ∈ edges net -> (j, i) ∈ edges net).
Proof.
  eexists. split; [reflexivity|].
  apply (compute_network_symmetric triangle_delaunay index_distance
           triangle_delaunay_symmetric triangle_sites).
  reflexivity.
Defined.

End NetworkFacts.

(** ** The simulation helpers *)

Module SimulationFacts.
Import Simulation.

(** *** Sums of rationals *)

Lemma Qsum_cons x l : Qsum (x :: l) = (x + Qsum l)%Q.
Proof. reflexivity. Qed.

Lemma Qsum_scale (xs : list Q) (s : Q) :
  (Qsum (map (fun x => x / s) xs) == Qsum xs / s)%Q.
Proof.
  induction xs as [|x xs IH]; cbn [map].
  - unfold Qsum. simpl. unfold Qdiv. ring.
  - rewrite !Qsum_cons, IH. unfold Qdiv. ring.
Qed.

Lemma Qsum_pos (xs : list Q) :
  xs ≠ [] -> Forall (fun x => 0 < x)%Q xs -> (0 < Qsum xs)%Q.
Proof.
  intros Hne Hpos. destruct Hpos as [|x xs Hx Hxs]; [done|].
  rewrite Qsum_cons. clear Hne.
  assert (0 <= Qsum xs)%Q as Hs.
  { induction Hxs as [|y ys Hy _ IH]; [apply Qle_refl|].
    rewrite Qsum_cons. apply Qlt_le_weak in Hy.
    rewrite <- (Qplus_0_l 0). by apply Qplus_le_compat. }
  rewrite <- (Qplus_0_l 0). by apply Qplus_lt_le_compat.
Qed.

(** *** The Dirichlet rows *)

Lemma gamma_draws_length alpha g xs g' :
  gamma_draws alpha g = (xs, g') -> length xs = length alpha.
Proof.
  revert g xs g'. induction alpha as [|a alpha IH]; intros g xs g'; simpl.
  - by intros [= <- _].
  - destruct (standard_gamma a g) as [x g1].
    destruct (gamma_draws alpha g1) as [xs' g2] eqn:Hxs.
    intros [= <- _]. simpl. f_equal. by eapply IH.
Qed.

Lemma fsum_numbers (qs : list Q) : fsum (map num qs) = num (Qsum qs).
Proof.
  induction qs as [|q qs IH]; [done|].
  cbn [map]. unfold fsum in *. cbn [foldr]. by rewrite IH.
Qed.

(** A row of finite numbers comes from draws that are numbers, over a sum
    that is not 0. *)
Lemma fdiv_numbers xs acc qs :
  xs ≠ [] -> map (fun x => fdiv x acc) xs = map num qs ->
  exists s ds,
    acc = num s /\ ~ (s == 0)%Q /\ xs = map num ds /\
    qs = map (fun d => d / s)%Q ds.
Proof.
  intros Hne Hrow.
  assert (exists s, acc = num s /\ ~ (s == 0)%Q) as (s & -> & Hs).
  { destruct xs as [|x xs]; [done|]. destruct qs as [|q qs]; [done|].
    injection Hrow as Hx _. unfold fdiv in Hx.
    destruct x as [|d]; [done|]. destruct acc as [|s]; [done|].
    exists s. split; [done|].
    destruct (Qeq_bool s 0) eqn:E; [done|].
    intros H0. apply Qeq_bool_iff in H0. congruence. }
  exists s. clear Hne.
  revert qs Hrow. induction xs as [|x xs IH]; intros qs Hrow.
  - destruct qs; [|done]. by exists [].
  - destruct qs as [|q qs]; [done|]. injection Hrow as Hx Hrest.
    destruct (IH qs Hrest) as (ds & _ & _ & -> & ->).
    unfold fdiv in Hx. destruct x as [|d]; [done|].
    destruct (Qeq_bool s 0); [done|]. injection Hx as <-.
    by exists (d :: ds).
Qed.

Lemma dirichlet_row_spec alpha g r g' :
  dirichlet_row alpha g = (r, g') ->
  length r = length alpha /\ normalised r.
Proof.
  unfold dirichlet_row. destruct (gamma_draws alpha g) as [xs g1] eqn:Hxs.
  intros [= <- _]. split.
  - rewrite length_map. by eapply gamma_draws_length.
  - intros qs Hrow (q & Hq & _).
    destruct (fdiv_numbers xs (fsum xs) qs) as (s & ds & Hacc & Hs & -> & ->).
    { intros ->. destruct qs; [inversion Hq|done]. }
    { done. }
    rewrite fsum_numbers in Hacc. injection Hacc as Hsum.
    rewrite Qsum_scale, Hsum. by field.
Qed.

Lemma draws_spec {A} (one : rng -> A * rng) (P : A -> Prop) n g xs g' :
  (forall g x g', one g = (x, g') -> P x) ->
  draws one n g = (xs, g') -> length xs = n /\ Forall P xs.
Proof.
  intros Hone. revert g xs g'. induction n as [|n IH]; intros g xs g'; simpl.
  - intros [= <- _]. split; [done|constructor].
  - destruct (one g) as [x g1] eqn:Hx.
    destruct (draws one n g1) as [xs' g2] eqn:Hxs.
    intros [= <- _]. destruct (IH _ _ _ Hxs) as [Hlen HP].
    split; [simpl; lia|]. constructor; eauto.
Qed.

Lemma np_random_dirichlet_spec alpha size g rows g' :
  np_random_dirichlet alpha size g = OK (rows, g') ->
  length rows = Z.to_nat size /\
  Forall (fun r => length r = length alpha /\ normalised r) rows.
Proof.
  unfold np_random_dirichlet.
  destruct (existsb _ alpha); [done|]. destruct (size <? 0)%Z; [done|].
  intros [= H]. revert H. apply draws_spec. apply dirichlet_row_spec.
Qed.

(** C7, as stated, fails: when the gamma draws of a row all underflow to 0,
    as they do at concentrations like 1e-10, the row is [nan] throughout and
    has no sum. *)
Lemma simulate_weights_nan_row :
  simulate_weights (1 # 10000000000) (1 # 10000000000) (1 # 10000000000)
    true 1 zero_tape
  = OK ([[nan; nan; nan]], drop 6 zero_tape) /\
  ~ exists qs, [nan; nan; nan] = map num qs.
Proof.
  split; [reflexivity|]. intros [[|q qs] H]; discriminate.
Qed.

(** C7, amended: every row of the returned weights has three components
    with inheritance and two without; a row that holds finite numbers only,
    not all of them 0, sums to 1 (exactly, hence within 1e-9). *)
Theorem simulate_weights_rows f_global f_contact f_inheritance
    (inheritance : bool) n_features g weights g' :
  simulate_weights f_global f_contact f_inheritance inheritance n_features g
  = OK (weights, g') ->
  Forall (fun row =>
            length row = (if inheritance then 3 else 2)%nat /\
            forall qs, row = map num qs ->
              (exists q, q ∈ qs /\ ~ (q == 0)%Q) ->
              (Qsum qs == 1)%Q /\
              (Qabs (Qsum qs - 1) <= 1 # 1000000000)%Q)
         weights.
Proof.
  unfold simulate_weights. intros H.
  apply np_random_dirichlet_spec in H as [_ H].
  eapply Forall_impl; [exact H|]. simpl. intros row [Hlen Hsum].
  split; [by destruct inheritance|]. intros qs Hrow Hq.
  assert (Qsum qs == 1)%Q as Hone by (by apply Hsum).
  split; [done|].
  assert (Qsum qs - 1 == 0)%Q as Hz by (rewrite Hone; reflexivity).
  pose proof (Qabs_wd _ _ Hz) as Habs.
  apply Qle_trans with (Qabs 0); [|done].
  exact (proj2 (Qle_lteq _ _) (or_intror Habs)).
Qed.

Lemma simulate_weights_rows_witness :
  exists weights g',
    simulate_weights 1 1 1 true 2 tape0 = OK (weights, g') /\
    Forall (fun row =>
              length row = 3%nat /\
              forall qs, row = map num qs ->
                (exists q, q ∈ qs /\ ~ (q == 0)%Q) ->
                (Qsum qs == 1)%Q /\
                (Qabs (Qsum qs - 1) <= 1 # 1000000000)%Q)
           weights.
Proof.
  eexists _, _. split; [vm_compute; reflexivity|].
  eapply (simulate_weights_rows 1 1 1 true 2 tape0). vm_compute. reflexivity.
Defined.


(** *** Sampling categories *)

Lemma size_of_snoc dims n : size_of (dims ++ [n]) = (size_of dims * n)%nat.
Proof.
  unfold size_of. induction dims as [|d dims IH]; simpl; [lia|].
  rewrite IH. lia.
Qed.

Lemma split_last_snoc dims n : split_last (dims ++ [n]) = OK (dims, n).
Proof.
  unfold split_last. rewrite reverse_app. simpl.
  by rewrite reverse_involutive.
Qed.

Lemma chunks_rows {A} k n (l : list A) :
  length l = (n * k)%nat ->
  length (chunks k n l) = n /\ Forall (fun c => length c = k) (chunks k n l).
Proof.
  revert l. induction n as [|n IH]; intros l Hl; simpl.
  - split; [done|constructor].
  - destruct (IH (drop k l)) as [Hlen Hall].
    { rewrite length_drop. lia. }
    split; [lia|]. constructor; [|done]. rewrite length_take. lia.
Qed.

Lemma cumsum_from_length acc row : length (cumsum_from acc row) = length row.
Proof.
  revert acc. induction row as [|x row IH]; intros acc; simpl; [done|].
  by rewrite IH.
Qed.

Lemma first_true_bound l i : first_true l = Some i -> (i < length l)%nat.
Proof.
  revert i. induction l as [|b l IH]; intros i; simpl; [done|].
  destruct b; [intros [= <-]; lia|].
  destruct (first_true l) as [j|]; [|done]. simpl. intros [= <-].
  specialize (IH j eq_refl). lia.
Qed.

Lemma argmax_range l :
  l ≠ [] ->
  exists v, argmax l = OK v /\ (0 <= v <= Z.of_nat (length l) - 1)%Z.
Proof.
  intros Hne. destruct l as [|b l]; [done|].
  eexists. split; [reflexivity|].
  destruct (first_true (b :: l)) as [i|] eqn:Hi; simpl default.
  - apply first_true_bound in Hi. lia.
  - simpl length. lia.
Qed.

(** C10: the sample has the shape of [p] without its last axis, and every
    value is a category index. *)
Theorem sample_categorical_shape (p : ndarray Q) g output_dims n_categories :
  shape p = output_dims ++ [n_categories] ->
  well_formed p ->
  (0 < n_categories)%nat ->
  exists r g',
    sample_categorical p g = OK (r, g') /\
    shape r = output_dims /\
    well_formed r /\
    Forall (fun v => 0 <= v <= Z.of_nat n_categories - 1)%Z (data r).
Proof.
  intros Hshape Hwf Hn. unfold sample_categorical.
  rewrite Hshape, split_last_snoc. simpl.
  unfold well_formed in Hwf. rewrite Hshape, size_of_snoc in Hwf.
  destruct (chunks_rows n_categories (size_of output_dims) (data p) Hwf)
    as [Hrows Hlen].
  unfold np_random_random.
  destruct (draws random_sample (size_of output_dims) g) as [zs g1] eqn:Hz.
  apply (draws_spec _ (fun _ => True)) in Hz as [Hzs _]; [|done].
  simpl data.
  set (below := zip_with _ zs _).
  assert (Forall (fun b => length b = n_categories) below) as Hbelow.
  { subst below. apply Forall_forall. intros b Hb.
    apply elem_of_lookup_zip_with in Hb as (i & z & c & -> & _ & Hc).
    rewrite length_map. apply list_lookup_fmap_Some in Hc as (row & -> & Hrow).
    unfold cumsum. rewrite cumsum_from_length.
    exact (proj1 (Forall_lookup _ _) Hlen i row Hrow). }
  assert (length below = size_of output_dims) as Hcount.
  { subst below. rewrite length_zip_with, length_map. lia. }
  unfold argmax_last_axis.
  destruct (Nat.eqb_spec n_categories 0) as [?|_]; [lia|].
  destruct (map_result_total argmax
              (fun v => 0 <= v <= Z.of_nat n_categories - 1)%Z below)
    as (r & Hr & Hrange & Hrlen).
  { eapply Forall_impl; [exact Hbelow|]. simpl. intros b Hb.
    destruct (argmax_range b) as (v & Hv & Hvr).
    - intros ->. simpl in Hb. lia.
    - exists v. split; [done|]. lia. }
  rewrite Hr. simpl. eexists _, _. split; [reflexivity|].
  split; [done|]. split; [|done].
  unfold well_formed. simpl. lia.
Qed.

Lemma sample_categorical_shape_witness :
  ([2; 3] = [2] ++ [3])%nat /\
  exists r g',
    sample_categorical
      {| shape := [2; 3]; data := [1 # 2; 1 # 4; 1 # 4; 0; 0; 1]%Q |} tape0
    = OK (r, g') /\
    shape r = [2%nat] /\
    well_formed r /\
    Forall (fun v => 0 <= v <= Z.of_nat 3 - 1)%Z (data r).
Proof.
  split; [reflexivity|].
  apply (sample_categorical_shape
           {| shape := [2; 3]; data := [1 # 2; 1 # 4; 1 # 4; 0; 0; 1]%Q |}
           tape0 [2%nat] 3%nat); [reflexivity|reflexivity|lia].
Defined.


(** *** Families *)

Lemma np_random_choice_subset a size g f g' :
  np_random_choice a size g = OK (f, g') -> forall x, x ∈ f -> x ∈ a.
Proof.
  unfold np_random_choice.
  destruct (size <? 0)%Z; [done|].
  destruct (Z.of_nat (length a) <? size)%Z; [done|].
  destruct (np_random_permutation (length a) g) as [p g1].
  intros [= <- _] x Hx.
  apply list_elem_of_omap in Hx as (i & _ & Hi).
  by apply list_elem_of_lookup_2 in Hi.
Qed.

Lemma draw_family_apart sites_id lo hi st st' :
  drawn_apart sites_id st ->
  (let '(sites, sites_in_family, g) := st in
   '(f_size, g) ← np_random_randint lo hi g;
   '(f, g) ← np_random_choice sites f_size g;
   let sites := filter (fun s => s ∉ f) sites in
   OK (sites, sites_in_family ++ [f], g)) = OK st' ->
  drawn_apart sites_id st'.
Proof.
  destruct st as [[sites fams] g]. intros (Hsub & Hout & Hapart) Hstep.
  apply bind_OK in Hstep as ([f_size g1] & _ & Hstep).
  apply bind_OK in Hstep as ([f g2] & Hf & Hstep).
  injection Hstep as <-.
  pose proof (np_random_choice_subset _ _ _ _ _ Hf) as Hfs.
  split; [|split].
  - intros x Hx. apply list_elem_of_filter in Hx as [_ Hx]. auto.
  - intros f' x Hf' Hx. apply elem_of_app in Hf' as [Hf'|Hf'].
    + destruct (Hout f' x Hf' Hx) as [Hid Hnot]. split; [done|].
      intros Hin. apply list_elem_of_filter in Hin as [_ Hin]. done.
    + apply list_elem_of_singleton in Hf' as ->. split; [auto|].
      intros Hin. apply list_elem_of_filter in Hin as [Hnot _]. done.
  - assert (forall i f1 x, fams !! i = Some f1 -> x ∈ f1 -> x ∈ f -> False)
      as Hnew.
    { intros i f1 x Hi H1 H2.
      destruct (Hout f1 x) as [_ Hnot]; [by eapply list_elem_of_lookup_2|done|].
      auto. }
    intros i j f1 f2 x Hij Hi Hj H1 H2.
    apply lookup_snoc_Some in Hi as [[Hil Hi]|[Hil <-]];
      apply lookup_snoc_Some in Hj as [[Hjl Hj]|[Hjl <-]].
    + eauto.
    + eauto.
    + eauto.
    + lia.
Qed.

Lemma index_nonneg n id j : (0 <= id)%Z -> index n id = OK j -> id = Z.of_nat j.
Proof.
  intros Hid. unfold index.
  destruct (decide (0 <= id < Z.of_nat n)%Z); [intros [= <-]; lia|].
  destruct (decide (- Z.of_nat n <= id < 0)%Z); [lia|done].
Qed.

Lemma set_positions_true js (row : list bool) j :
  foldr (fun j r => <[j := true]> r) row js !! j = Some true ->
  row !! j = Some true \/ j ∈ js.
Proof.
  induction js as [|i js IH]; simpl; [auto|].
  destruct (decide (i = j)) as [->|Hne].
  - intros _. right. constructor.
  - rewrite list_lookup_insert_ne by done. intros H.
    destruct (IH H); [auto|]. right. by constructor.
Qed.

Lemma set_positions_length js (row : list bool) :
  length (foldr (fun j r => <[j := true]> r) row js) = length row.
Proof.
  induction js as [|i js IH]; simpl; [done|]. by rewrite length_insert.
Qed.

Lemma set_true_marks n_sites fams families k z_id families' :
  fams !! k = Some z_id ->
  marks_from n_sites fams families ->
  set_true families k z_id = OK families' ->
  marks_from n_sites fams families'.
Proof.
  intros Hk [Hlen Hmarks]. unfold set_true.
  destruct (families !! k) as [row|] eqn:Hrow; [|done].
  intros H. apply bind_OK in H as (js & Hjs & H). injection H as <-.
  assert (length row = n_sites) as Hrl.
  { exact (proj1 (Forall_lookup _ _) Hlen k row Hrow). }
  split.
  - apply Forall_insert; [done|]. by rewrite set_positions_length.
  - intros k' j row' Hk' Hj.
    destruct (decide (k = k')) as [<-|Hne].
    + rewrite list_lookup_insert_eq in Hk' by (by eapply lookup_lt_Some).
      injection Hk' as <-.
      apply set_positions_true in Hj as [Hj|Hj]; [by eapply Hmarks|].
      apply map_result_OK in Hjs.
      apply list_elem_of_lookup in Hj as [i Hi].
      destruct (Forall2_lookup_r _ _ _ _ _ Hjs Hi) as (id & Hid & Hidx).
      exists z_id, id. rewrite <- Hrl.
      split; [done|]. split; [by eapply list_elem_of_lookup_2|done].
    + rewrite list_lookup_insert_ne in Hk' by done. by eapply Hmarks.
Qed.

(** C9, as stated, fails: of the two sites with the ids 1 and -1 each of two
    families takes one, and both rows mark the last column, where the id -1
    counts from the end. *)
Lemma simulate_families_negative_id :
  exists families g' row1 row2,
    simulate_families [1; -1]%Z 2 2 1 tape0 = OK (families, g') /\
    families !! 0%nat = Some row1 /\ families !! 1%nat = Some row2 /\
    row1 !! 1%nat = Some true /\ row2 !! 1%nat = Some true.
Proof.
  eexists _, _, _, _. split; [vm_compute; reflexivity|].
  repeat split; reflexivity.
Qed.

(** C9, amended: for site ids that are not negative, no site is marked in
    two rows of the returned family matrix. *)
Theorem simulate_families_disjoint sites_id n_families max_family_size
    min_family_size g families g' :
  Forall (fun s => 0 <= s)%Z sites_id ->
  simulate_families sites_id n_families max_family_size min_family_size g
  = OK (families, g') ->
  forall k1 k2 j row1 row2,
    k1 ≠ k2 ->
    families !! k1 = Some row1 -> families !! k2 = Some row2 ->
    row1 !! j = Some true -> row2 !! j = Some true -> False.
Proof.
  intros Hids Hrun k1 k2 j row1 row2 Hne Hk1 Hk2 Hj1 Hj2.
  unfold simulate_families in Hrun.
  apply bind_OK in Hrun as ([[sites fams] g1] & Hdraw & Hrun).
  apply bind_OK in Hrun as (zeros & Hz & Hrun).
  apply bind_OK in Hrun as (fam & Hmark & Hrun).
  injection Hrun as <- <-.
  assert (drawn_apart sites_id (sites, fams, g1)) as (_ & Hin & Hapart).
  { revert Hdraw. apply for_in_invariant.
    - intros nf st st' _. apply draw_family_apart.
    - split; [auto|]. split.
      + intros f0 x Hf. inversion Hf.
      + intros i0 j0 f1 f2 x _ Hi. done. }
  assert (marks_from (length sites_id) fams fam) as [_ Hmarks].
  { revert Hmark. apply for_in_invariant.
    - intros [k z_id] a a' Hkz. apply set_true_marks.
      apply elem_of_lookup_zip_with in Hkz as (i & k' & f & [= -> ->] & Hi & Hf).
      apply lookup_seq in Hi as [-> _]. done.
    - unfold np_zeros_bool in Hz. destruct (n_families <? 0)%Z; [done|].
      injection Hz as <-. split.
      + apply Forall_replicate. apply length_replicate.
      + intros k j0 row Hk Hj. apply lookup_replicate in Hk as [-> _].
        apply lookup_replicate in Hj as [? _]. done. }
  destruct (Hmarks k1 j row1 Hk1 Hj1) as (f1 & id1 & Hf1 & Hid1 & Hidx1).
  destruct (Hmarks k2 j row2 Hk2 Hj2) as (f2 & id2 & Hf2 & Hid2 & Hidx2).
  assert (forall f id, f ∈ fams -> id ∈ f -> (0 <= id)%Z) as Hpos.
  { intros f id Hf Hid. destruct (Hin f id Hf Hid) as [Hs _].
    exact (proj1 (Forall_forall _ _) Hids id Hs). }
  assert (0 <= id1)%Z as P1.
  { apply (Hpos f1); [by eapply list_elem_of_lookup_2|done]. }
  assert (0 <= id2)%Z as P2.
  { apply (Hpos f2); [by eapply list_elem_of_lookup_2|done]. }
  apply (index_nonneg _ _ _ P1) in Hidx1. apply (index_nonneg _ _ _ P2) in Hidx2.
  apply (Hapart k1 k2 f1 f2 id1 Hne Hf1 Hf2 Hid1). by rewrite Hidx1, <- Hidx2.
Qed.

Lemma simulate_families_disjoint_witness :
  Forall (fun s => 0 <= s)%Z [0; 1; 2; 3; 4; 5; 6]%Z /\
  exists families g',
    simulate_families [0; 1; 2; 3; 4; 5; 6]%Z 2 4 2 tape0 = OK (families, g') /\
    forall k1 k2 j row1 row2,
      k1 ≠ k2 ->
      families !! k1 = Some row1 -> families !! k2 = Some row2 ->
      row1 !! j = Some true -> row2 !! j = Some true -> False.
Proof.
  assert (Forall (fun s => 0 <= s)%Z [0; 1; 2; 3; 4; 5; 6]%Z) as Hids.
  { repeat constructor; lia. }
  split; [exact Hids|].
  eexists _, _. split; [vm_compute; reflexivity|].
  eapply (simulate_families_disjoint [0; 1; 2; 3; 4; 5; 6]%Z 2 4 2 tape0 _ _ Hids).
  vm_compute. reflexivity.
Defined.


(** *** Category probabilities *)

Lemma assign2_spec a f k d a' :
  assign2 a f k d = OK a' ->
  exists row row',
    a !! f = Some row /\ assign_prefix row k d = OK row' /\
    a' = <[f := row']> a.
Proof.
  unfold assign2. destruct (a !! f) as [row|]; [|done].
  intros H. apply bind_OK in H as (row' & Hrow' & [= <-]). eauto.
Qed.

Lemma assign2_lookup a f k d a' :
  assign2 a f k d = OK a' ->
  exists row row',
    a !! f = Some row /\ assign_prefix row k d = OK row' /\
    forall f', a' !! f' = if decide (f' = f) then Some row' else a !! f'.
Proof.
  intros H. apply assign2_spec in H as (row & row' & Hrow & Hpre & ->).
  exists row, row'. split; [done|]. split; [done|]. intros f'.
  destruct (decide (f' = f)) as [->|Hne].
  - apply list_lookup_insert_eq. by eapply lookup_lt_Some.
  - by apply list_lookup_insert_ne.
Qed.

Lemma assign3_row_at a z f k d a' :
  assign3 a z f k d = OK a' ->
  exists row row',
    row_at a z f = Some row /\ assign_prefix row k d = OK row' /\
    forall z' f',
      row_at a' z' f' =
      if decide (z' = z /\ f' = f) then Some row' else row_at a z' f'.
Proof.
  unfold assign3, row_at. destruct (a !! z) as [plane|] eqn:Hz; [|done].
  intros H. apply bind_OK in H as (plane' & Hplane & [= <-]).
  apply assign2_lookup in Hplane as (row & row' & Hrow & Hpre & Hlook).
  exists row, row'. split; [done|]. split; [done|]. intros z' f'.
  destruct (decide (z' = z)) as [->|Hne].
  - rewrite list_lookup_insert_eq by (by eapply lookup_lt_Some). simpl.
    rewrite Hlook, Hz. simpl.
    destruct (decide (f' = f)) as [->|Hf].
    + by rewrite decide_True.
    + rewrite decide_False; [done|tauto].
  - rewrite list_lookup_insert_ne by done.
    rewrite decide_False; [done|tauto].
Qed.

Lemma dirichlet1_spec intensity cat_f g d g' :
  dirichlet1 (repeat_intensity intensity cat_f) g = OK (d, g') ->
  exists vals, d = [vals] /\ length vals = Z.to_nat cat_f /\ normalised vals.
Proof.
  unfold dirichlet1, repeat_intensity. intros H.
  apply np_random_dirichlet_spec in H as [Hlen Hrows].
  rewrite length_map, length_replicate in Hrows.
  destruct d as [|vals [|? ?]]; simpl in Hlen; try lia.
  apply Forall_cons in Hrows as [[Hvl Hsum] _].
  exists vals. done.
Qed.

(** A sample written over the start of a row of zeros. *)
Lemma assign_prefix_distribution m k d vals row' :
  d = [vals] -> length vals = Z.to_nat k -> normalised vals ->
  assign_prefix (replicate m (num 0)) k d = OK row' ->
  distribution_row (Z.to_nat k) row'.
Proof.
  intros -> Hlen Hsum. unfold assign_prefix.
  destruct (_ <? _)%nat; [done|]. destruct (negb _); [done|].
  intros [= <-]. split.
  - rewrite <- Hlen, take_app_length. done.
  - intros j [Hj1 Hj2]. rewrite lookup_app_r by lia.
    rewrite lookup_drop. apply lookup_replicate. split; [done|].
    rewrite length_app, length_drop, length_replicate in Hj2. lia.
Qed.

Lemma write_sample intensity cat_f g d g' m row' :
  dirichlet1 (repeat_intensity intensity cat_f) g = OK (d, g') ->
  assign_prefix (replicate m (num 0)) cat_f d = OK row' ->
  distribution_row (Z.to_nat cat_f) row'.
Proof.
  intros Hd Ha. destruct (dirichlet1_spec _ _ _ _ _ Hd) as (v & -> & Hl & Hs).
  by eapply assign_prefix_distribution.
Qed.


Lemma np_zeros2_rows rows cols a f :
  np_zeros2 rows cols = OK a -> (f < rows)%nat ->
  a !! f = Some (replicate (Z.to_nat cols) (num 0)).
Proof.
  unfold np_zeros2. destruct (cols <? 0)%Z; [done|]. intros [= <-] Hf.
  by apply lookup_replicate.
Qed.

Lemma np_zeros3_rows units rows cols a z f :
  np_zeros3 units rows cols = OK a -> (z < units)%nat -> (f < rows)%nat ->
  row_at a z f = Some (replicate (Z.to_nat cols) (num 0)).
Proof.
  unfold np_zeros3, row_at. destruct (cols <? 0)%Z; [done|].
  intros [= <-] Hz Hf.
  rewrite (proj2 (lookup_replicate _ _ _ _)) by done. simpl.
  by apply lookup_replicate.
Qed.

(** The inner loop fills row [f] of every unit and nothing else. *)
Lemma for_units_spec n_units intensity f cat_f m p g p' g' :
  for_units n_units intensity f cat_f (p, g) = OK (p', g') ->
  (forall z f', ~ ((z < n_units)%nat /\ f' = f) ->
                row_at p' z f' = row_at p z f') /\
  ((forall z, (z < n_units)%nat -> row_at p z f = Some (replicate m (num 0))) ->
   forall z, (z < n_units)%nat -> row_of cat_f (row_at p' z f)).
Proof.
  intros Hrun. unfold for_units in Hrun.
  match type of Hrun with for_in _ ?body _ = _ =>
    destruct (for_in_frame
                (fun (st : list (list (list npfloat)) * rng) (k : nat * nat) =>
                   row_at st.1 k.1 k.2)
                (fun z k => k = (z, f))
                (fun _ v => v = Some (replicate m (num 0)))
                (fun _ v => row_of cat_f v)
                body (seq 0 n_units) (p, g) (p', g')) as [Hkeep Hpost]
  end; [apply NoDup_seq| | |exact Hrun|].
  - intros x y k _ _ -> [= ->]. done.
  - intros z [p0 g0] [p1 g1] _ Hbody.
    apply bind_OK in Hbody as ([d g2] & Hd & Hbody).
    apply bind_OK in Hbody as (p2 & Hassign & [= <- <-]).
    apply assign3_row_at in Hassign as (row & row' & Hrow & Hpre & Hlook).
    split.
    + intros [z' f'] Hk. simpl. rewrite Hlook. rewrite decide_False; [done|].
      intros [-> ->]. done.
    + intros Hzeros k ->. simpl. rewrite Hlook, decide_True by done.
      specialize (Hzeros (z, f) eq_refl). simpl in Hzeros.
      rewrite Hrow in Hzeros. injection Hzeros as ->.
      exists row'. split; [done|]. by eapply write_sample.
  - split.
    + intros z f' Hno. apply (Hkeep (z, f')). intros x Hx [= -> ->].
      apply Hno. apply elem_of_seq in Hx. split; [lia|done].
    + intros Hzero z Hz. apply (Hpost) with (x := z) (k := (z, f)); [| |done].
      * intros x k Hx ->. simpl. apply Hzero. apply elem_of_seq in Hx. lia.
      * apply elem_of_seq. lia.
Qed.


Section rows.
Variables (n_categories : list Z) (m : nat).

Lemma category_count_lookup f k :
  category_count n_categories f = OK k -> n_categories !! f = Some k.
Proof. unfold category_count. destruct (_ !! f); [congruence|done]. Qed.

(** The loop over the features that fills [p_global] and [p_zones]. *)
Lemma global_zones_loop n_zones ig ic pg pz g pg' pz' g' :
  for_in (seq 0 (length n_categories)) (fun f '(p_global, p_zones, g) =>
      cat_f ← category_count n_categories f;
      '(d, g) ← dirichlet1 (repeat_intensity (Some ig) cat_f) g;
      p_global ← assign2 p_global f cat_f d;
      '(p_zones, g) ← for_units n_zones (Some ic) f cat_f (p_zones, g);
      OK (p_global, p_zones, g)) (pg, pz, g) = OK (pg', pz', g') ->
  (forall f, (f < length n_categories)%nat ->
             pg !! f = Some (replicate m (num 0))) ->
  (forall z f, (z < n_zones)%nat -> (f < length n_categories)%nat ->
               row_at pz z f = Some (replicate m (num 0))) ->
  forall f k, n_categories !! f = Some k ->
    row_of k (pg' !! f) /\
    forall z, (z < n_zones)%nat -> row_of k (row_at pz' z f).
Proof.
  intros Hrun Hpg Hpz.
  match type of Hrun with for_in _ ?body _ = _ =>
    destruct (for_in_frame
                (fun (st : list (list npfloat) * list (list (list npfloat)) * rng)
                     (k : option nat * nat) =>
                   match k.1 with
                   | None => st.1.1 !! k.2
                   | Some z => row_at st.1.2 z k.2
                   end)
                (fun f k => k.2 = f /\
                   match k.1 with None => True | Some z => (z < n_zones)%nat end)
                (fun _ v => v = Some (replicate m (num 0)))
                (fun k v => forall c, n_categories !! k.2 = Some c -> row_of c v)
                body (seq 0 (length n_categories)) (pg, pz, g) (pg', pz', g'))
      as [_ Hpost]
  end; [apply NoDup_seq| | |exact Hrun|].
  - intros x y k _ _ [<- _] [<- _]. done.
  - intros f [[pg0 pz0] g0] [[pg1 pz1] g1] _ Hbody.
    apply bind_OK in Hbody as (cat_f & Hcat & Hbody).
    apply bind_OK in Hbody as ([d g2] & Hd & Hbody).
    apply bind_OK in Hbody as (pg2 & Hassign & Hbody).
    apply bind_OK in Hbody as ([pz2 g3] & Hunits & [= <- <- <-]).
    apply category_count_lookup in Hcat.
    apply assign2_lookup in Hassign as (row & row' & Hrow & Hpre & Hlook).
    destruct (for_units_spec _ _ _ _ m _ _ _ _ Hunits) as [Hkeep Hfill].
    split.
    + intros [[z|] f'] Hk; simpl in *.
      * apply Hkeep. tauto.
      * rewrite Hlook, decide_False; [done|]. tauto.
    + intros Hzero [[z|] f'] [Hf' Hz] c Hc; simpl in *; subst f'.
      * assert (c = cat_f) as -> by congruence.
        apply Hfill; [|done]. intros z' Hz'.
        apply (Hzero (Some z', f)). done.
      * assert (c = cat_f) as -> by congruence.
        rewrite Hlook, decide_True by done.
        specialize (Hzero (None, f) (conj eq_refl I)). simpl in Hzero.
        rewrite Hrow in Hzero. injection Hzero as ->.
        exists row'. split; [done|]. by eapply write_sample.
  - intros f k Hk.
    assert (f ∈ seq 0 (length n_categories)) as Hf.
    { apply elem_of_seq. apply lookup_lt_Some in Hk. lia. }
    assert (forall x (key : option nat * nat),
              x ∈ seq 0 (length n_categories) ->
              key.2 = x /\
              match key.1 with None => True | Some z => (z < n_zones)%nat end ->
              match key.1 with
              | None => pg !! key.2
              | Some z => row_at pz z key.2
              end = Some (replicate m (num 0))) as Hzero.
    { intros x [[z|] f'] Hx [Hf' Hz]; simpl in *; subst f';
        apply elem_of_seq in Hx; [apply Hpz|apply Hpg]; (done || lia). }
    split.
    + apply (Hpost Hzero f (None, f) Hf (conj eq_refl I) k Hk).
    + intros z Hz. apply (Hpost Hzero f (Some z, f) Hf (conj eq_refl Hz) k Hk).
Qed.

(** The loop over the features that fills [p_families]. *)
Lemma families_loop n_families ii pf g pf' g' :
  for_in (seq 0 (length n_categories)) (fun f '(p_families, g) =>
      cat_f ← category_count n_categories f;
      for_units n_families ii f cat_f (p_families, g)) (pf, g)
  = OK (pf', g') ->
  (forall z f, (z < n_families)%nat -> (f < length n_categories)%nat ->
               row_at pf z f = Some (replicate m (num 0))) ->
  forall f k, n_categories !! f = Some k ->
    forall z, (z < n_families)%nat -> row_of k (row_at pf' z f).
Proof.
  intros Hrun Hpf.
  match type of Hrun with for_in _ ?body _ = _ =>
    destruct (for_in_frame
                (fun (st : list (list (list npfloat)) * rng) (k : nat * nat) =>
                   row_at st.1 k.1 k.2)
                (fun f k => k.2 = f /\ (k.1 < n_families)%nat)
                (fun _ v => v = Some (replicate m (num 0)))
                (fun k v => forall c, n_categories !! k.2 = Some c -> row_of c v)
                body (seq 0 (length n_categories)) (pf, g) (pf', g'))
      as [_ Hpost]
  end; [apply NoDup_seq| | |exact Hrun|].
  - intros x y k _ _ [<- _] [<- _]. done.
  - intros f [pf0 g0] [pf1 g1] _ Hbody.
    apply bind_OK in Hbody as (cat_f & Hcat & Hunits).
    apply category_count_lookup in Hcat.
    destruct (for_units_spec _ _ _ _ m _ _ _ _ Hunits) as [Hkeep Hfill].
    split.
    + intros [z f'] Hk; simpl in *. apply Hkeep. tauto.
    + intros Hzero [z f'] [Hf' Hz] c Hc; simpl in *; subst f'.
      assert (c = cat_f) as -> by congruence.
      apply Hfill; [|done]. intros z' Hz'. apply (Hzero (z', f)). done.
  - intros f k Hk z Hz.
    assert (f ∈ seq 0 (length n_categories)) as Hf.
    { apply elem_of_seq. apply lookup_lt_Some in Hk. lia. }
    apply (Hpost) with (x := f) (k := (z, f)); [|done|done|done].
    intros x [z' f'] Hx [Hf' Hz']; simpl in *; subst f'.
    apply elem_of_seq in Hx. apply Hpf; (done || lia).
Qed.
End rows.

(** C8, as stated, fails: at intensities like 1e-10 the gamma draws all
    underflow to 0, and the rows of a feature with two categories are [nan]
    in both entries: they have no sum. *)
Lemma assignment_probability_nan_row :
  simulate_assignment_probabilities 1 [(2%Z, 1%Q)] false [[true]]
    (1 # 10000000000) (1 # 10000000000) None None zero_tape
  = OK ([[nan; nan]], [[[nan; nan]]], None, drop 10 zero_tape) /\
  ~ exists qs, [nan; nan] = map num qs.
Proof.
  split; [vm_compute; reflexivity|]. intros [[|q qs] H]; discriminate.
Qed.

(** C8, amended: every returned row (global, per zone, per family) of a
    feature with [k] categories is zero after its first [k] entries, and
    these sum to 1 when they are finite numbers, not all of them 0. *)
Theorem assignment_probability_rows n_features p_number_categories
    (inheritance : bool) zones intensity_contact intensity_global
    intensity_inheritance families g p_global p_zones p_families g' :
  simulate_assignment_probabilities n_features p_number_categories inheritance
    zones intensity_contact intensity_global intensity_inheritance families g
  = OK (p_global, p_zones, p_families, g') ->
  exists n_categories g1,
    np_random_choice_p (map fst p_number_categories) n_features
      (map snd p_number_categories) g = OK (n_categories, g1) /\
    forall f k, n_categories !! f = Some k ->
      (exists row, p_global !! f = Some row /\
                   distribution_row (Z.to_nat k) row) /\
      (forall z, (z < length zones)%nat ->
         exists row, row_at p_zones z f = Some row /\
                     distribution_row (Z.to_nat k) row) /\
      (if inheritance then
         exists fams pf,
           families = Some fams /\ p_families = Some pf /\
           forall z, (z < length fams)%nat ->
             exists row, row_at pf z f = Some row /\
                         distribution_row (Z.to_nat k) row
       else p_families = None).
Proof.
  unfold simulate_assignment_probabilities. intros H.
  apply bind_OK in H as ([n_categories g1] & Hcats & H).
  apply bind_OK in H as (max_categories & _ & H).
  apply bind_OK in H as (pg0 & Hpg0 & H).
  apply bind_OK in H as (pz0 & Hpz0 & H).
  apply bind_OK in H as ([[pg1 pz1] g2] & Hloop & H).
  exists n_categories, g1. split; [done|]. intros f k Hk.
  destruct (global_zones_loop n_categories (Z.to_nat max_categories)
              _ _ _ _ _ _ _ _ _ Hloop) with (f := f) (k := k)
    as [(rg & Hrg & Hdg) Hzones]; [| |done|].
  { intros f0 Hf0. by apply (np_zeros2_rows _ _ _ _ Hpg0). }
  { intros z f0 Hz Hf0. by apply (np_zeros3_rows _ _ _ _ _ _ Hpz0). }
  assert (forall z, (z < length zones)%nat ->
            exists row, row_at pz1 z f = Some row /\
                        distribution_row (Z.to_nat k) row) as Hz.
  { intros z Hz. destruct (Hzones z Hz) as (row & Hrow & Hd). eauto. }
  destruct inheritance; simpl in H.
  - apply bind_OK in H as (n_families & Hnf & H).
    apply bind_OK in H as (pf0 & Hpf0 & H).
    apply bind_OK in H as ([pf1 g3] & Hfam & [= <- <- <- <-]).
    split; [eauto|]. split; [done|].
    destruct families as [fams|]; [|done]. injection Hnf as <-.
    exists fams, pf1. split; [done|]. split; [done|]. intros z Hzf.
    destruct (families_loop n_categories (Z.to_nat max_categories)
                _ _ _ _ _ _ Hfam) with (f := f) (k := k) (z := z)
      as (row & Hrow & Hd); [|done|done|eauto].
    intros z0 f0 Hz0 Hf0. by apply (np_zeros3_rows _ _ _ _ _ _ Hpf0).
  - injection H as <- <- <- <-. split; [eauto|]. split; done.
Qed.


Lemma assignment_probability_rows_witness :
  exists p_global p_zones p_families g',
    simulate_assignment_probabilities 2 [(2, 1 # 2); (3, 1 # 2)]%Z true
      [[true]; [false]] 1 1 (Some 1%Q) (Some [[true]]) tape0
    = OK (p_global, p_zones, p_families, g') /\
    exists n_categories g1,
      np_random_choice_p (map fst [(2, 1 # 2); (3, 1 # 2)]%Z) 2
        (map snd [(2, 1 # 2); (3, 1 # 2)]%Z) tape0 = OK (n_categories, g1) /\
      forall f k, n_categories !! f = Some k ->
        (exists row, p_global !! f = Some row /\
                     distribution_row (Z.to_nat k) row) /\
        (forall z, (z < length [[true]; [false]])%nat ->
           exists row, row_at p_zones z f = Some row /\
                       distribution_row (Z.to_nat k) row) /\
        exists fams pf,
          Some [[true]] = Some fams /\ p_families = Some pf /\
          forall z, (z < length fams)%nat ->
            exists row, row_at pf z f = Some row /\
                        distribution_row (Z.to_nat k) row.
Proof.
  eexists _, _, _, _. split; [vm_compute; reflexivity|].
  eapply (assignment_probability_rows 2 [(2, 1 # 2); (3, 1 # 2)]%Z true
            [[true]; [false]] 1 1 (Some 1%Q) (Some [[true]]) tape0).
  vm_compute. reflexivity.
Defined.

End SimulationFacts.

Lemma for_in_Raise {A S} (xs : list A) (body : A -> S -> result S) st e :
  for_in xs body st = Raise e ->
  exists x st0, x ∈ xs /\ body x st0 = Raise e.
Proof.
  revert st. induction xs as [|x xs IH]; intros st; simpl; [done|].
  destruct (body x st) as [st1|e1] eqn:Hx; simpl.
  - intros H. destruct (IH _ H) as (y & st0 & Hy & Hb).
    exists y, st0. split; [by constructor|done].
  - intros [= <-]. exists x, st. split; [constructor|done].
Qed.

(** ** More on the lookup table *)

Module LookupMore.
Import Lookup LookupFacts LookupOld.

Lemma ll_Raise s n p log_surprise e :
  ll s n p log_surprise = Raise e -> e = ValueError.
Proof.
  unfold ll. destruct (binom_test s n p) as [t|e0] eqn:Ht.
  2:{ simpl. intros [= <-]. unfold binom_test in Ht.
      destruct (n <? s)%Z; [congruence|].
      destruct (Rlt_dec p 0); [congruence|].
      destruct (Rlt_dec 1 p); congruence. }
  simpl. destruct log_surprise.
  - simpl. destruct (Rlt_dec 0 t); simpl.
    + destruct (Rlt_dec 0 (- ln t)); simpl; done.
    + intros [= <-]. done.
  - unfold float_inv. destruct (Req_dec_T t 0); simpl; [done|].
    destruct (Rlt_dec 0 (1 / t)); simpl; done.
Qed.

Section raises.
Variables (min_size max_size : Z) (log_surprise : bool).

Lemma counts_of_Raise p n ss dn e :
  counts_of log_surprise p n ss dn = Raise e -> e = ValueError.
Proof.
  intros H. apply for_in_Raise in H as (s & d & _ & H).
  destruct (ll s n p log_surprise) as [v|e0] eqn:Hll; simpl in H; [done|].
  injection H as <-. by eapply ll_Raise.
Qed.

Lemma sizes_of_Raise p ns dc e :
  sizes_of log_surprise p ns dc = Raise e -> e = ValueError.
Proof.
  intros H. apply for_in_Raise in H as (n & d & _ & H).
  destruct (counts_of log_surprise p n _ ∅) as [v|e0] eqn:Hc; simpl in H;
    [done|].
  injection H as <-. by eapply counts_of_Raise.
Qed.

Lemma cats_of_Raise cs df e :
  cats_of min_size max_size log_surprise cs df = Raise e -> e = ValueError.
Proof.
  intros H. apply for_in_Raise in H as ([c p] & d & _ & H).
  destruct (decide (c ≠ (-1)%Z)); [|done].
  destruct (sizes_of log_surprise p _ ∅) as [v|e0] eqn:Hc; simpl in H; [done|].
  injection H as <-. by eapply sizes_of_Raise.
Qed.
End raises.

(** X1: whatever [precompute_feature_likelihood] raises is a [ValueError]
    (of [binom_test] or of [math.log]); the dictionary accesses never
    fail. *)
Theorem precompute_raises_ValueError min_size max_size feat_prob
    log_surprise e :
  precompute_feature_likelihood min_size max_size feat_prob log_surprise
  = Raise e ->
  e = ValueError.
Proof.
  rewrite precompute_bottom_up. intros H.
  apply for_in_Raise in H as ([f cats] & d & _ & H).
  destruct (cats_of min_size max_size log_surprise (map_to_list cats) ∅)
    as [v|e0] eqn:Hc; simpl in H; [done|].
  injection H as <-. by eapply cats_of_Raise.
Qed.


Lemma zero_prob_lookup :
  zero_prob !! 0%Z = Some {[ 0%Z := 0%R ]} /\
  ({[ 0%Z := 0%R ]} : gmap Z R) !! 0%Z = Some 0%R.
Proof. split; apply lookup_singleton_eq. Qed.

Lemma ll_one_of_one_at_zero : ll 1 1 0 true = Raise ValueError.
Proof.
  apply (ll_log_raises 1 1 0 0); [|lra].
  rewrite binom_test_ok by (lia || lra). f_equal.
  apply binom_tail_p0. simpl. lia.
Qed.

Lemma zero_prob_raises :
  exists e, precompute_feature_likelihood 1 1 zero_prob true = Raise e.
Proof.
  destruct (precompute_feature_likelihood 1 1 zero_prob true) as [t|e] eqn:H;
    [|eauto].
  destruct zero_prob_lookup as [Hf Hc].
  destruct (precompute_ll_ok 1 1 true zero_prob t 0 _ 0 0 1 1 H Hf Hc)
    as [v Hv]; [done|lia|lia|].
  rewrite ll_one_of_one_at_zero in Hv. done.
Qed.

Lemma precompute_raises_ValueError_witness :
  exists e,
    precompute_feature_likelihood 1 1 zero_prob true = Raise e /\
    e = ValueError.
Proof.
  destruct zero_prob_raises as [e He]. exists e. split; [exact He|].
  apply (precompute_raises_ValueError 1 1 zero_prob true e He).
Defined.

(** *** When the table is returned *)

Lemma tail_zero_iff s n p :
  (s <= n)%nat -> (0 <= p <= 1)%R ->
  binom_tail s n p = 0%R <-> p = 0%R /\ (1 <= s)%nat.
Proof.
  intros Hs Hp. split.
  - intros H0. destruct (Req_dec_T p 0) as [->|Hne].
    + split; [done|]. destruct s; [|lia].
      rewrite binom_tail_0 in H0. lra.
    + pose proof (binom_tail_pos s n p ltac:(lra) Hs). lra.
  - intros [-> Hs1]. by apply binom_tail_p0.
Qed.

Lemma tail_le_1 s n p : (0 <= p <= 1)%R -> (binom_tail s n p <= 1)%R.
Proof.
  intros Hp. rewrite <- (binom_tail_0 n p).
  apply binom_tail_antitone; [done|lia].
Qed.

Lemma tail_one_iff s n p :
  (s <= n)%nat -> (0 <= p <= 1)%R ->
  binom_tail s n p = 1%R <-> s = 0%nat \/ p = 1%R.
Proof.
  intros Hs Hp. split.
  - intros H1. destruct s as [|s]; [by left|]. right.
    destruct (Req_dec_T p 1) as [->|Hne]; [done|]. exfalso.
    pose proof (binom_tail_antitone 1 (S s) n p Hp ltac:(lia)) as Hle.
    pose proof (binom_tail_step 0 n p ltac:(lia)) as Hstep.
    rewrite binom_tail_0 in Hstep.
    assert (0 < binom_pmf n p 0)%R as Hpos.
    { unfold binom_pmf. rewrite Nat.sub_0_r. simpl.
      pose proof (C_pos n 0). pose proof (pow_lt (1 - p) n ltac:(lra)). nra. }
    lra.
  - intros [->| ->]; [apply binom_tail_0|].
    apply Rle_antisym; [apply tail_le_1; lra|].
    assert (binom_pmf n 1 n <= binom_tail s n 1)%R as Hge.
    { apply Rsum_ge_elem; [apply binom_terms_nonneg; lra|].
      apply list_elem_of_In, in_map, in_seq. lia. }
    assert (binom_pmf n 1 n = 1%R) as Hn.
    { unfold binom_pmf. rewrite Nat.sub_diag, pow1. simpl.
      unfold C. rewrite Nat.sub_diag. simpl. field. apply INR_fact_neq_0. }
    lra.
Qed.

Lemma ll_returns_iff s n p (log_surprise : bool) :
  (0 <= s <= n)%Z ->
  (exists v, ll s n p log_surprise = OK v) <->
  (0 <= p <= 1)%R /\ (log_surprise = true -> (1 <= s)%Z -> (0 < p)%R).
Proof.
  intros Hs. split.
  - intros [v Hv]. apply ll_OK in Hv as (_ & Hp & Hv). split; [done|].
    intros -> Hs1. destruct Hv as [Hpos _].
    destruct (Req_dec_T p 0) as [->|Hne]; [|lra].
    rewrite binom_tail_p0 in Hpos by lia. lra.
  - intros [Hp Hlog].
    pose proof (binom_test_ok s n p (proj2 Hs) Hp) as Ht.
    destruct log_surprise.
    + eexists. apply (ll_log _ _ _ _ Ht).
      destruct (decide (s = 0%Z)) as [->|Hne].
      * rewrite binom_tail_0. lra.
      * apply binom_tail_pos; [|lia]. split; [|lra]. apply Hlog; [done|lia].
    + eexists. apply (ll_inv _ _ _ _ Ht).
Qed.

(** X2: when the table is returned, every non-missing global probability
    is in [0, 1] (as soon as some size from 0 on is within the bounds) and,
    in log-surprise mode, positive (as soon as some size from 1 on is within
    the bounds). *)
Theorem precompute_returns_only_if min_size max_size feat_prob
    (log_surprise : bool) (t : table) :
  precompute_feature_likelihood min_size max_size feat_prob log_surprise
  = OK t ->
  forall f cats c p,
    feat_prob !! f = Some cats -> cats !! c = Some p -> c ≠ (-1)%Z ->
    ((min_size <= max_size)%Z -> (0 <= max_size)%Z -> (0 <= p <= 1)%R) /\
    (log_surprise = true ->
     (min_size <= max_size)%Z -> (1 <= max_size)%Z -> (0 < p)%R).
Proof.
  intros Hrun f cats c p Hf Hc Hne. split.
  - intros Hmm Hmax.
    destruct (precompute_ll_ok _ _ _ _ _ _ _ _ _ max_size 0 Hrun Hf Hc Hne)
      as [v Hv]; [lia|lia|].
    apply (ll_returns_iff 0 max_size p log_surprise); [lia|eauto].
  - intros Hlog Hmm Hmax.
    destruct (precompute_ll_ok _ _ _ _ _ _ _ _ _ max_size 1 Hrun Hf Hc Hne)
      as [v Hv]; [lia|lia|].
    apply (ll_returns_iff 1 max_size p log_surprise); [lia|eauto|done|lia].
Qed.

Lemma precompute_returns_only_if_witness :
  exists t : table,
    precompute_feature_likelihood 2 2 scenario2 true = OK t /\
    forall f cats c p,
      scenario2 !! f = Some cats -> cats !! c = Some p -> c ≠ (-1)%Z ->
      ((2 <= 2)%Z -> (0 <= 2)%Z -> (0 <= p <= 1)%R) /\
      (true = true -> (2 <= 2)%Z -> (1 <= 2)%Z -> (0 < p)%R).
Proof.
  destruct scenario2_runs as [t Hrun]. exists t. split; [exact Hrun|].
  exact (precompute_returns_only_if 2 2 scenario2 true t Hrun).
Defined.

(** *** Where the infinities are *)

(** X3: in log-surprise mode no stored score is [+inf], and the score at
    count 0 and the scores at global probability 1 are [-inf]. *)
Theorem log_scores_infinite min_size max_size feat_prob (t : table)
    f cats c p n s v :
  precompute_feature_likelihood min_size max_size feat_prob true = OK t ->
  feat_prob !! f = Some cats -> cats !! c = Some p ->
  entry t f c n s = Some v ->
  v ≠ PInf /\ (s = 0%Z \/ p = 1%R -> v = NInf).
Proof.
  intros Hrun Hf Hc Hv.
  apply (entry_spec _ _ _ _ _ _ _ _ _ _ Hrun) in Hv
    as (cats' & p' & Hf' & Hc' & _ & _ & Hs & Hv).
  assert (cats' = cats) as -> by congruence.
  assert (p' = p) as -> by congruence.
  apply ll_OK in Hv as (_ & Hp & Hpos & ->).
  set (tl := binom_tail (Z.to_nat s) (Z.to_nat n) p) in *.
  assert (tl <= 1)%R as Hle by (by apply tail_le_1).
  assert (tl = 1%R <-> s = 0%Z \/ p = 1%R) as Hone.
  { unfold tl. rewrite tail_one_iff by (done || lia). intuition lia. }
  unfold score_log. destruct (Rlt_dec 0 (- ln tl)) as [Hln|Hln].
  - split; [done|]. intros H1%Hone.
    rewrite H1, ln_1 in Hln. lra.
  - split; done.
Qed.

Lemma log_scores_infinite_witness :
  exists (t : table) v,
    precompute_feature_likelihood 2 2 scenario2 true = OK t /\
    entry t 0 0 2 0 = Some v /\
    v ≠ PInf /\ (0%Z = 0%Z \/ half = 1%R -> v = NInf).
Proof.
  destruct scenario2_runs as [t Hrun].
  pose proof (scenario2_entry t 0 Hrun ltac:(lia)) as H0.
  destruct scenario2_cat0 as [Hf Hc].
  eexists t, _. split; [exact Hrun|]. split; [exact H0|].
  apply (log_scores_infinite 2 2 scenario2 t 0 _ 0 half 2 0 _ Hrun Hf Hc H0).
Defined.

(** X4: in reciprocal mode no stored score is negative or [-inf], the score
    at count 0 is 0, and the scores at global probability 0 with a count of
    1 or more are [+inf]. *)
Theorem reciprocal_scores min_size max_size feat_prob (t : table)
    f cats c p n s v :
  precompute_feature_likelihood min_size max_size feat_prob false = OK t ->
  feat_prob !! f = Some cats -> cats !! c = Some p ->
  entry t f c n s = Some v ->
  ele (Fin 0) v /\ (s = 0%Z -> v = Fin 0) /\
  (p = 0%R /\ (1 <= s)%Z -> v = PInf).
Proof.
  intros Hrun Hf Hc Hv.
  apply (entry_spec _ _ _ _ _ _ _ _ _ _ Hrun) in Hv
    as (cats' & p' & Hf' & Hc' & _ & _ & Hs & Hv).
  assert (cats' = cats) as -> by congruence.
  assert (p' = p) as -> by congruence.
  apply ll_OK in Hv as (_ & Hp & ->).
  set (tl := binom_tail (Z.to_nat s) (Z.to_nat n) p) in *.
  assert (tl <= 1)%R as Hle by (by apply tail_le_1).
  assert (0 <= tl)%R as Hge by (by apply binom_tail_nonneg).
  assert (tl = 0%R <-> p = 0%R /\ (1 <= s)%Z) as Hzero.
  { unfold tl. rewrite tail_zero_iff by (done || lia). intuition lia. }
  assert (s = 0%Z -> tl = 1%R) as Hone.
  { intros ->. apply binom_tail_0. }
  unfold score_inv. destruct (Req_dec_T tl 0) as [H0|Hne].
  - split; [done|]. split; [intros H1%Hone; lra|done].
  - assert (1 <= 1 / tl)%R as Hinv.
    { unfold Rdiv. rewrite Rmult_1_l. rewrite <- Rinv_1 at 1.
      apply Rinv_le_contravar; lra. }
    destruct (Rlt_dec 0 (1 / tl)) as [_|?]; [|lra].
    split; [|split].
    + simpl. rewrite <- ln_1. apply ln_le; lra.
    + intros H1%Hone. rewrite H1. f_equal.
      replace (1 / 1)%R with 1%R by field. apply ln_1.
    + intros H%Hzero. done.
Qed.

Lemma entry_exists min_size max_size log_surprise feat_prob (t : table)
    f cats c p n s :
  precompute_feature_likelihood min_size max_size feat_prob log_surprise = OK t ->
  feat_prob !! f = Some cats -> cats !! c = Some p -> c ≠ (-1)%Z ->
  (min_size <= n <= max_size)%Z -> (0 <= s <= n)%Z ->
  exists v, entry t f c n s = Some v.
Proof.
  intros Hrun Hf Hc Hne Hn Hs.
  destruct (precompute_ll_ok _ _ _ _ _ _ _ _ _ _ _ Hrun Hf Hc Hne Hn Hs)
    as [v Hv].
  exists v. apply (entry_spec _ _ _ _ _ _ _ _ _ _ Hrun). eauto 10.
Qed.

Lemma scenario2_runs_reciprocal :
  exists t, precompute_feature_likelihood 2 2 scenario2 false = OK t.
Proof.
  apply precompute_total. intros f cats c p n s Hf Hc _ Hn Hs.
  rewrite (scenario2_lookup _ _ _ _ Hf Hc).
  eexists. apply ll_inv. apply binom_test_ok; [lia|]. unfold half. lra.
Qed.

Lemma reciprocal_scores_witness :
  exists (t : table) v,
    precompute_feature_likelihood 2 2 scenario2 false = OK t /\
    entry t 0 0 2 1 = Some v /\
    ele (Fin 0) v /\ (1%Z = 0%Z -> v = Fin 0) /\
    (half = 0%R /\ (1 <= 1)%Z -> v = PInf).
Proof.
  destruct scenario2_runs_reciprocal as [t Hrun].
  destruct scenario2_cat0 as [Hf Hc].
  destruct (entry_exists 2 2 false scenario2 t 0 _ 0 half 2 1 Hrun Hf Hc)
    as [v Hv]; [done|lia|lia|].
  exists t, v. split; [exact Hrun|]. split; [exact Hv|].
  apply (reciprocal_scores 2 2 scenario2 t 0 _ 0 half 2 1 v Hrun Hf Hc Hv).
Defined.

(** *** The deprecated table *)

Section old.
Variables (min_size max_size : Z) (log_surprise : bool).

Lemma old_counts_bottom_up i s p ss (d : cats_t) df ds :
  d !! i = Some df -> df !! s = Some ds ->
  for_in ss (fun p_zone lookup_dict =>
      v ← ll p_zone s p log_surprise;
      LookupOld.set_score i s p_zone v lookup_dict) d
  = (ds' ← counts_of log_surprise p s ss ds;
     OK (<[i := <[s := ds']> df]> d)).
Proof.
  unfold counts_of. revert d df ds.
  induction ss as [|z ss IH]; intros d df ds Hi Hs; simpl.
  - f_equal. rewrite (insert_id df s ds Hs). by rewrite insert_id.
  - destruct (ll z s p log_surprise) as [v|e]; simpl; [|done].
    unfold LookupOld.set_score, getitem. rewrite Hi. simpl. rewrite Hs. simpl.
    rewrite (IH _ (<[s := <[z := v]> ds]> df) (<[z := v]> ds))
      by apply lookup_insert_eq.
    destruct (for_in ss _ (<[z := v]> ds)) as [ds'|e]; simpl; [|done].
    by rewrite !insert_insert_eq.
Qed.

Lemma old_sizes_bottom_up i p ns (d : cats_t) df :
  d !! i = Some df ->
  for_in ns (fun s lookup_dict =>
      lookup_dict ← LookupOld.set_size i s lookup_dict;
      for_in (range 0 (s + 1)) (fun p_zone lookup_dict =>
        v ← ll p_zone s p log_surprise;
        LookupOld.set_score i s p_zone v lookup_dict) lookup_dict) d
  = (df' ← sizes_of log_surprise p ns df; OK (<[i := df']> d)).
Proof.
  unfold sizes_of. revert d df.
  induction ns as [|s ns IH]; intros d df Hi; simpl.
  - f_equal. by rewrite insert_id.
  - unfold LookupOld.set_size, getitem. rewrite Hi. simpl.
    rewrite (old_counts_bottom_up i s p _ _ (<[s := ∅]> df) ∅)
      by apply lookup_insert_eq.
    destruct (counts_of log_surprise p s _ ∅) as [ds|e]; simpl; [|done].
    rewrite !insert_insert_eq.
    rewrite (IH _ (<[s := ds]> df)) by apply lookup_insert_eq.
    destruct (for_in ns _ (<[s := ds]> df)) as [df'|e]; simpl; [|done].
    by rewrite !insert_insert_eq.
Qed.

Lemma old_bottom_up feat_prob :
  precompute_feature_likelihood_old min_size max_size feat_prob log_surprise
  = for_in (enumerate feat_prob)
      (store_step fst (fun x : Z * R =>
         sizes_of log_surprise x.2 (range min_size (max_size + 1)) ∅)) ∅.
Proof.
  unfold precompute_feature_likelihood_old.
  apply for_in_ext. intros [i p] d _. unfold LookupOld.set_feature. simpl.
  rewrite (old_sizes_bottom_up i p _ _ ∅) by apply lookup_insert_eq.
  unfold store_step. simpl.
  destruct (sizes_of log_surprise p _ ∅) as [df|e]; simpl; [|done].
  by rewrite insert_insert_eq.
Qed.

Lemma elem_of_enumerate {A} (l : list A) (x : Z * A) :
  x ∈ enumerate l <-> exists i, x.1 = Z.of_nat i /\ l !! i = Some x.2.
Proof.
  unfold enumerate. rewrite elem_of_lookup_imap. split.
  - intros (i & y & -> & Hy). by exists i.
  - intros (i & Hi & Hx). exists i, x.2. split; [|done].
    destruct x. simpl in *. by subst.
Qed.

Lemma old_entry_spec feat_prob (t : cats_t) i n s v :
  precompute_feature_likelihood_old min_size max_size feat_prob log_surprise
  = OK t ->
  entry_old t i n s = Some v <->
  exists p,
    (0 <= i)%Z /\ feat_prob !! Z.to_nat i = Some p /\
    (min_size <= n <= max_size)%Z /\ (0 <= s <= n)%Z /\
    ll s n p log_surprise = OK v.
Proof.
  rewrite old_bottom_up. intros Hrun.
  assert (forall x y : Z * R,
            x ∈ enumerate feat_prob -> y ∈ enumerate feat_prob ->
            x.1 = y.1 -> x = y) as Huniq.
  { intros [i1 p1] [i2 p2] (k1 & H1 & Hp1)%elem_of_enumerate
      (k2 & H2 & Hp2)%elem_of_enumerate E. simpl in *. subst.
    apply Nat2Z.inj in E. subst. congruence. }
  unfold entry_old. split.
  - intros H. destruct (t !! i) as [df|] eqn:Hi; [|done]. simpl in H.
    destruct (df !! n) as [ds|] eqn:Hn; [|done]. simpl in H.
    eapply store_loop_lookup with (k := i) (w := df) in Hrun as Hlook.
    2:{ intros x y Hx Hy E. by rewrite (Huniq x y Hx Hy E). }
    apply Hlook in Hi as ([i' p] & (k & Hk & Hp)%elem_of_enumerate & <- & Hdf).
    simpl in *. subst i'.
    apply (sizes_of_lookup _ _ _ _ _ _ _ Hdf) in Hn as (Hnr & Hds).
    apply (counts_of_lookup _ _ _ _ _ _ Hds) in H as (Hsr & Hv).
    exists p. rewrite Nat2Z.id. repeat split; (done || lia).
  - intros (p & Hi & Hp & Hn & Hs & Hv).
    assert ((i, p) ∈ enumerate feat_prob) as Hin.
    { apply elem_of_enumerate. exists (Z.to_nat i). simpl. split; [lia|done]. }
    destruct (store_loop_ok _ _ _ _ _ Hrun (i, p) Hin) as [df Hdf]. simpl in Hdf.
    destruct (sizes_of_ok _ _ _ _ _ _ Hdf Hn) as [ds Hds].
    eapply store_loop_lookup with (k := i) (w := df) in Hrun as Hlook.
    2:{ intros x y Hx Hy E. by rewrite (Huniq x y Hx Hy E). }
    rewrite (proj2 Hlook) by (exists (i, p); done). simpl.
    rewrite (proj2 (sizes_of_lookup _ _ _ _ _ _ _ Hdf)) by done. simpl.
    by apply (counts_of_lookup _ _ _ _ _ _ Hds).
Qed.
End old.

Lemma old_total min_size max_size log_surprise feat_prob :
  (forall i p n s,
     feat_prob !! i = Some p ->
     (min_size <= n <= max_size)%Z -> (0 <= s <= n)%Z ->
     exists v, ll s n p log_surprise = OK v) ->
  exists t,
    precompute_feature_likelihood_old min_size max_size feat_prob log_surprise
    = OK t.
Proof.
  intros Hll. rewrite old_bottom_up. apply store_loop_total.
  intros [i p] (k & _ & Hp)%elem_of_enumerate. simpl in *.
  apply (store_loop_total (fun z : Z => z)
           (fun n => counts_of log_surprise p n (range 0 (n + 1)) ∅)).
  intros n Hn. unfold range in Hn. apply elem_of_seqZ in Hn.
  apply (store_loop_total (fun z : Z => z) (fun s => ll s n p log_surprise)).
  intros s Hs. unfold range in Hs. apply elem_of_seqZ in Hs.
  apply (Hll k p n s); [done|lia|lia].
Qed.

Lemma halves_run :
  exists t, precompute_feature_likelihood_old 2 2 halves true = OK t.
Proof.
  apply old_total. intros i p n s Hi Hn Hs.
  assert (p = half) as ->.
  { unfold halves in Hi. destruct i as [|[|i]]; simpl in Hi; [congruence..|done]. }
  eexists. apply ll_log.
  - apply binom_test_ok; [lia|]. unfold half. lra.
  - apply binom_tail_pos; [unfold half; lra|lia].
Qed.

(** X5: the deprecated table has an entry exactly at the positions of
    [feat_prob], the sizes within the bounds and the counts from 0 to the
    size. *)
Theorem old_table_keys min_size max_size feat_prob log_surprise
    (t : cats_t) i n s :
  precompute_feature_likelihood_old min_size max_size feat_prob log_surprise
  = OK t ->
  is_Some (entry_old t i n s) <->
  (0 <= i < Z.of_nat (length feat_prob))%Z /\
  (min_size <= n <= max_size)%Z /\ (0 <= s <= n)%Z.
Proof.
  intros Hrun. split.
  - intros [v Hv].
    apply (old_entry_spec _ _ _ _ _ _ _ _ _ Hrun) in Hv
      as (p & Hi & Hp & Hn & Hs & _).
    apply lookup_lt_Some in Hp. repeat split; lia.
  - intros (Hi & Hn & Hs).
    destruct (lookup_lt_is_Some_2 feat_prob (Z.to_nat i)) as [p Hp]; [lia|].
    assert (exists v, ll s n p log_surprise = OK v) as [v Hv].
    { rewrite old_bottom_up in Hrun.
      destruct (store_loop_ok _ _ _ _ _ Hrun (i, p)) as [df Hdf].
      { apply elem_of_enumerate. exists (Z.to_nat i). simpl. split; [lia|done]. }
      simpl in Hdf.
      destruct (sizes_of_ok _ _ _ _ _ _ Hdf Hn) as [ds Hds].
      by apply (counts_of_ok _ _ _ _ _ Hds). }
    exists v. apply (old_entry_spec _ _ _ _ _ _ _ _ _ Hrun).
    exists p. repeat split; (done || lia).
Qed.

Lemma old_table_keys_witness :
  exists (t : cats_t),
    precompute_feature_likelihood_old 2 2 halves true = OK t /\
    (is_Some (entry_old t 1 2 1) <->
     (0 <= 1 < Z.of_nat (length halves))%Z /\
     (2 <= 2 <= 2)%Z /\ (0 <= 1 <= 2)%Z).
Proof.
  destruct halves_run as [t Hrun]. exists t. split; [exact Hrun|].
  apply (old_table_keys 2 2 halves true t 1 2 1 Hrun).
Defined.

(** X6: the deprecated and the current table agree: for a feature and a
    non-missing category of the current input and a position of the old one
    with the same global probability, the two tables hold the same score at
    every size and count. *)
Theorem old_and_new_agree min_size max_size log_surprise
    (feat_prob : gmap Z (gmap Z R)) (old_prob : list R)
    (t : table) (t_old : cats_t) f cats c i p n s :
  precompute_feature_likelihood min_size max_size feat_prob log_surprise
  = OK t ->
  precompute_feature_likelihood_old min_size max_size old_prob log_surprise
  = OK t_old ->
  feat_prob !! f = Some cats -> cats !! c = Some p -> c ≠ (-1)%Z ->
  old_prob !! i = Some p ->
  entry t f c n s = entry_old t_old (Z.of_nat i) n s.
Proof.
  intros Hnew Hold Hf Hc Hne Hi.
  destruct (entry_old t_old (Z.of_nat i) n s) as [v|] eqn:Ho.
  - apply (old_entry_spec _ _ _ _ _ _ _ _ _ Hold) in Ho
      as (p' & _ & Hp' & Hn & Hs & Hv).
    rewrite Nat2Z.id in Hp'. assert (p' = p) as -> by congruence.
    apply (entry_spec _ _ _ _ _ _ _ _ _ _ Hnew). eauto 10.
  - destruct (entry t f c n s) as [v|] eqn:Hn'; [|done].
    apply (entry_spec _ _ _ _ _ _ _ _ _ _ Hnew) in Hn'
      as (cats' & p' & Hf' & Hc' & _ & Hn & Hs & Hv).
    assert (cats' = cats) as -> by congruence.
    assert (p' = p) as -> by congruence.
    assert (entry_old t_old (Z.of_nat i) n s = Some v) as Ho'.
    { apply (old_entry_spec _ _ _ _ _ _ _ _ _ Hold).
      exists p. rewrite Nat2Z.id. repeat split; (done || lia). }
    congruence.
Qed.

Lemma old_and_new_agree_witness :
  exists (t : table) (t_old : cats_t),
    precompute_feature_likelihood 2 2 scenario2 true = OK t /\
    precompute_feature_likelihood_old 2 2 halves true = OK t_old /\
    entry t 0 0 2 1 = entry_old t_old (Z.of_nat 1) 2 1.
Proof.
  destruct scenario2_runs as [t Hrun]. destruct halves_run as [t_old Hold].
  destruct scenario2_cat0 as [Hf Hc].
  exists t, t_old. split; [exact Hrun|]. split; [exact Hold|].
  apply (old_and_new_agree 2 2 true scenario2 halves t t_old 0 _ 0 1 half 2 1
           Hrun Hold Hf Hc); [done|reflexivity].
Defined.

End LookupMore.

(** ** More on the geo-prior parameters *)

Module GeoPriorMore.
Import GeoPrior GeoPriorFacts GeoPriorOld.

Lemma matrix_nonzero_spec (m : matrix) i j :
  (i, j) ∈ nonzero m <->
  exists x, m !! i ≫= (.!! j) = Some x /\ Qnonzero x = true.
Proof.
  unfold nonzero. rewrite list_elem_of_join. split.
  - intros (l & Hin & Hl).
    apply elem_of_lookup_imap in Hl as (i' & row & -> & Hrow).
    apply list_elem_of_omap in Hin as (o & Ho & Heq). simpl in Heq. subst o.
    apply elem_of_lookup_imap in Ho as (j' & x & Hx & Hj).
    destruct (Qnonzero x) eqn:Hnz; [|done]. injection Hx as -> ->.
    exists x. rewrite Hrow. simpl. done.
  - intros (x & Hc & Hx).
    destruct (m !! i) as [row|] eqn:Hrow; [|done]. simpl in Hc.
    eexists. split.
    2:{ apply elem_of_lookup_imap. exists i, row. split; [reflexivity|done]. }
    apply list_elem_of_omap. exists (Some (i, j)). split; [|done].
    apply elem_of_lookup_imap. exists j, x. split; [|done]. by rewrite Hx.
Qed.

(** The entries at the non-zero positions can always be read. *)
Lemma take_at_nonzero (m : matrix) :
  exists ds,
    take_at m (nonzero m) = OK ds /\
    Forall (fun x => Qnonzero x = true /\
                     exists i j, m !! i ≫= (.!! j) = Some x) ds /\
    length ds = length (nonzero m).
Proof.
  unfold take_at. apply map_result_total. apply Forall_forall.
  intros [i j] (x & Hx & Hnz)%matrix_nonzero_spec.
  exists x. unfold at_. simpl. rewrite Hx. eauto.
Qed.

Lemma multiply_cell (a b m : matrix) i j x :
  multiply a b = OK m -> m !! i ≫= (.!! j) = Some x ->
  exists u v,
    a !! i ≫= (.!! j) = Some u /\ b !! i ≫= (.!! j) = Some v /\
    x = (u * v)%Q.
Proof.
  unfold multiply. destruct (same_shape a b); [|done]. intros [= <-] Hx.
  destruct (zip_with (zip_with Qmult) a b !! i) as [row|] eqn:Hrow; [|done].
  simpl in Hx.
  apply lookup_zip_with_Some in Hrow as (ra & rb & -> & Ha & Hb).
  apply lookup_zip_with_Some in Hx as (u & v & -> & Hu & Hv).
  exists u, v. rewrite Ha, Hb. simpl. done.
Qed.

Lemma nonnegative_cell (m : matrix) i j x :
  nonnegative m -> m !! i ≫= (.!! j) = Some x -> (0 <= x)%Q.
Proof.
  intros Hm Hx. destruct (m !! i) as [row|] eqn:Hrow; [|done]. simpl in Hx.
  pose proof (proj1 (Forall_lookup _ _) Hm i row Hrow) as Hr.
  exact (proj1 (Forall_lookup _ _) Hr j x Hx).
Qed.

Lemma Qnonzero_pos x : (0 <= x)%Q -> Qnonzero x = true -> (0 < x)%Q.
Proof.
  intros Hx Hnz. unfold Qnonzero in Hnz. apply negb_true_iff in Hnz.
  apply Qle_lteq in Hx as [Hlt|Heq]; [done|].
  symmetry in Heq. apply Qeq_bool_iff in Heq. congruence.
Qed.

(** X7: for the selector "distance" the function returns whenever
    [compute_delaunay] returns a matrix of the shape of [dist_mat]: reading
    the non-zero entries of the weighted matrix never fails.  Only the
    parameter "distance" is set then. *)
Theorem distance_returns compute_delaunay net delaunay :
  compute_delaunay (locations net) = OK delaunay ->
  same_shape delaunay (dist_mat net) = true ->
  exists d,
    estimate_geo_prior_parameters compute_delaunay net "distance"
    = OK {| uniform := None; gaussian := None; distance := Some d |}.
Proof.
  intros Hd Hs. unfold estimate_geo_prior_parameters. simpl.
  rewrite Hd. simpl. unfold multiply. rewrite Hs. simpl.
  destruct (take_at_nonzero (zip_with (zip_with Qmult) delaunay
                               (dist_mat net))) as (ds & -> & _).
  simpl. eauto.
Qed.

Lemma distance_returns_witness :
  exists d,
    estimate_geo_prior_parameters triangle_delaunay triangle "distance"
    = OK {| uniform := None; gaussian := None; distance := Some d |}.
Proof.
  apply (distance_returns triangle_delaunay triangle
           [[0; 1; 1]; [1; 0; 1]; [1; 1; 0]]%Q); reflexivity.
Defined.

(** X8: when adjacency and distances are not negative, the fitted
    "distance" parameter is a positive number, or 0 when the weighted
    matrix has no non-zero entry; no other parameter is set. *)
Theorem distance_parameter_positive compute_delaunay net delaunay params :
  compute_delaunay (locations net) = OK delaunay ->
  nonnegative delaunay -> nonnegative (dist_mat net) ->
  estimate_geo_prior_parameters compute_delaunay net "distance" = OK params ->
  uniform params = None /\ gaussian params = None /\
  exists mst,
    multiply delaunay (dist_mat net) = OK mst /\
    match distance params with
    | Some (num q) =>
        (nonzero mst = [] /\ q = 0%Q) \/ (nonzero mst ≠ [] /\ (0 < q)%Q)
    | _ => False
    end.
Proof.
  intros Hd Hdel Hdist. unfold estimate_geo_prior_parameters. simpl.
  rewrite Hd. simpl. intros H.
  apply bind_OK in H as (mst & Hm & H).
  apply bind_OK in H as (ds & Hds & [= <-]). simpl.
  split; [done|]. split; [done|]. exists mst. split; [done|].
  destruct (take_at_nonzero mst) as (ds' & Hds' & Hall & Hlen).
  assert (ds' = ds) as -> by congruence.
  destruct ds as [|d ds]; simpl.
  - left. split; [|done]. destruct (nonzero mst); [done|simpl in Hlen; lia].
  - right. split; [intros Hnil; rewrite Hnil in Hlen; simpl in Hlen; lia|].
    assert (Forall (fun x => 0 < x)%Q (d :: ds)) as Hpos.
    { eapply Forall_impl; [exact Hall|]. simpl.
      intros x (Hnz & i & j & Hx).
      destruct (multiply_cell _ _ _ _ _ _ Hm Hx) as (u & v & Hu & Hv & ->).
      apply Qnonzero_pos; [|done]. apply Qmult_le_0_compat.
      - exact (nonnegative_cell delaunay i j u Hdel Hu).
      - exact (nonnegative_cell (dist_mat net) i j v Hdist Hv). }
    pose proof (SimulationFacts.Qsum_pos (d :: ds) ltac:(done) Hpos) as Hsum.
    apply Qlt_shift_div_l.
    + unfold Qlt. simpl. lia.
    + by rewrite Qmult_0_l.
Qed.

Lemma distance_parameter_positive_witness :
  exists params,
    estimate_geo_prior_parameters triangle_delaunay triangle "distance"
    = OK params /\
    uniform params = None /\ gaussian params = None /\
    exists mst,
      multiply [[0; 1; 1]; [1; 0; 1]; [1; 1; 0]]%Q (dist_mat triangle)
      = OK mst /\
      match distance params with
      | Some (num q) =>
          (nonzero mst = [] /\ q = 0%Q) \/ (nonzero mst ≠ [] /\ (0 < q)%Q)
      | _ => False
      end.
Proof.
  eexists. split; [reflexivity|].
  apply (distance_parameter_positive triangle_delaunay triangle
           [[0; 1; 1]; [1; 0; 1]; [1; 1; 0]]%Q).
  - reflexivity.
  - repeat constructor; discriminate.
  - repeat constructor; discriminate.
  - reflexivity.
Defined.

(** X9: the deprecated [estimate_random_walk_covariance] returns what the
    selector "gaussian" fits, and fails when it fails. *)
Theorem random_walk_covariance_is_gaussian compute_delaunay net cov :
  estimate_random_walk_covariance compute_delaunay net = OK cov <->
  estimate_geo_prior_parameters compute_delaunay net "gaussian"
  = OK {| uniform := None; gaussian := Some cov; distance := None |}.
Proof.
  unfold estimate_random_walk_covariance, estimate_geo_prior_parameters.
  simpl.
  destruct (compute_delaunay (locations net)) as [delaunay|e]; simpl; [|done].
  destruct (multiply delaunay (dist_mat net)) as [mst|e]; simpl; [|done].
  destruct (map_result _ (map fst (nonzero mst))) as [l1|e]; simpl; [|done].
  destruct (map_result _ (map snd (nonzero mst))) as [l2|e]; simpl; [|done].
  split; intros [= <-]; done.
Qed.

Lemma Qsum_products_comm (xs ys : list Q) :
  (Qsum (zip_with Qmult xs ys) == Qsum (zip_with Qmult ys xs))%Q.
Proof.
  revert ys.
  induction xs as [|x xs IH]; intros [|y ys]; cbn [zip_with]; try reflexivity.
  rewrite !SimulationFacts.Qsum_cons, IH. ring.
Qed.

Lemma Qsum_squares_nonneg (xs : list Q) :
  (0 <= Qsum (zip_with Qmult xs xs))%Q.
Proof.
  induction xs as [|x xs IH]; cbn [zip_with]; [apply Qle_refl|].
  rewrite SimulationFacts.Qsum_cons.
  rewrite <- (Qplus_0_l 0). apply Qplus_le_compat; [|done].
  unfold Qle, Qmult. simpl. nia.
Qed.

Lemma np_cov_symmetric diffs :
  exists a b c d,
    np_cov diffs = [[a; b]; [c; d]] /\
    same_float b c /\ not_negative a /\ not_negative d /\
    ((length diffs <= 1)%nat -> a = nan /\ b = nan /\ c = nan /\ d = nan).
Proof.
  unfold np_cov. eexists _, _, _, _. split; [reflexivity|].
  destruct (Nat.leb_spec (length diffs) 1) as [Hn|Hn]; simpl.
  - repeat split; done.
  - assert (0 < inject_Z (Z.of_nat (length diffs) - 1))%Q as Hpos.
    { unfold Qlt. simpl. lia. }
    split; [|split; [|split]].
    + apply Qmult_comp; [apply Qsum_products_comm|reflexivity].
    + apply Qle_shift_div_l; [done|]. rewrite Qmult_0_l.
      apply Qsum_squares_nonneg.
    + apply Qle_shift_div_l; [done|]. rewrite Qmult_0_l.
      apply Qsum_squares_nonneg.
    + lia.
Qed.

(** X10: the covariance fitted for the selector "gaussian" is a 2 x 2 matrix
    that is symmetric, with no negative entry on its diagonal; no other
    parameter is set. *)
Theorem gaussian_covariance_symmetric compute_delaunay net params :
  estimate_geo_prior_parameters compute_delaunay net "gaussian" = OK params ->
  uniform params = None /\ distance params = None /\
  exists a b c d,
    gaussian params = Some [[a; b]; [c; d]] /\
    same_float b c /\ not_negative a /\ not_negative d.
Proof.
  unfold estimate_geo_prior_parameters. simpl. intros H.
  apply bind_OK in H as (delaunay & _ & H).
  apply bind_OK in H as (mst & _ & H).
  apply bind_OK in H as (l1 & _ & H).
  apply bind_OK in H as (l2 & _ & [= <-]). simpl.
  split; [done|]. split; [done|].
  match goal with |- context [np_cov ?d] =>
    destruct (np_cov_symmetric d) as (a & b & c & d' & -> & Hs & Ha & Hd & _)
  end.
  eauto 10.
Qed.

Lemma gaussian_covariance_symmetric_witness :
  exists params,
    estimate_geo_prior_parameters triangle_delaunay triangle "gaussian"
    = OK params /\
    uniform params = None /\ distance params = None /\
    exists a b c d,
      gaussian params = Some [[a; b]; [c; d]] /\
      same_float b c /\ not_negative a /\ not_negative d.
Proof.
  eexists. split; [reflexivity|].
  apply (gaussian_covariance_symmetric triangle_delaunay triangle).
  reflexivity.
Defined.

End GeoPriorMore.

(** ** More on the spatial network *)

Module NetworkMore.
Import Network NetworkFacts.

Lemma norm_nonneg v : (0 <= norm v)%R.
Proof. unfold norm. apply sqrt_pos. Qed.

Lemma norm_same (q : R * R) : norm (q.1 - q.1, q.2 - q.2)%R = 0%R.
Proof.
  unfold norm. simpl.
  replace ((q.1 - q.1) * (q.1 - q.1) + (q.2 - q.2) * (q.2 - q.2))%R
    with 0%R by ring.
  apply sqrt_0.
Qed.

(** X11: the distance matrix of a returned network has one row for every
    site and one entry in each row for every site; no entry is negative, and
    the entry of two sites at the same location is 0. *)
Theorem dist_mat_entries compute_delaunay compute_distance sites net :
  compute_network compute_delaunay compute_distance sites = OK net ->
  length (dist_mat net) = length (locations sites) /\
  Forall (fun row => length row = length (locations sites)) (dist_mat net) /\
  forall i j p q,
    locations sites !! i = Some p -> locations sites !! j = Some q ->
    exists x, cell (dist_mat net) i j = Some x /\
              (0 <= x)%R /\ (p = q -> x = 0%R).
Proof.
  intros H. apply compute_network_fields in H as [_ ->].
  split; [by rewrite length_map|]. split.
  - apply Forall_fmap, Forall_forall. intros a _. simpl.
    by rewrite length_map.
  - intros i j p q Hp Hq. rewrite cell_table, Hp. simpl. rewrite Hq. simpl.
    eexists. split; [reflexivity|]. split; [apply norm_nonneg|].
    intros ->. apply norm_same.
Qed.

Lemma dist_mat_entries_witness :
  exists net,
    compute_network triangle_delaunay index_distance triangle_sites = OK net /\
    length (dist_mat net) = length (locations triangle_sites) /\
    Forall (fun row => length row = length (locations triangle_sites))
           (dist_mat net) /\
    forall i j p q,
      locations triangle_sites !! i = Some p ->
      locations triangle_sites !! j = Some q ->
      exists x, cell (dist_mat net) i j = Some x /\
                (0 <= x)%R /\ (p = q -> x = 0%R).
Proof.
  eexists. split; [reflexivity|].
  apply (dist_mat_entries triangle_delaunay index_distance triangle_sites).
  reflexivity.
Defined.

Section graph.
Variable compute_distance : nat * nat -> nat * nat -> R.

Lemma graph_loop (edges : list (nat * nat)) es g g' :
  for_in es (fun e g =>
      a ← edge_row edges e.1;
      b ← edge_row edges e.2;
      let dist := compute_distance a b in
      OK (add_edge g e.1 e.2 dist)) g = OK g' ->
  g_vertices g' = g_vertices g /\
  exists ws,
    g_edges g' = g_edges g ++ ws /\ map fst ws = es /\
    Forall (fun w : nat * nat * R =>
              exists a b, edges !! w.1.1 = Some a /\ edges !! w.1.2 = Some b /\
                          w.2 = compute_distance a b) ws.
Proof.
  revert g. induction es as [|e es IH]; intros g; simpl.
  - intros [= <-]. split; [done|]. exists []. rewrite app_nil_r.
    repeat split; constructor.
  - intros H. apply bind_OK in H as (g1 & Hstep & Hrest).
    apply bind_OK in Hstep as (a & Ha & Hstep).
    apply bind_OK in Hstep as (b & Hb & [= <-]).
    destruct (IH _ Hrest) as (Hv & ws & Hws & Hfst & Hall).
    split; [done|].
    exists ((e.1, e.2, compute_distance a b) :: ws). simpl in *.
    rewrite Hws, <- app_assoc. split; [done|]. split.
    + destruct e. simpl. by rewrite Hfst.
    + constructor; [|done]. exists a, b. simpl.
      unfold edge_row in Ha, Hb.
      destruct (edges !! e.1) eqn:E1; [|done].
      destruct (edges !! e.2) eqn:E2; [|done].
      split; [congruence|]. split; [congruence|done].
Qed.
End graph.

(** X12: the graph of a returned network has the site ids as vertices and
    the edges of the network, in their order; the weight of an edge is
    [compute_distance] of the rows of the edge array at the positions of its
    two end points, so it does not depend on the locations of the sites. *)
Theorem graph_of_network compute_delaunay compute_distance sites net :
  compute_network compute_delaunay compute_distance sites = OK net ->
  vertices net = id sites /\ n net = length (id sites) /\
  m net = length (edges net) /\
  g_vertices (net_graph net) = id sites /\
  map fst (g_edges (net_graph net)) = edges net /\
  Forall (fun w : nat * nat * R =>
            exists a b,
              edges net !! w.1.1 = Some a /\ edges net !! w.1.2 = Some b /\
              w.2 = compute_distance a b)
         (g_edges (net_graph net)).
Proof.
  unfold compute_network. intros H.
  apply bind_OK in H as (a & Ha & H).
  apply bind_OK in H as (g & Hg & H).
  apply bind_OK in H as (nm & _ & [= <-]). simpl.
  apply graph_loop in Hg as (Hv & ws & Hws & Hfst & Hall). simpl in *.
  subst. repeat split; done.
Qed.

Lemma graph_of_network_witness :
  exists net,
    compute_network triangle_delaunay index_distance triangle_sites = OK net /\
    vertices net = id triangle_sites /\
    n net = length (id triangle_sites) /\
    m net = length (edges net) /\
    g_vertices (net_graph net) = id triangle_sites /\
    map fst (g_edges (net_graph net)) = edges net /\
    Forall (fun w : nat * nat * R =>
              exists a b,
                edges net !! w.1.1 = Some a /\ edges net !! w.1.2 = Some b /\
                w.2 = index_distance a b)
           (g_edges (net_graph net)).
Proof.
  eexists. split; [reflexivity|].
  apply (graph_of_network triangle_delaunay index_distance triangle_sites).
  reflexivity.
Defined.

End NetworkMore.

Module SitesFacts.
Import Sites.

Lemma append_row pre columns row :
  length row = length columns ->
  for_in (imap (fun i value => (length pre + i, value)) row)
    (fun '(i, value) columns => append_at columns i value) (pre ++ columns)
  = OK (pre ++ zip_with snoc columns row).
Proof.
  revert pre columns. induction row as [|v row IH]; intros pre columns Hlen.
  - destruct columns; [|done]. done.
  - destruct columns as [|c columns]; [done|].
    rewrite imap_cons. cbn [for_in].
    assert (append_at (pre ++ c :: columns) (length pre + 0) v
            = OK (pre ++ (c ++ [v]) :: columns)) as ->.
    { unfold append_at. rewrite lookup_app_r by lia.
      replace (length pre + 0 - length pre) with 0 by lia. simpl.
      by rewrite insert_app_r. }
    cbn [mbind result_bind].
    specialize (IH (pre ++ [c ++ [v]]) columns).
    rewrite <- !(assoc_L (++)) in IH. cbn [app] in IH.
    cbn [zip_with]. change (snoc c v) with (c ++ [v]).
    rewrite <- IH by (simpl in Hlen; lia).
    f_equal. apply imap_ext. intros i x _. simpl. rewrite length_app. simpl.
    f_equal. lia.
Qed.

Lemma read_columns_rectangular header data :
  header ≠ [] ->
  Forall (fun row => length row = length header) data ->
  read_columns (header :: data) = OK (columns_of header data).
Proof.
  intros Hne. induction data as [|row data IH] using rev_ind; intros Hrect.
  - unfold read_columns. simpl. f_equal. unfold columns_of.
    apply list_eq. intros i. rewrite list_lookup_fmap, list_lookup_imap.
    by destruct (header !! i).
  - apply Forall_app in Hrect as [Hrect Hrow].
    apply Forall_inv in Hrow. specialize (IH Hrect).
    unfold read_columns in *. rewrite app_comm_cons, for_in_app, IH.
    cbn [mbind result_bind for_in].
    rewrite bool_decide_eq_true_2.
    2:{ intros Hnil. apply (f_equal length) in Hnil.
        unfold columns_of in Hnil. rewrite length_imap in Hnil.
        destruct header; [done|discriminate]. }
    pose proof (append_row [] (columns_of header data) row) as Happ.
    cbn [length Nat.add app] in Happ. rewrite Happ.
    2:{ unfold columns_of. by rewrite length_imap. }
    cbn [mbind result_bind]. f_equal. unfold columns_of.
    apply list_eq. intros i.
    rewrite lookup_zip_with, !list_lookup_imap.
    destruct (header !! i) as [h|] eqn:Hh; simpl; [|done].
    destruct (row !! i) as [v|] eqn:Hv; simpl.
    + unfold snoc, column. rewrite map_app. simpl. by rewrite Hv.
    + apply lookup_lt_Some in Hh. apply lookup_ge_None in Hv. lia.
Qed.

Lemma dict_loop_keeps (kvs : list (string * list string))
    (d0 : gmap string (list string)) k :
  k ∉ kvs.*1 ->
  foldl (fun d kv => <[kv.1 := kv.2]> d) d0 kvs !! k = d0 !! k.
Proof.
  revert d0. induction kvs as [|[k' v'] kvs IH]; intros d0 Hk; [done|].
  simpl. rewrite IH.
  - apply lookup_insert_ne. intros ->. apply Hk. simpl. constructor.
  - intros Hin. apply Hk. simpl. by constructor.
Qed.

Lemma dict_loop_lookup (kvs : list (string * list string))
    (d0 : gmap string (list string)) k v :
  NoDup (kvs.*1) -> (k, v) ∈ kvs ->
  foldl (fun d kv => <[kv.1 := kv.2]> d) d0 kvs !! k = Some v.
Proof.
  revert d0. induction kvs as [|[k' v'] kvs IH]; intros d0 Hnd Hin.
  - inversion Hin.
  - simpl in Hnd. apply NoDup_cons in Hnd as [Hout Hnd].
    apply elem_of_cons in Hin as [[= <- <-]|Hin]; simpl.
    + rewrite dict_loop_keeps by done. apply lookup_insert_eq.
    + by apply IH.
Qed.

Lemma columns_dict_loop (kvs : list (string * list string))
    (d0 : gmap string (list string)) :
  for_in (map (fun kv => kv.1 :: kv.2) kvs)
    (fun c d =>
       match c with
       | [] => Raise IndexError
       | key :: values => OK (<[key := values]> d)
       end) d0
  = OK (foldl (fun d kv => <[kv.1 := kv.2]> d) d0 kvs).
Proof.
  revert d0. induction kvs as [|[k v] kvs IH]; intros d0; simpl; [done|].
  apply IH.
Qed.

Lemma columns_of_items header data :
  exists kvs, columns_of header data = map (fun kv => kv.1 :: kv.2) kvs /\
    kvs.*1 = header /\
    forall j h, header !! j = Some h -> (h, column data j) ∈ kvs.
Proof.
  exists (imap (fun j h => (h, column data j)) header). split; [|split].
  - unfold columns_of. apply list_eq. intros i.
    rewrite list_lookup_fmap, !list_lookup_imap.
    by destruct (header !! i).
  - apply list_eq. intros i.
    rewrite list_lookup_fmap, list_lookup_imap.
    by destruct (header !! i).
  - intros j h Hj. apply elem_of_lookup_imap. eauto.
Qed.

Lemma columns_dict_rectangular header data :
  NoDup header ->
  exists d, columns_dict (columns_of header data) = OK d /\
    forall j h, header !! j = Some h -> d !! h = Some (column data j).
Proof.
  intros Hnd. destruct (columns_of_items header data) as (kvs & -> & Hk & Hin).
  unfold columns_dict. rewrite columns_dict_loop. eexists. split; [done|].
  intros j h Hj. apply dict_loop_lookup; [by rewrite Hk|by eapply Hin].
Qed.

Lemma columns_dict_keys header data :
  exists d, columns_dict (columns_of header data) = OK d /\
    forall k, k ∉ header -> d !! k = None.
Proof.
  destruct (columns_of_items header data) as (kvs & -> & Hk & Hin).
  unfold columns_dict. rewrite columns_dict_loop. eexists. split; [done|].
  intros k Hout. rewrite dict_loop_keeps by (by rewrite Hk).
  apply lookup_empty.
Qed.

Lemma map_result_Forall2 {A B} (f : A -> result B) xs ys :
  Forall2 (fun x y => f x = OK y) xs ys -> map_result f xs = OK ys.
Proof.
  induction 1 as [|x y xs ys Hx _ IH]; simpl; [done|].
  by rewrite Hx, IH.
Qed.

Section locations.
Variable py_float : string -> result R.
Variables (x y : list string) (rx ry : list R) (n : nat).
Hypothesis Hx : Forall2 (fun s r => py_float s = OK r) x rx.
Hypothesis Hy : Forall2 (fun s r => py_float s = OK r) y ry.
Hypothesis Hnx : length x = n.
Hypothesis Hny : length y = n.

Lemma locations_loop k :
  k <= n ->
  for_in (seq 0 k) (fun i '(locations, seq_id) =>
      xi ← item x i;
      xi ← py_float xi;
      yi ← item y i;
      yi ← py_float yi;
      OK (<[i := (xi, yi)]> locations, seq_id ++ [Z.of_nat i]))
    (replicate n (0, 0)%R, [])
  = OK (take k (zip rx ry) ++ replicate (n - k) (0, 0)%R,
        map Z.of_nat (seq 0 k)).
Proof.
  induction k as [|k IH]; intros Hk.
  - simpl. by rewrite Nat.sub_0_r.
  - rewrite seq_S, for_in_app, IH by lia. cbn [mbind result_bind for_in].
    destruct (lookup_lt_is_Some_2 x k ltac:(lia)) as [sx Hsx].
    destruct (lookup_lt_is_Some_2 y k ltac:(lia)) as [sy Hsy].
    destruct (Forall2_lookup_l _ _ _ _ _ Hx Hsx) as (a & Ha & Hfa).
    destruct (Forall2_lookup_l _ _ _ _ _ Hy Hsy) as (b & Hb & Hfb).
    change (0 + k) with k. unfold item. rewrite Hsx. cbn [mbind result_bind].
    rewrite Hfa. cbn [mbind result_bind]. rewrite Hsy. cbn [mbind result_bind].
    rewrite Hfb. cbn [mbind result_bind]. f_equal. f_equal.
    + assert (length (take k (zip rx ry)) = k) as Hlen.
      { rewrite length_take, length_zip.
        apply Forall2_length in Hx, Hy. lia. }
      rewrite insert_app_r_alt by lia. rewrite Hlen, Nat.sub_diag.
      replace (n - k) with (S (n - S k)) by lia. simpl.
      rewrite (take_S_r _ _ (a, b)).
      * by rewrite <- (assoc_L (++)).
      * apply lookup_zip_Some. done.
    + by rewrite map_app.
Qed.
End locations.

Lemma ids_loop {L} (body : nat -> L -> result L) k l0 l ids :
  for_in (seq 0 k) (fun i '(locations, seq_id) =>
      locations ← body i locations;
      OK (locations, seq_id ++ [Z.of_nat i])) (l0, [])
  = OK (l, ids) ->
  ids = map Z.of_nat (seq 0 k).
Proof.
  revert l ids. induction k as [|k IH]; intros l ids Hrun.
  - simpl in Hrun. by injection Hrun as _ <-.
  - rewrite seq_S, for_in_app in Hrun.
    apply bind_OK in Hrun as ([l1 ids1] & Hk & Hlast).
    apply IH in Hk as ->. simpl in Hlast.
    apply bind_OK in Hlast as ([l2 ids2] & Hstep & [= <- <-]).
    apply bind_OK in Hstep as (l3 & _ & [= <- <-]).
    by rewrite seq_S, map_app.
Qed.

Lemma column_Forall2 {B} (P : string -> B -> Prop) data j ys :
  Forall2 (fun row y => exists s, row !! j = Some s /\ P s y) data ys ->
  Forall2 P (column data j) ys.
Proof.
  intros H. unfold column. apply Forall2_fmap_l.
  eapply Forall2_impl; [exact H|]. intros row y' (s & Hs & HP). simpl.
  by rewrite Hs.
Qed.

Lemma length_column data j : length (column data j) = length data.
Proof. unfold column. apply length_map. Qed.

(** X13: [get_sites] on a csv whose header names every column once and
    whose rows all have the header's length returns, for each row in order,
    the location parsed from its columns x and y, the zone parsed from its
    column cz and the name in its column name, with the row numbers from 0
    as ids. *)
Theorem get_sites_reads_rows (py_float : string -> result R)
    (py_int : string -> result Z) header data jx jy jn jc rx ry rc names :
  NoDup header ->
  header !! jx = Some "x"%string -> header !! jy = Some "y"%string ->
  header !! jn = Some "name"%string -> header !! jc = Some "cz"%string ->
  Forall (fun row => length row = length header) data ->
  Forall2 (fun row r => exists s, row !! jx = Some s /\ py_float s = OK r)
          data rx ->
  Forall2 (fun row r => exists s, row !! jy = Some s /\ py_float s = OK r)
          data ry ->
  Forall2 (fun row c => exists s, row !! jc = Some s /\ py_int s = OK c)
          data rc ->
  Forall2 (fun row nm => row !! jn = Some nm) data names ->
  get_sites py_float py_int (header :: data)
  = OK ({| locations := zip rx ry;
           cz := rc;
           id := map Z.of_nat (seq 0 (length data)) |}, names).
Proof.
  intros Hnd Hjx Hjy Hjn Hjc Hrect Hx Hy Hc Hn.
  assert (header ≠ []) as Hne by (intros ->; discriminate).
  unfold get_sites. rewrite read_columns_rectangular by done.
  cbn [mbind result_bind].
  destruct (columns_dict_rectangular header data Hnd) as (d & -> & Hd).
  cbn [mbind result_bind].
  unfold pop. rewrite (Hd _ _ Hjx). cbn [mbind result_bind].
  rewrite lookup_delete_ne, (Hd _ _ Hjy) by done. cbn [mbind result_bind].
  rewrite !lookup_delete_ne, (Hd _ _ Hjn) by done. cbn [mbind result_bind].
  rewrite !lookup_delete_ne, (Hd _ _ Hjc) by done. cbn [mbind result_bind].
  apply column_Forall2 in Hx, Hy, Hc.
  rewrite (locations_loop py_float _ _ rx ry (length (column data jn)))
    by (done || by rewrite !length_column).
  cbn [mbind result_bind].
  rewrite (map_result_Forall2 _ _ _ Hc). cbn [mbind result_bind].
  rewrite Nat.sub_diag, length_column. simpl replicate. rewrite app_nil_r.
  rewrite take_ge.
  2:{ rewrite length_zip. apply Forall2_length in Hx, Hy.
      rewrite length_column in Hx, Hy. lia. }
  f_equal. f_equal.
  unfold column. apply list_eq. intros i. rewrite list_lookup_fmap.
  destruct (data !! i) as [row|] eqn:Hrow; simpl.
  - destruct (Forall2_lookup_l _ _ _ _ _ Hn Hrow) as (nm & -> & ->). done.
  - symmetry. apply lookup_ge_None. apply lookup_ge_None in Hrow.
    apply Forall2_length in Hn. lia.
Qed.

Lemma get_sites_reads_rows_witness :
  get_sites digit_float digit two_sites_csv
  = OK ({| locations := zip [0; 3]%R [0; 4]%R;
           cz := [0; 1]%Z;
           id := map Z.of_nat (seq 0 2) |}, ["a"; "b"]%string).
Proof.
  apply (get_sites_reads_rows digit_float digit
           ["name"; "x"; "y"; "cz"]%string
           [["a"; "0"; "0"; "0"]; ["b"; "3"; "4"; "1"]]%string 1 2 0 3).
  - apply (bool_decide_unpack _). vm_compute. exact I.
  - reflexivity.
  - reflexivity.
  - reflexivity.
  - reflexivity.
  - repeat constructor.
  - repeat constructor; eexists; (split; [reflexivity|reflexivity]).
  - repeat constructor; eexists; (split; [reflexivity|reflexivity]).
  - repeat constructor; eexists; (split; [reflexivity|reflexivity]).
  - repeat constructor.
Defined.

(** X14: on a csv whose rows all have the header's length and whose header
    lacks one of the columns x, y, name and cz, [get_sites] raises a
    [KeyError]. *)
Theorem get_sites_missing_column (py_float : string -> result R)
    (py_int : string -> result Z) header data key :
  header ≠ [] ->
  Forall (fun row => length row = length header) data ->
  key ∈ ["x"; "y"; "name"; "cz"]%string ->
  key ∉ header ->
  get_sites py_float py_int (header :: data) = Raise KeyError.
Proof.
  intros Hne Hrect Hkey Hout.
  unfold get_sites. rewrite read_columns_rectangular by done.
  cbn [mbind result_bind].
  destruct (columns_dict_keys header data) as (d & -> & Hd).
  cbn [mbind result_bind]. specialize (Hd key Hout).
  unfold pop.
  destruct (d !! "x"%string) as [x|] eqn:Ex; cbn [mbind result_bind]; [|done].
  rewrite lookup_delete_ne by done.
  destruct (d !! "y"%string) as [y|] eqn:Ey; cbn [mbind result_bind]; [|done].
  rewrite !lookup_delete_ne by done.
  destruct (d !! "name"%string) as [name|] eqn:En;
    cbn [mbind result_bind]; [|done].
  rewrite !lookup_delete_ne by done.
  destruct (d !! "cz"%string) as [cz|] eqn:Ec;
    cbn [mbind result_bind]; [|done].
  repeat (apply elem_of_cons in Hkey as [->|Hkey]; [congruence|]).
  inversion Hkey.
Qed.

Lemma get_sites_missing_column_witness :
  get_sites digit_float digit
    [["name"; "x"; "y"]; ["a"; "0"; "0"]]%string = Raise KeyError.
Proof.
  apply (get_sites_missing_column digit_float digit _ _ "cz"%string).
  - discriminate.
  - repeat constructor.
  - apply (bool_decide_unpack _). vm_compute. exact I.
  - apply (bool_decide_unpack _). vm_compute. exact I.
Defined.

Lemma get_sites_OK py_float py_int rows s names :
  get_sites py_float py_int rows = OK (s, names) ->
  id s = map Z.of_nat (seq 0 (length names)) /\
  length (locations s) = length names.
Proof.
  unfold get_sites. intros H.
  apply bind_OK in H as (columns & _ & H).
  apply bind_OK in H as (d & _ & H).
  apply bind_OK in H as ([x d1] & _ & H).
  apply bind_OK in H as ([y d2] & _ & H).
  apply bind_OK in H as ([name d3] & _ & H).
  apply bind_OK in H as ([cz' d4] & _ & H).
  apply bind_OK in H as ([locs ids] & Hloop & H).
  apply bind_OK in H as (czs & _ & [= <- <-]). simpl. split.
  - eapply (ids_loop (fun i locations =>
      xi ← item x i; xi ← py_float xi; yi ← item y i; yi ← py_float yi;
      OK (<[i := (xi, yi)]> locations))).
    erewrite for_in_ext; [exact Hloop|].
    intros i [l q] _. simpl.
    destruct (item x i) as [xi|]; simpl; [|done].
    destruct (py_float xi) as [rxi|]; simpl; [|done].
    destruct (item y i) as [yi|]; simpl; [|done].
    by destruct (py_float yi).
  - refine (for_in_invariant
      (fun st : list (R * R) * list Z => length st.1 = length name)
      _ _ _ _ _ _ Hloop).
    + intros i [l q] [l' q'] _ Hl Hstep. simpl in *.
      apply bind_OK in Hstep as (xi & _ & Hstep).
      apply bind_OK in Hstep as (rxi & _ & Hstep).
      apply bind_OK in Hstep as (yi & _ & Hstep).
      apply bind_OK in Hstep as (ryi & _ & [= <- <-]).
      by rewrite length_insert.
    + simpl. apply length_replicate.
Qed.

(** X15: whenever [get_sites] returns, the ids of the sites are the
    positions 0, 1, ... of the names, and there is one location for each
    name. *)
Theorem get_sites_ids (py_float : string -> result R)
    (py_int : string -> result Z) rows s names :
  get_sites py_float py_int rows = OK (s, names) ->
  id s = map Z.of_nat (seq 0 (length names)) /\
  length (locations s) = length names /\
  length (id s) = length names.
Proof.
  intros H. destruct (get_sites_OK _ _ _ _ _ H) as [Hid Hloc].
  split; [done|]. split; [done|].
  by rewrite Hid, length_map, length_seq.
Qed.

Lemma get_sites_ids_witness :
  exists s names, get_sites digit_float digit two_sites_csv = OK (s, names) /\
    id s = map Z.of_nat (seq 0 (length names)) /\
    length (locations s) = length names /\
    length (id s) = length names.
Proof.
  eexists _, _. split; [vm_compute; reflexivity|].
  eapply (get_sites_ids digit_float digit two_sites_csv).
  vm_compute. reflexivity.
Defined.

(** X16: [compute_network] on the dictionary of sites that [get_sites]
    returns raises an exception: the dictionary has no key 'names'. *)
Theorem network_of_read_sites_raises (py_float : string -> result R)
    (py_int : string -> result Z) rows s names
    (compute_delaunay : list (R * R) -> result (list (list Z)))
    (compute_distance : nat * nat -> nat * nat -> R) :
  get_sites py_float py_int rows = OK (s, names) ->
  exists e,
    Network.compute_network compute_delaunay compute_distance
      (as_network_sites s) = Raise e.
Proof.
  intros _. unfold Network.compute_network.
  destruct (compute_delaunay _) as [a|e]; cbn [mbind result_bind]; [|eauto].
  destruct (for_in _ _ _) as [g|e]; cbn [mbind result_bind]; [|eauto].
  simpl. eauto.
Qed.

Lemma network_of_read_sites_raises_witness :
  exists s names, get_sites digit_float digit two_sites_csv = OK (s, names) /\
  exists e,
    Network.compute_network Network.triangle_delaunay Network.index_distance
      (as_network_sites s) = Raise e.
Proof.
  eexists _, _. split; [vm_compute; reflexivity|].
  eapply (network_of_read_sites_raises digit_float digit two_sites_csv).
  vm_compute. reflexivity.
Defined.

(** *** Zones *)

Lemma where_eq_spec cz z p :
  p ∈ where_eq cz z <-> exists i, p = Z.of_nat i /\ cz !! i = Some z.
Proof.
  unfold where_eq. rewrite list_elem_of_omap. split.
  - intros (o & Ho & Hp). apply elem_of_lookup_imap in Ho as (i & c & -> & Hc).
    destruct (decide (c = z)) as [->|]; [|done].
    injection Hp as <-. eauto.
  - intros (i & -> & Hi). exists (Some (Z.of_nat i)). split; [|done].
    apply elem_of_lookup_imap. exists i, z. split; [|done].
    by rewrite decide_True.
Qed.

Lemma dict_set_elem {V} (d : list (Z * V)) k v :
  NoDup (d.*1) ->
  NoDup ((dict_set d k v).*1) /\
  forall k' v', (k', v') ∈ dict_set d k v <->
    (k' = k /\ v' = v) \/ (k' ≠ k /\ (k', v') ∈ d).
Proof.
  induction d as [|[k0 v0] d IH]; intros Hnd.
  - simpl. split; [apply NoDup_singleton|].
    intros k' v'. rewrite list_elem_of_singleton. split.
    + intros [= -> ->]. auto.
    + intros [[-> ->]|[_ H]]; [done|inversion H].
  - simpl in Hnd. apply NoDup_cons in Hnd as [Hout Hnd].
    destruct (IH Hnd) as [IHnd IHel]. simpl.
    destruct (decide (k = k0)) as [<-|Hne].
    + split; [simpl; by apply NoDup_cons|].
      intros k' v'. rewrite !elem_of_cons. split.
      * intros [[= -> ->]|Hin]; [auto|]. right. split; [|auto].
        intros ->. apply Hout. apply list_elem_of_fmap. by exists (k, v').
      * intros [[-> ->]|[Hk [[= -> ->]|Hin]]]; auto. done.
    + split.
      * simpl. apply NoDup_cons. split; [|done].
        intros Hin. apply list_elem_of_fmap in Hin as ([k1 v1] & Hk1 & Hin).
        simpl in Hk1. subst k1. apply IHel in Hin as [[-> _]|[_ Hin]]; [done|].
        apply Hout. apply list_elem_of_fmap. by exists (k0, v1).
      * intros k' v'. rewrite !elem_of_cons, IHel. split.
        -- intros [[= -> ->]|[?|[? ?]]]; auto.
        -- intros [?|[? [?|?]]]; auto.
Qed.

Lemma zones_loop_spec cz zs (d0 : list (Z * list Z)) :
  NoDup (d0.*1) ->
  (forall z l, (z, l) ∈ d0 -> l = where_eq cz z) ->
  let d := foldl (fun d z => dict_set d z (where_eq cz z)) d0 zs in
  NoDup (d.*1) /\
  (forall z l, (z, l) ∈ d -> l = where_eq cz z) /\
  (forall z, z ∈ d.*1 <-> z ∈ d0.*1 \/ z ∈ zs).
Proof.
  revert d0. induction zs as [|z0 zs IH]; intros d0 Hnd Hval; simpl.
  - split; [done|]. split; [done|]. intros z. split; [auto|].
    intros [?|H]; [done|inversion H].
  - destruct (dict_set_elem d0 z0 (where_eq cz z0) Hnd) as [Hnd1 Hel].
    destruct (IH (dict_set d0 z0 (where_eq cz z0)) Hnd1) as (H1 & H2 & H3).
    { intros z l Hin. apply Hel in Hin as [[-> ->]|[_ Hin]]; [done|].
      by apply Hval. }
    split; [done|]. split; [done|].
    intros z. rewrite H3, elem_of_cons, !list_elem_of_fmap. split.
    + intros [([k l] & -> & Hin)|Hin]; [|auto].
      apply Hel in Hin as [[-> ->]|[_ Hin]]; [auto|].
      left. by exists (k, l).
    + intros [([k l] & -> & Hin)|[->|Hin]]; [| |auto].
      * simpl. destruct (decide (k = z0)) as [->|Hne].
        -- left. exists (z0, where_eq cz z0). split; [done|].
           apply Hel. auto.
        -- left. exists (k, l). split; [done|]. apply Hel. auto.
      * left. exists (z0, where_eq cz z0). split; [done|]. apply Hel. auto.
Qed.

Lemma contact_zones_OK zone_id cz d :
  get_contact_zones zone_id cz = OK d ->
  NoDup (d.*1) /\
  (forall z l, (z, l) ∈ d -> l = where_eq cz z) /\
  (forall z, z ∈ d.*1 <->
     zone_id = PyInt z \/ exists t, zone_id = PyTuple t /\ PyInt z ∈ t).
Proof.
  unfold get_contact_zones. destruct zone_id as [z0|t|]; [| |done].
  - intros [= <-]. simpl. split; [apply NoDup_singleton|]. split.
    + intros z l Hin. apply list_elem_of_singleton in Hin. by injection Hin as -> ->.
    + intros z. rewrite list_elem_of_singleton. split.
      * intros ->. auto.
      * intros [[= ->]|(t & Ht & _)]; done.
  - destruct (mapM as_int t) as [zs|] eqn:Hzs; [|done]. intros [= <-].
    destruct (zones_loop_spec cz zs []) as (H1 & H2 & H3).
    { constructor. } { intros z l Hin. inversion Hin. }
    split; [done|]. split; [done|].
    intros z. rewrite H3. apply mapM_Some in Hzs. split.
    + intros [Hin|Hin]; [inversion Hin|]. right. exists t. split; [done|].
      apply list_elem_of_lookup in Hin as [i Hi].
      destruct (Forall2_lookup_r _ _ _ _ _ Hzs Hi) as (x & Hx & Hxz).
      destruct x; try done. simpl in Hxz. injection Hxz as ->.
      by eapply list_elem_of_lookup_2.
    + intros [Hz|(t' & [= <-] & Hin)]; [done|]. right.
      apply list_elem_of_lookup in Hin as [i Hi].
      destruct (Forall2_lookup_l _ _ _ _ _ Hzs Hi) as (y & Hy & Hxy).
      simpl in Hxy. injection Hxy as <-. by eapply list_elem_of_lookup_2.
Qed.

(** X17: the dictionary of [get_contact_zones] has one entry for each
    zone id asked for; the entry of a zone lists exactly the positions of
    the sites whose 'cz' is the zone, so no site is in two entries. *)
Theorem contact_zones_members zone_id cz d :
  get_contact_zones zone_id cz = OK d ->
  NoDup (d.*1) /\
  (forall z, z ∈ d.*1 <->
     zone_id = PyInt z \/ exists t, zone_id = PyTuple t /\ PyInt z ∈ t) /\
  (forall z l p, (z, l) ∈ d ->
     p ∈ l <-> exists i, p = Z.of_nat i /\ cz !! i = Some z) /\
  (forall z1 l1 z2 l2 p,
     (z1, l1) ∈ d -> (z2, l2) ∈ d -> p ∈ l1 -> p ∈ l2 -> z1 = z2).
Proof.
  intros H. destruct (contact_zones_OK _ _ _ H) as (Hnd & Hval & Hkeys).
  split; [done|]. split; [done|]. split.
  - intros z l p Hin. rewrite (Hval z l Hin). apply where_eq_spec.
  - intros z1 l1 z2 l2 p H1 H2 Hp1 Hp2.
    rewrite (Hval _ _ H1) in Hp1. rewrite (Hval _ _ H2) in Hp2.
    apply where_eq_spec in Hp1 as (i & -> & Hi).
    apply where_eq_spec in Hp2 as (j & Hij & Hj).
    apply Nat2Z.inj in Hij as <-. congruence.
Qed.

Lemma contact_zones_members_witness :
  let zone_id := PyTuple [PyInt 3; PyInt 7; PyInt 3] in
  let cz := [0; 3; 7; 3; 0]%Z in
  let d := [(3, [1; 3]); (7, [2])]%Z in
  NoDup (d.*1) /\
  (forall z, z ∈ d.*1 <->
     zone_id = PyInt z \/ exists t, zone_id = PyTuple t /\ PyInt z ∈ t) /\
  (forall z l p, (z, l) ∈ d ->
     p ∈ l <-> exists i, p = Z.of_nat i /\ cz !! i = Some z) /\
  (forall z1 l1 z2 l2 p,
     (z1, l1) ∈ d -> (z2, l2) ∈ d -> p ∈ l1 -> p ∈ l2 -> z1 = z2).
Proof.
  intros zone_id cz d. apply (contact_zones_members zone_id cz d).
  reflexivity.
Defined.

Lemma zone_row_spec n js i :
  foldr (fun j r => <[j := true]> r) (replicate n false) js !! i = Some true
  <-> i ∈ js /\ i < n.
Proof.
  split.
  - intros H. split.
    + apply SimulationFacts.set_positions_true in H as [H|H]; [|done].
      apply lookup_replicate in H as [? _]. done.
    + apply lookup_lt_Some in H.
      by rewrite SimulationFacts.set_positions_length, length_replicate in H.
  - intros [Hin Hi]. induction js as [|j js IH]; [inversion Hin|]. simpl.
    destruct (decide (j = i)) as [->|Hne].
    + apply list_lookup_insert_eq.
      by rewrite SimulationFacts.set_positions_length, length_replicate.
    + rewrite list_lookup_insert_ne by done. apply IH.
      apply elem_of_cons in Hin as [->|Hin]; done.
Qed.

Lemma index_positions n (l : list Z) :
  (forall p, p ∈ l -> exists i, p = Z.of_nat i /\ i < n) ->
  map_result (Simulation.index n) l = OK (map Z.to_nat l).
Proof.
  intros Hl. apply map_result_Forall2. apply Forall2_fmap_r.
  apply Forall_Forall2_diag. apply Forall_forall. intros p Hp.
  destruct (Hl p Hp) as (i & -> & Hi). unfold Simulation.index.
  rewrite decide_True by lia. done.
Qed.

Lemma zones_rows n (pre : list (list bool)) (rest : list (list Z)) :
  (forall l p, l ∈ rest -> p ∈ l -> exists i, p = Z.of_nat i /\ i < n) ->
  for_in (zip (seq (length pre) (length rest)) rest)
    (fun '(k, z_id) zones => Simulation.set_true zones k z_id)
    (pre ++ replicate (length rest) (replicate n false))
  = OK (pre ++ map (zone_row n) rest).
Proof.
  revert pre. induction rest as [|l rest IH]; intros pre Hpos; [done|].
  cbn [length seq zip zip_with for_in replicate].
  assert (Simulation.set_true
            (pre ++ replicate n false :: replicate (length rest)
                                                  (replicate n false))
            (length pre) l
          = OK (pre ++ zone_row n l :: replicate (length rest)
                                                (replicate n false))) as ->.
  { unfold Simulation.set_true. rewrite list_lookup_middle by done.
    rewrite length_replicate, index_positions.
    - cbn [mbind result_bind]. f_equal.
      replace (length pre) with (length pre + 0) at 1 by lia.
      by rewrite insert_app_r.
    - intros p. apply Hpos. constructor. }
  cbn [mbind result_bind].
  specialize (IH (pre ++ [zone_row n l])).
  rewrite length_app, <- (assoc_L (++)) in IH. cbn [length app] in IH.
  rewrite Nat.add_1_r in IH. rewrite IH.
  - by rewrite <- (assoc_L (++)).
  - intros l' p Hl'. apply Hpos. by constructor.
Qed.

(** X18: for a valid [zone_id] and a list 'cz' no longer than 'id',
    [simulate_zones] returns an array with one row for each entry of the
    dictionary of [get_contact_zones] and one column for each site; the cell
    of row [k] and site [i] is true exactly when 'cz' of the site is the zone
    of the [k]-th entry. *)
Theorem simulate_zones_membership zone_id sites_sim d :
  length (cz sites_sim) <= length (id sites_sim) ->
  get_contact_zones zone_id (cz sites_sim) = OK d ->
  exists zones,
    simulate_zones zone_id sites_sim = OK zones /\
    length zones = length d /\
    (forall row, row ∈ zones -> length row = length (id sites_sim)) /\
    (forall k z l i, d !! k = Some (z, l) ->
       Network.cell zones k i = Some true <-> cz sites_sim !! i = Some z).
Proof.
  intros Hlen Hd.
  destruct (contact_zones_OK _ _ _ Hd) as (Hnd & Hval & Hkeys).
  set (n := length (id sites_sim)).
  assert (forall l p, l ∈ map snd d -> p ∈ l ->
                      exists i, p = Z.of_nat i /\ i < n) as Hpos.
  { intros l p Hl Hp. apply list_elem_of_fmap in Hl as ([z l'] & -> & Hin).
    simpl in Hp. rewrite (Hval _ _ Hin) in Hp.
    apply where_eq_spec in Hp as (i & -> & Hi). exists i. split; [done|].
    apply lookup_lt_Some in Hi. unfold n. lia. }
  exists (map (zone_row n) (map snd d)). split; [|split; [|split]].
  - unfold simulate_zones. rewrite Hd. cbn [mbind result_bind].
    unfold Simulation.np_zeros_bool.
    destruct (Z.ltb_spec (Z.of_nat (length d)) 0); [lia|].
    cbn [mbind result_bind]. rewrite Nat2Z.id.
    pose proof (zones_rows n [] (map snd d) Hpos) as Hrows.
    rewrite length_map in Hrows. exact Hrows.
  - by rewrite !length_map.
  - intros row Hrow. apply list_elem_of_fmap in Hrow as (l & -> & _).
    unfold zone_row.
    by rewrite SimulationFacts.set_positions_length, length_replicate.
  - intros k z l i Hk. unfold Network.cell.
    rewrite !list_lookup_fmap, Hk. cbn.
    unfold zone_row. rewrite zone_row_spec.
    assert ((z, l) ∈ d) as Hin by (by eapply list_elem_of_lookup_2).
    rewrite (Hval _ _ Hin). split.
    + intros [Hi _]. apply list_elem_of_fmap in Hi as (p & -> & Hp).
      apply where_eq_spec in Hp as (j & -> & Hj). by rewrite Nat2Z.id.
    + intros Hi. split.
      * apply list_elem_of_fmap. exists (Z.of_nat i).
        split; [by rewrite Nat2Z.id|]. apply where_eq_spec. eauto.
      * apply lookup_lt_Some in Hi. unfold n. lia.
Qed.

Lemma simulate_zones_membership_witness :
  exists zones,
    simulate_zones (PyTuple [PyInt 3; PyInt 7]) five_sites = OK zones /\
    length zones = 2 /\
    (forall row, row ∈ zones -> length row = 5) /\
    (forall k z l i, [(3, [1; 3]); (7, [2])]%Z !! k = Some (z, l) ->
       Network.cell zones k i = Some true <-> cz five_sites !! i = Some z).
Proof.
  apply (simulate_zones_membership (PyTuple [PyInt 3; PyInt 7]) five_sites
           [(3, [1; 3]); (7, [2])]%Z).
  - simpl. lia.
  - reflexivity.
Defined.
End SitesFacts.

Module SimulationMore.
Import Simulation SimulationFacts SimulationExtra.

(** *** Sampling by the cumulative distribution *)






(** *** The sizes of the families *)

Lemma np_random_permutation_S n g :
  np_random_permutation (S n) g
  = let '(p, g) := np_random_permutation n g in
    let '(r, g) := draw g in
    let i := (N.to_nat r mod S n)%nat in
    (take i p ++ n :: drop i p, g).
Proof. reflexivity. Qed.

Lemma np_random_permutation_spec n g p g' :
  np_random_permutation n g = (p, g') ->
  NoDup p /\ length p = n /\ forall x, x ∈ p -> (x < n)%nat.
Proof.
  revert g p g'. induction n as [|n IH]; intros g p g'.
  - intros [= <- _]. split; [constructor|]. split; [done|].
    intros x Hx. inversion Hx.
  - rewrite np_random_permutation_S.
    destruct (np_random_permutation n g) as [p0 g0] eqn:Hp.
    destruct (draw g0) as [r g1]. cbv zeta.
    generalize (N.to_nat r mod S n)%nat. intros i [= <- _].
    destruct (IH _ _ _ Hp) as (Hnd & Hlen & Hlt).
    rewrite <- (take_drop i p0) in Hnd, Hlen, Hlt.
    apply NoDup_app in Hnd as (Hn1 & Hn12 & Hn2).
    split; [|split].
    + apply NoDup_app. split; [done|]. split.
      * intros x Hx Hin. apply elem_of_cons in Hin as [->|Hin].
        -- assert (n < n)%nat; [|lia]. apply Hlt. apply elem_of_app. auto.
        -- by apply (Hn12 x).
      * apply NoDup_cons. split; [|done]. intros Hin.
        assert (n < n)%nat; [|lia]. apply Hlt. apply elem_of_app. auto.
    + rewrite length_app in *. cbn [length]. lia.
    + intros x Hx. apply elem_of_app in Hx as [Hx|Hx].
      * assert (x < n)%nat; [|lia]. apply Hlt. apply elem_of_app. auto.
      * apply elem_of_cons in Hx as [->|Hx]; [lia|].
        assert (x < n)%nat; [|lia]. apply Hlt. apply elem_of_app. auto.
Qed.

Lemma omap_lookup_NoDup {A} (a : list A) (l : list nat) :
  NoDup a -> NoDup l -> (forall i, i ∈ l -> (i < length a)%nat) ->
  NoDup (omap (fun i => a !! i) l) /\
  length (omap (fun i => a !! i) l) = length l.
Proof.
  intros Ha. induction l as [|i l IH]; intros Hl Hlt; simpl.
  - split; [constructor|done].
  - apply NoDup_cons in Hl as [Hi Hl].
    destruct IH as [IHnd IHlen]; [done|intros j Hj; apply Hlt; by constructor|].
    destruct (lookup_lt_is_Some_2 a i) as [x Hx]; [apply Hlt; constructor|].
    rewrite Hx. split; [|exact (f_equal S IHlen)].
    apply NoDup_cons. split; [|done]. intros Hin.
    apply list_elem_of_omap in Hin as (j & Hj & Hjx).
    assert (i = j) as -> by exact (NoDup_lookup a i j x Ha Hx Hjx). done.
Qed.

Lemma np_random_choice_spec a size g f g' :
  NoDup a -> np_random_choice a size g = OK (f, g') ->
  NoDup f /\ Z.of_nat (length f) = size.
Proof.
  intros Ha. unfold np_random_choice.
  destruct (Z.ltb_spec size 0); [done|].
  destruct (Z.ltb_spec (Z.of_nat (length a)) size); [done|].
  destruct (np_random_permutation (length a) g) as [p g1] eqn:Hp.
  intros [= <- _].
  destruct (np_random_permutation_spec _ _ _ _ Hp) as (Hnd & Hlen & Hlt).
  destruct (omap_lookup_NoDup a (take (Z.to_nat size) p) Ha) as [H1 H2].
  - rewrite <- (take_drop (Z.to_nat size) p) in Hnd.
    by apply NoDup_app in Hnd as (? & _ & _).
  - intros i Hi. apply Hlt. rewrite <- (take_drop (Z.to_nat size) p).
    apply elem_of_app. by left.
  - split; [done|]. rewrite H2, length_take. lia.
Qed.

Lemma np_random_randint_range low high g x g' :
  np_random_randint low high g = OK (x, g') -> (low <= x < high)%Z.
Proof.
  unfold np_random_randint. destruct (Z.leb_spec high low); [done|].
  destruct (draw g) as [a g1]. intros [= <- _].
  pose proof (Z.mod_pos_bound (Z.of_N a) (high - low) ltac:(lia)). lia.
Qed.

Lemma draw_family_sized sites_id lo hi st st' :
  sized lo hi sites_id st ->
  (let '(sites, sites_in_family, g) := st in
   '(f_size, g) ← np_random_randint lo hi g;
   '(f, g) ← np_random_choice sites f_size g;
   let sites := filter (fun s => s ∉ f) sites in
   OK (sites, sites_in_family ++ [f], g)) = OK st' ->
  sized lo hi sites_id st' /\ length st'.1.2 = S (length st.1.2).
Proof.
  destruct st as [[sites fams] g]. intros (Hnd & Hsub & Hfams) Hstep.
  apply bind_OK in Hstep as ([f_size g1] & Hsize & Hstep).
  apply bind_OK in Hstep as ([f g2] & Hf & Hstep).
  injection Hstep as <-.
  apply np_random_randint_range in Hsize.
  pose proof (np_random_choice_subset _ _ _ _ _ Hf) as Hfs.
  destruct (np_random_choice_spec _ _ _ _ _ Hnd Hf) as [Hfnd Hflen].
  split; [|simpl; rewrite length_app; simpl; lia].
  split; [by apply NoDup_filter|]. split.
  - intros x Hx. apply list_elem_of_filter in Hx as [_ Hx]. auto.
  - intros f' Hf'. apply elem_of_app in Hf' as [Hf'|Hf']; [auto|].
    apply list_elem_of_singleton in Hf' as ->.
    split; [done|]. split; [auto|lia].
Qed.

Lemma draw_families_sized sites_id lo hi (xs : list Z) st st' :
  sized lo hi sites_id st ->
  for_in xs (fun nf '(sites, sites_in_family, g) =>
       '(f_size, g) ← np_random_randint lo hi g;
       '(f, g) ← np_random_choice sites f_size g;
       let sites := filter (fun s => s ∉ f) sites in
       OK (sites, sites_in_family ++ [f], g)) st = OK st' ->
  sized lo hi sites_id st' /\
  length st'.1.2 = (length st.1.2 + length xs)%nat.
Proof.
  revert st. induction xs as [|x xs IH]; intros st Hst Hrun; simpl in Hrun.
  - injection Hrun as <-. split; [done|]. simpl. lia.
  - apply bind_OK in Hrun as (st1 & Hstep & Hrun).
    destruct st as [[sites fams] g].
    destruct (draw_family_sized sites_id lo hi (sites, fams, g) st1 Hst Hstep)
      as [Hst1 Hlen1].
    destruct (IH st1 Hst1 Hrun) as [Hst' Hlen']. split; [done|].
    rewrite Hlen', Hlen1. simpl. lia.
Qed.

(** X20: for distinct site ids that are positions of the site list, the
    returned family matrix has [n_families] rows of one cell per site; a row
    marks exactly the sites of one family, which has no site twice and a
    size from [min_family_size] up to, but not including,
    [max_family_size]. *)
Theorem simulate_families_sizes sites_id n_families max_family_size
    min_family_size g families g' :
  NoDup sites_id ->
  Forall (fun s => 0 <= s < Z.of_nat (length sites_id))%Z sites_id ->
  simulate_families sites_id n_families max_family_size min_family_size g
  = OK (families, g') ->
  length families = Z.to_nat n_families /\
  forall k row, families !! k = Some row ->
    length row = length sites_id /\
    exists f,
      NoDup f /\
      (min_family_size <= Z.of_nat (length f) < max_family_size)%Z /\
      forall j, row !! j = Some true <-> Z.of_nat j ∈ f.
Proof.
  intros Hnd Hids Hrun. unfold simulate_families in Hrun.
  apply bind_OK in Hrun as ([[sites fams] g1] & Hdraw & Hrun).
  apply bind_OK in Hrun as (zeros & Hz & Hrun).
  apply bind_OK in Hrun as (fam & Hmark & Hrun).
  injection Hrun as <- <-.
  apply (draw_families_sized sites_id) in Hdraw as [(_ & _ & Hfams) Hlen].
  2:{ split; [done|]. split; [done|]. intros f Hf. inversion Hf. }
  simpl in Hlen. unfold range in Hlen. rewrite length_seqZ, Z.sub_0_r in Hlen.
  unfold np_zeros_bool in Hz. destruct (n_families <? 0)%Z; [done|].
  injection Hz as <-. rewrite <- Hlen in Hmark.
  set (n := length sites_id) in *.
  pose proof (SitesFacts.zones_rows n [] fams) as Hrows.
  simpl in Hrows. rewrite Hrows in Hmark.
  2:{ intros f p Hf Hp. destruct (Hfams f Hf) as (_ & Hsub & _).
      pose proof (proj1 (Forall_forall _ _) Hids p (Hsub p Hp)) as Hp'.
      simpl in Hp'. exists (Z.to_nat p). split; lia. }
  injection Hmark as <-. split; [by rewrite length_map|].
  intros k row Hk. apply list_lookup_fmap_Some in Hk as (f & -> & Hf).
  apply list_elem_of_lookup_2 in Hf.
  destruct (Hfams f Hf) as (Hfnd & Hsub & Hsize). split.
  - unfold Sites.zone_row.
    by rewrite set_positions_length, length_replicate.
  - exists f. split; [done|]. split; [done|].
    intros j. unfold Sites.zone_row. rewrite SitesFacts.zone_row_spec. split.
    + intros [Hj _]. apply list_elem_of_fmap in Hj as (p & -> & Hp).
      pose proof (proj1 (Forall_forall _ _) Hids p (Hsub p Hp)) as Hp'.
      simpl in Hp'. by rewrite Z2Nat.id by lia.
    + intros Hj.
      pose proof (proj1 (Forall_forall _ _) Hids _ (Hsub _ Hj)) as Hj'.
      simpl in Hj'. split; [|lia]. apply list_elem_of_fmap. exists (Z.of_nat j).
      by rewrite Nat2Z.id.
Qed.

Lemma simulate_families_sizes_witness :
  exists families g',
    simulate_families [0; 1; 2; 3; 4; 5]%Z 2 3 1 tape0 = OK (families, g') /\
    length families = Z.to_nat 2 /\
    forall k row, families !! k = Some row ->
      length row = length [0; 1; 2; 3; 4; 5]%Z /\
      exists f,
        NoDup f /\
        (1 <= Z.of_nat (length f) < 3)%Z /\
        forall j, row !! j = Some true <-> Z.of_nat j ∈ f.
Proof.
  eexists _, _. split; [vm_compute; reflexivity|].
  eapply (simulate_families_sizes [0; 1; 2; 3; 4; 5]%Z 2 3 1 tape0).
  - apply (bool_decide_unpack _). vm_compute. exact I.
  - repeat constructor; simpl; lia.
  - vm_compute. reflexivity.
Defined.

(** *** The shapes of the probability arrays *)

Lemma assign_prefix_length row k d row' :
  assign_prefix row k d = OK row' -> length row' = length row.
Proof.
  unfold assign_prefix. destruct d as [|vals [|? ?]]; try done.
  destruct (Nat.ltb_spec (length row) (Z.to_nat k)); [done|].
  destruct (Nat.eqb_spec (length vals) (Z.to_nat k)); [|done].
  intros [= <-]. rewrite length_app, length_drop. lia.
Qed.

Lemma assign2_shape rows cols a f k d a' :
  shape2 rows cols a -> assign2 a f k d = OK a' -> shape2 rows cols a'.
Proof.
  intros [Hlen Hrows] H.
  apply assign2_spec in H as (row & row' & Hrow & Hpre & ->).
  split; [by rewrite length_insert|].
  apply Forall_insert; [done|].
  rewrite (assign_prefix_length _ _ _ _ Hpre).
  exact (proj1 (Forall_lookup _ _) Hrows f row Hrow).
Qed.

Lemma assign3_shape units rows cols a z f k d a' :
  shape3 units rows cols a -> assign3 a z f k d = OK a' ->
  shape3 units rows cols a'.
Proof.
  intros [Hlen Hplanes]. unfold assign3.
  destruct (a !! z) as [plane|] eqn:Hz; [|done]. intros H.
  apply bind_OK in H as (plane' & Hplane & [= <-]).
  split; [by rewrite length_insert|].
  apply Forall_insert; [done|].
  eapply assign2_shape; [|exact Hplane].
  exact (proj1 (Forall_lookup _ _) Hplanes z plane Hz).
Qed.

Lemma for_units_shape units rows cols n_units intensity f cat_f p g p' g' :
  shape3 units rows cols p ->
  for_units n_units intensity f cat_f (p, g) = OK (p', g') ->
  shape3 units rows cols p'.
Proof.
  intros Hp Hrun. unfold for_units in Hrun.
  refine (for_in_invariant
            (fun st : list (list (list npfloat)) * rng => shape3 units rows cols st.1)
            _ _ (p, g) (p', g') _ Hp Hrun).
  intros z [p0 g0] [p1 g1] _ Hp0 Hbody. simpl in *.
  apply bind_OK in Hbody as ([d g2] & _ & Hbody).
  apply bind_OK in Hbody as (p2 & Hassign & [= <- <-]).
  by eapply assign3_shape.
Qed.

Lemma np_zeros2_shape rows cols a :
  np_zeros2 rows cols = OK a -> shape2 rows (Z.to_nat cols) a.
Proof.
  unfold np_zeros2. destruct (cols <? 0)%Z; [done|]. intros [= <-].
  split; [apply length_replicate|].
  apply Forall_replicate, length_replicate.
Qed.

Lemma np_zeros3_shape units rows cols a :
  np_zeros3 units rows cols = OK a -> shape3 units rows (Z.to_nat cols) a.
Proof.
  unfold np_zeros3. destruct (Z.ltb_spec cols 0); [done|]. intros [= <-].
  split; [apply length_replicate|].
  apply Forall_replicate. apply (np_zeros2_shape rows cols).
  unfold np_zeros2. destruct (Z.ltb_spec cols 0); [lia|done].
Qed.

(** X21: the arrays that [simulate_assignment_probabilities] returns are
    padded to the largest number of categories drawn: the global array has
    one row per feature, the zone and family arrays one such array per zone
    and per family, and every row has as many cells as the largest number of
    categories. *)
Theorem assignment_probability_shapes n_features p_number_categories
    (inheritance : bool) zones intensity_contact intensity_global
    intensity_inheritance families g p_global p_zones p_families g' :
  simulate_assignment_probabilities n_features p_number_categories inheritance
    zones intensity_contact intensity_global intensity_inheritance families g
  = OK (p_global, p_zones, p_families, g') ->
  exists n_categories g1 max_categories,
    np_random_choice_p (map fst p_number_categories) n_features
      (map snd p_number_categories) g = OK (n_categories, g1) /\
    py_max n_categories = OK max_categories /\
    (forall k, k ∈ n_categories -> (k <= max_categories)%Z) /\
    shape2 (length n_categories) (Z.to_nat max_categories) p_global /\
    shape3 (length zones) (length n_categories) (Z.to_nat max_categories)
           p_zones /\
    (if inheritance then
       exists fams pf,
         families = Some fams /\ p_families = Some pf /\
         shape3 (length fams) (length n_categories)
                (Z.to_nat max_categories) pf
     else p_families = None).
Proof.
  unfold simulate_assignment_probabilities. intros H.
  apply bind_OK in H as ([n_categories g1] & Hcats & H).
  apply bind_OK in H as (max_categories & Hmax & H).
  apply bind_OK in H as (pg0 & Hpg0 & H).
  apply bind_OK in H as (pz0 & Hpz0 & H).
  apply bind_OK in H as ([[pg1 pz1] g2] & Hloop & H).
  exists n_categories, g1, max_categories.
  split; [done|]. split; [done|]. split.
  { unfold py_max in Hmax. destruct n_categories as [|x l]; [done|].
    injection Hmax as <-. clear. intros k Hk.
    assert (forall l x, (x <= foldl Z.max x l)%Z /\
                        forall k, k ∈ l -> (k <= foldl Z.max x l)%Z) as Hfold.
    { clear. induction l as [|y l IH]; intros x; simpl.
      - split; [lia|]. intros k Hk. inversion Hk.
      - destruct (IH (Z.max x y)) as [H1 H2]. split; [lia|].
        intros k Hk. apply elem_of_cons in Hk as [->|Hk]; [lia|auto]. }
    destruct (Hfold l x) as [H1 H2].
    apply elem_of_cons in Hk as [->|Hk]; auto. }
  apply np_zeros2_shape in Hpg0. apply np_zeros3_shape in Hpz0.
  assert (shape2 (length n_categories) (Z.to_nat max_categories) pg1 /\
          shape3 (length zones) (length n_categories)
                 (Z.to_nat max_categories) pz1) as [Hpg1 Hpz1].
  { refine (for_in_invariant
      (fun st : list (list npfloat) * list (list (list npfloat)) * rng =>
         shape2 (length n_categories) (Z.to_nat max_categories) st.1.1 /\
         shape3 (length zones) (length n_categories)
                (Z.to_nat max_categories) st.1.2)
      _ _ (pg0, pz0, g1) (pg1, pz1, g2) _ (conj Hpg0 Hpz0) Hloop).
    intros f [[a b] g0] [[a' b'] g0'] _ [Ha Hb] Hbody. simpl in *.
    apply bind_OK in Hbody as (cat_f & _ & Hbody).
    apply bind_OK in Hbody as ([d g3] & _ & Hbody).
    apply bind_OK in Hbody as (a1 & Hassign & Hbody).
    apply bind_OK in Hbody as ([b1 g4] & Hunits & [= <- <- <-]).
    split; [by eapply assign2_shape|by eapply for_units_shape]. }
  destruct inheritance; simpl in H.
  - apply bind_OK in H as (n_families & Hnf & H).
    apply bind_OK in H as (pf0 & Hpf0 & H).
    apply bind_OK in H as ([pf1 g3] & Hfam & [= <- <- <- <-]).
    split; [done|]. split; [done|].
    destruct families as [fams|]; [|done]. injection Hnf as <-.
    exists fams, pf1. split; [done|]. split; [done|].
    apply np_zeros3_shape in Hpf0.
    refine (for_in_invariant
      (fun st : list (list (list npfloat)) * rng =>
         shape3 (length fams) (length n_categories)
                (Z.to_nat max_categories) st.1)
      _ _ (pf0, g2) (pf1, g3) _ Hpf0 Hfam).
    intros f [b g0] [b' g0'] _ Hb Hbody. simpl in *.
    apply bind_OK in Hbody as (cat_f & _ & Hbody).
    by eapply for_units_shape.
  - injection H as <- <- <- <-. done.
Qed.

Lemma assignment_probability_shapes_witness :
  exists p_global p_zones p_families g',
    simulate_assignment_probabilities 2 [(2, 1 # 2); (3, 1 # 2)]%Z true
      [[true]; [false]] 1 1 (Some 1%Q) (Some [[true]]) tape0
    = OK (p_global, p_zones, p_families, g') /\
    exists n_categories g1 max_categories,
      np_random_choice_p (map fst [(2, 1 # 2); (3, 1 # 2)]%Z) 2
        (map snd [(2, 1 # 2); (3, 1 # 2)]%Z) tape0 = OK (n_categories, g1) /\
      py_max n_categories = OK max_categories /\
      (forall k, k ∈ n_categories -> (k <= max_categories)%Z) /\
      shape2 (length n_categories) (Z.to_nat max_categories) p_global /\
      shape3 (length [[true]; [false]]) (length n_categories)
             (Z.to_nat max_categories) p_zones /\
      exists fams pf,
        Some [[true]] = Some fams /\ p_families = Some pf /\
        shape3 (length fams) (length n_categories)
               (Z.to_nat max_categories) pf.
Proof.
  eexists _, _, _, _. split; [vm_compute; reflexivity|].
  eapply (assignment_probability_shapes 2 [(2, 1 # 2); (3, 1 # 2)]%Z true
            [[true]; [false]] 1 1 (Some 1%Q) (Some [[true]]) tape0).
  vm_compute. reflexivity.
Defined.

(** *** Missing values *)

Lemma zero_row_cells features s f features' :
  zero_row features s f = OK features' ->
  length features' = length features /\
  shape1 features' = shape1 features /\
  Forall2 (fun site site' => length site' = length site) features features' /\
  forall s' f',
    row_at features' s' f' =
    if decide (s' = s /\ f' = f)
    then (fun row => replicate (length row) 0%Q) <$> row_at features s f
    else row_at features s' f'.
Proof.
  unfold zero_row, row_at.
  destruct (features !! s) as [site|] eqn:Hs; [|done].
  destruct (site !! f) as [row|] eqn:Hf; [|done]. intros [= <-].
  assert (s < length features)%nat as Hsl by (by eapply lookup_lt_Some).
  assert (f < length site)%nat as Hfl by (by eapply lookup_lt_Some).
  split; [by rewrite length_insert|]. split; [|split].
  - destruct features as [|site0 rest]; [done|].
    destruct s; simpl in *; [|done].
    injection Hs as ->. by rewrite length_insert.
  - apply Forall2_same_length_lookup. split; [by rewrite length_insert|].
    intros i a b Ha Hb. destruct (decide (i = s)) as [->|Hne].
    + rewrite list_lookup_insert_eq in Hb by done. injection Hb as <-.
      rewrite length_insert. congruence.
    + rewrite list_lookup_insert_ne in Hb by done. congruence.
  - intros s' f'. destruct (decide (s' = s)) as [->|Hne].
    + rewrite list_lookup_insert_eq by done. simpl.
      destruct (decide (f' = f)) as [->|Hnf].
      * rewrite decide_True by done.
        rewrite list_lookup_insert_eq by done. by rewrite Hf.
      * rewrite decide_False by tauto.
        rewrite list_lookup_insert_ne by done. by rewrite Hs.
    + rewrite list_lookup_insert_ne by done.
      rewrite decide_False by tauto. done.
Qed.

(** X22: [assign_na] keeps the number of sites and the number of features
    of every site, and every row (site, feature) of its result is the row of
    the input or that row with every cell set to 0. *)
Theorem assign_na_only_zeroes features n_na g features' g' :
  assign_na features n_na g = OK (features', g') ->
  Forall2 (fun site site' => length site' = length site) features features' /\
  forall s f, kept_or_zeroed (row_at features s f) (row_at features' s f).
Proof.
  intros Hrun. unfold assign_na in Hrun.
  refine (for_in_invariant
    (fun st : list (list (list Q)) * rng =>
       Forall2 (fun site site' => length site' = length site) features st.1 /\
       forall s f, kept_or_zeroed (row_at features s f) (row_at st.1 s f))
    _ _ (features, g) (features', g') _ _ Hrun).
  - intros _ [a g0] [a' g0'] _ [Hlen Hrows] Hbody. simpl in *.
    apply bind_OK in Hbody as ([na_site g1] & _ & Hbody).
    apply bind_OK in Hbody as ([na_feature g2] & _ & Hbody).
    apply bind_OK in Hbody as (a1 & Hzero & [= <- <-]).
    apply zero_row_cells in Hzero as (_ & _ & Hl & Hcells). split.
    + apply Forall2_same_length_lookup. split.
      * apply Forall2_length in Hlen, Hl. congruence.
      * intros i x z Hx Hz.
        destruct (Forall2_lookup_l _ _ _ _ _ Hlen Hx) as (y & Hy & Hxy).
        destruct (Forall2_lookup_l _ _ _ _ _ Hl Hy) as (z' & Hz' & Hyz).
        congruence.
    + intros s f. rewrite Hcells. specialize (Hrows s f).
      destruct (decide (s = na_site /\ f = na_feature)) as [[-> ->]|]; [|done].
      unfold kept_or_zeroed in *.
      destruct (row_at features na_site na_feature) as [row|].
      * destruct Hrows as [->| ->]; simpl; [auto|].
        rewrite length_replicate. auto.
      * by rewrite Hrows.
  - simpl. split.
    + apply Forall2_same_length_lookup. split; [done|]. congruence.
    + intros s f. unfold kept_or_zeroed.
      destruct (row_at features s f); auto.
Qed.

Lemma assign_na_only_zeroes_witness :
  exists features' g',
    assign_na two_by_two 3 tape0 = OK (features', g') /\
    Forall2 (fun site site' => length site' = length site)
            two_by_two features' /\
    forall s f, kept_or_zeroed (row_at two_by_two s f) (row_at features' s f).
Proof.
  eexists _, _. split; [vm_compute; reflexivity|].
  eapply (assign_na_only_zeroes two_by_two 3 tape0).
  vm_compute. reflexivity.
Defined.

Lemma np_random_choice_int_range a g :
  (0 < a)%nat ->
  exists i g', np_random_choice_int a g = OK (i, g') /\ (i < a)%nat.
Proof.
  intros Ha. unfold np_random_choice_int.
  destruct (Nat.eqb_spec a 0); [lia|]. destruct (draw g) as [r g1].
  eexists _, _. split; [done|]. apply Nat.mod_upper_bound. lia.
Qed.

Lemma assign_na_runs n_features (xs : list Z) features g :
  features ≠ [] -> (0 < n_features)%nat ->
  Forall (fun site => length site = n_features) features ->
  exists res,
    for_in xs (fun _ '(features, g) =>
        '(na_site, g) ← np_random_choice_int (length features) g;
        '(na_feature, g) ← np_random_choice_int (shape1 features) g;
        features ← zero_row features na_site na_feature;
        OK (features, g))
      (features, g) = OK res.
Proof.
  revert features g. induction xs as [|x xs IH]; intros a g Hne Hn Hrect.
  - simpl. eauto.
  - cbn [for_in].
    destruct (np_random_choice_int_range (length a) g) as (s & g1 & -> & Hs).
    { destruct a; [done|simpl; lia]. }
    cbn [mbind result_bind].
    assert (shape1 a = n_features) as Hshape.
    { destruct a as [|site a']; [done|]. simpl. by apply Forall_inv in Hrect. }
    destruct (np_random_choice_int_range (shape1 a) g1) as (f & g2 & -> & Hf).
    { lia. }
    cbn [mbind result_bind].
    destruct (lookup_lt_is_Some_2 a s Hs) as [site Hsite].
    pose proof (proj1 (Forall_lookup _ _) Hrect s site Hsite) as Hsl.
    simpl in Hsl.
    destruct (lookup_lt_is_Some_2 site f ltac:(lia)) as [row Hrow].
    destruct (zero_row a s f) as [a1|] eqn:Hzero.
    2:{ unfold zero_row in Hzero. by rewrite Hsite, Hrow in Hzero. }
    cbn [mbind result_bind].
    apply zero_row_cells in Hzero as (Hlen & _ & Hl & _).
    apply IH; [|done|].
    + intros ->. destruct a; done.
    + apply Forall_lookup. intros i site' Hi.
      destruct (Forall2_lookup_r _ _ _ _ _ Hl Hi) as (site0 & H0 & ->).
      exact (proj1 (Forall_lookup _ _) Hrect i site0 H0).
Qed.

(** X23: on an array whose sites all have [n_features] features,
    [assign_na] returns exactly when no missing value is asked for, or there
    is a site and a feature to choose; otherwise it raises. *)
Theorem assign_na_returns_iff n_features features n_na g :
  Forall (fun site => length site = n_features) features ->
  (exists res, assign_na features n_na g = OK res) <->
  (n_na <= 0)%Z \/ (features ≠ [] /\ (0 < n_features)%nat).
Proof.
  intros Hrect. split.
  - intros [res Hrun]. destruct (Z.le_gt_cases n_na 0) as [|Hpos]; [auto|].
    right. unfold assign_na, range in Hrun.
    rewrite Z.sub_0_r in Hrun.
    replace n_na with (Z.succ (Z.pred n_na)) in Hrun by lia.
    rewrite seqZ_cons in Hrun by lia. cbn [for_in] in Hrun.
    apply bind_OK in Hrun as ([a1 g1] & Hstep & _).
    apply bind_OK in Hstep as ([s g2] & Hs & Hstep).
    apply bind_OK in Hstep as ([f g3] & Hf & _).
    unfold np_random_choice_int in Hs, Hf.
    destruct (Nat.eqb_spec (length features) 0); [done|].
    destruct (Nat.eqb_spec (shape1 features) 0); [done|].
    destruct features as [|site rest]; [done|]. split; [done|].
    apply Forall_inv in Hrect. simpl in *. lia.
  - intros [Hle|[Hne Hn]].
    + unfold assign_na, range. rewrite Z.sub_0_r.
      destruct n_na; try lia; simpl; eauto.
    + by apply (assign_na_runs n_features).
Qed.

Lemma assign_na_returns_iff_witness :
  (exists res, assign_na two_by_two 3 tape0 = OK res) <->
  (3 <= 0)%Z \/ (two_by_two ≠ [] /\ (0 < 2)%nat).
Proof.
  apply (assign_na_returns_iff 2 two_by_two 3 tape0).
  repeat constructor.
Defined.

(** *** Global frequencies *)

Lemma rows_loop {A} (G : nat -> result A) m k (pre zeros vals : list A) :
  length pre = k -> length zeros = m ->
  Forall2 (fun f v => G f = OK v) (seq k m) vals ->
  for_in (seq k m) (fun f p => v ← G f; OK (<[f := v]> p)) (pre ++ zeros)
  = OK (pre ++ vals).
Proof.
  revert k pre zeros vals.
  induction m as [|m IH]; intros k pre zeros vals Hk Hm Hvals.
  - destruct zeros; [|done]. by inversion Hvals.
  - destruct zeros as [|z zeros]; [done|].
    cbn [seq] in *. apply Forall2_cons_inv_l in Hvals
      as (v & vals' & Hv & Hvals & ->).
    cbn [for_in]. rewrite Hv. cbn [mbind result_bind].
    assert (<[k := v]> (pre ++ z :: zeros) = pre ++ v :: zeros) as ->.
    { replace k with (length pre + 0)%nat by lia. by rewrite insert_app_r. }
    specialize (IH (S k) (pre ++ [v]) zeros vals').
    rewrite <- !(assoc_L (++)) in IH. apply IH.
    + rewrite length_app. simpl. lia.
    + simpl in Hm. lia.
    + done.
Qed.

Lemma Qsum_zip_plus (a b : list Q) :
  length a = length b ->
  (Qsum (zip_with Qplus a b) == Qsum a + Qsum b)%Q.
Proof.
  revert b. induction a as [|x a IH]; intros [|y b] Hlen; try done.
  cbn [zip_with]. rewrite !Qsum_cons, IH by (simpl in Hlen; lia). ring.
Qed.

Lemma Qsum_zeros c : (Qsum (replicate c 0%Q) == 0)%Q.
Proof.
  induction c as [|c IH]; [done|].
  cbn [replicate]. rewrite Qsum_cons, IH. ring.
Qed.

Lemma sum_rows c (rows : list (list Q)) acc :
  length acc = c -> Forall (fun r => length r = c) rows ->
  length (foldl (zip_with Qplus) acc rows) = c /\
  (Qsum (foldl (zip_with Qplus) acc rows) == Qsum acc + Qsum (map Qsum rows))%Q.
Proof.
  revert acc. induction rows as [|r rows IH]; intros acc Hacc Hrows.
  - simpl. split; [done|].
    change (Qsum []) with 0%Q. ring.
  - apply Forall_cons in Hrows as [Hr Hrows]. cbn [foldl map].
    destruct (IH (zip_with Qplus acc r)) as [Hlen Hsum]; [|done|].
    { rewrite length_zip_with. lia. }
    split; [done|].
    rewrite Hsum, Qsum_zip_plus by lia. rewrite Qsum_cons. ring.
Qed.

Lemma Qsum_ones (xs : list Q) :
  Forall (fun x => x == 1)%Q xs ->
  (Qsum xs == inject_Z (Z.of_nat (length xs)))%Q.
Proof.
  induction 1 as [|x xs Hx _ IH]; [done|].
  rewrite Qsum_cons, Hx, IH. cbn [length].
  rewrite Nat2Z.inj_succ. unfold Z.succ. rewrite inject_Z_plus. ring.
Qed.

(** X24: for an array of the declared shape with at least one site, in
    which every row (site, feature) sums to 1 over the categories,
    [compute_global_freq_from_data] returns one row of numbers for each
    feature, with one number for each category, that sums to 1. *)
Theorem global_frequencies_sum_to_one (feat : feature_array) :
  well_shaped feat ->
  sites feat ≠ [] ->
  (forall site row, site ∈ sites feat -> row ∈ site -> (Qsum row == 1)%Q) ->
  exists p,
    compute_global_freq_from_data feat = OK p /\
    length p = n_features feat /\
    forall row, row ∈ p ->
      exists qs, row = map num qs /\ length qs = n_categories feat /\
                 (Qsum qs == 1)%Q.
Proof.
  intros [_ Hshape] Hne Hone.
  set (n := length (sites feat)).
  assert (0 < n)%nat as Hn by (unfold n; destruct (sites feat); [done|simpl; lia]).
  set (rows_of f := map (fun site : list (list Q) => default [] (site !! f))
                        (sites feat)).
  set (freq f := map (fun c => c / inject_Z (Z.of_nat n))%Q
                     (sum_axis0 (n_categories feat) (rows_of f))).
  exists (map (fun f => map num (freq f)) (seq 0 (n_features feat))).
  split; [|split].
  - unfold compute_global_freq_from_data.
    pose proof (rows_loop
      (fun f =>
         rows ← map_result (fun site => Sites.item site f) (sites feat);
         OK (map (fun c => true_divide c (length (sites feat)))
                 (sum_axis0 (n_categories feat) rows)))
      (n_features feat) 0 []
      (replicate (n_features feat) (replicate (n_categories feat) (num 0)))
      (map (fun f => map num (freq f)) (seq 0 (n_features feat)))) as Hloop.
    simpl in Hloop. cbv zeta. etransitivity; [|apply Hloop].
    { apply for_in_ext. intros f p _.
      by destruct (map_result _ (sites feat)). }
    { done. } { apply length_replicate. }
    apply Forall2_fmap_r, Forall_Forall2_diag, Forall_forall.
    intros f Hf. apply elem_of_seq in Hf as [_ Hf]. simpl in Hf.
    rewrite (SitesFacts.map_result_Forall2 _ _ (rows_of f)).
    + cbn [mbind result_bind]. f_equal. unfold freq.
      rewrite <- list_fmap_compose. apply list_fmap_ext.
      intros i c _. simpl. unfold true_divide. fold n.
      destruct (Nat.eqb_spec n 0); [lia|done].
    + unfold rows_of. apply Forall2_fmap_r, Forall_Forall2_diag, Forall_forall.
      intros site Hsite. unfold Sites.item. simpl.
      pose proof (proj1 (Forall_forall _ _) Hshape site Hsite) as [Hlen _].
      destruct (lookup_lt_is_Some_2 site f ltac:(lia)) as [row Hrow].
      by rewrite Hrow.
  - by rewrite length_map, length_seq.
  - intros row Hrow. apply list_elem_of_fmap in Hrow as (f & -> & Hf).
    apply elem_of_seq in Hf as [_ Hf]. simpl in Hf.
    exists (freq f). split; [done|].
    assert (Forall (fun r => length r = n_categories feat) (rows_of f) /\
            Forall (fun x => x == 1)%Q (map Qsum (rows_of f))) as [Hlen Hsum].
    { unfold rows_of. split.
      - apply Forall_fmap, Forall_forall. intros site Hsite. simpl.
        pose proof (proj1 (Forall_forall _ _) Hshape site Hsite) as [Hl Hr].
        destruct (lookup_lt_is_Some_2 site f ltac:(lia)) as [row Hrow].
        rewrite Hrow. simpl.
        exact (proj1 (Forall_lookup _ _) Hr f row Hrow).
      - apply Forall_fmap, Forall_fmap, Forall_forall. intros site Hsite.
        simpl.
        pose proof (proj1 (Forall_forall _ _) Hshape site Hsite) as [Hl Hr].
        destruct (lookup_lt_is_Some_2 site f ltac:(lia)) as [row Hrow].
        rewrite Hrow. simpl. apply (Hone site); [done|].
        by eapply list_elem_of_lookup_2. }
    destruct (sum_rows (n_categories feat) (rows_of f)
                (replicate (n_categories feat) 0%Q)) as [Hcl Hcs];
      [apply length_replicate|done|].
    split; [unfold freq; by rewrite length_map|].
    unfold freq, sum_axis0. rewrite Qsum_scale, Hcs, Qsum_zeros.
    rewrite (Qsum_ones _ Hsum), length_map.
    unfold rows_of. rewrite length_map. fold n.
    field. intros H0. unfold Qeq in H0. simpl in H0. unfold n in *. lia.
Qed.

Lemma global_frequencies_sum_to_one_witness :
  exists p,
    compute_global_freq_from_data two_by_two_features = OK p /\
    length p = n_features two_by_two_features /\
    forall row, row ∈ p ->
      exists qs, row = map num qs /\
                 length qs = n_categories two_by_two_features /\
                 (Qsum qs == 1)%Q.
Proof.
  apply (global_frequencies_sum_to_one two_by_two_features).
  - split; [reflexivity|]. repeat constructor.
  - discriminate.
  - intros site row Hsite Hrow.
    repeat (apply elem_of_cons in Hsite as [->|Hsite];
            [repeat (apply elem_of_cons in Hrow as [->|Hrow];
                     [reflexivity|]); inversion Hrow|]).
    inversion Hsite.
Defined.

(** X25: reading from a file, [get_global_frequencies] returns the array of
    the file unchanged when each of its rows sums to 1 within the tolerance,
    and raises a [ValueError] otherwise: counts are never divided by their
    row sums. *)
Theorem global_frequencies_from_file read divide_by_row_sums mode features
    global_freq :
  estimate_from_data mode = false ->
  read (file mode) = OK global_freq ->
  get_global_frequencies read divide_by_row_sums mode features
  = if allclose1 (map nansum global_freq) then OK global_freq
    else Raise ValueError.
Proof.
  intros Hmode Hread. unfold get_global_frequencies.
  rewrite Hmode, Hread. cbn [mbind result_bind].
  destruct (allclose1 (map nansum global_freq)) eqn:Hclose; [done|].
  destruct global_freq as [|row rest]; [|done].
  discriminate Hclose.
Qed.

Lemma global_frequencies_from_file_witness :
  let read := fun _ : string => OK [[num 3; num 1]; [num 2; num 2]] in
  let mode := {| estimate_from_data := false; file := "counts.csv" |} in
  get_global_frequencies read (fun a => a) mode None = Raise ValueError.
Proof.
  intros read mode.
  apply (global_frequencies_from_file read (fun a => a) mode None
           [[num 3; num 1]; [num 2; num 2]]); reflexivity.
Defined.
End SimulationMore.
